(** * PhySO run logger and run visualiser (physo/learn/monitoring.py)

    A shallow embedding of the two classes of [monitoring.py], [RunLogger]
    and [RunVisualiser], and the properties of the bookkeeping they do
    around the training loop: running best reward and hall of fame, the
    reward/complexity Pareto front, the per-epoch histories, the CSV log
    and the refresh policy of the dashboard.

    Conventions of the embedding.
    - A numpy float is either [NaN] or a rational number; only the order,
      the equality and the NaN tests of floats matter for the logger, so
      the rounding errors and the infinities of the arithmetic are not
      modelled: the properties are about the order of the rewards and
      about which operations are applied, not about the values that the
      arithmetic gives.
    - numpy arrays and Python lists are Rocq lists; an index out of range,
      an empty reduction and the like raise the Python exception through
      the [result] monad. What a method that raises had assigned before is
      not observed: the properties are about the calls that return.
    - The batch, the programs and the plotting back end are produced
      elsewhere; they appear as plain records and as outcomes handed to the
      visualiser. *)

From Stdlib Require Import QArith Qcanon Qround ZArith Lia Ascii String.
From stdpp Require Import base numbers list sorting strings gmap.

Local Open Scope Z_scope.

(** ** Exceptions *)

Inductive exn : Type :=
  | ValueError
  | IndexError
  | AttributeError
  | TypeError
  | ZeroDivisionError
  | ExternalError (msg : string).

Inductive result (A : Type) : Type :=
  | Ok (a : A)
  | Raise (e : exn).
Arguments Ok {A} a.
Arguments Raise {A} e.

#[global] Instance result_ret : MRet result := fun A a => Ok a.
#[global] Instance result_bind : MBind result := fun A B f m =>
  match m with
  | Ok a => f a
  | Raise e => Raise e
  end.

Definition from_option {A} (e : exn) (o : option A) : result A :=
  match o with
  | Some a => Ok a
  | None => Raise e
  end.

Definition is_ok {A} (r : result A) : bool :=
  match r with
  | Ok _ => true
  | Raise _ => false
  end.

(** ** Floats with NaN *)

Module Float.

Inductive float : Type :=
  | NaN
  | Num (q : Qc).

Definition of_Z (z : Z) : float := Num (Qc_of_Z z).
Definition of_nat (n : nat) : float := of_Z (Z.of_nat n).

Definition isnan (x : float) : bool :=
  match x with
  | NaN => true
  | Num _ => false
  end.

(** The comparisons of IEEE floats: every comparison with NaN is false. *)
Definition ltb (x y : float) : bool :=
  match x, y with
  | Num a, Num b => match (a ?= b)%Qc with Lt => true | _ => false end
  | _, _ => false
  end.

Definition leb (x y : float) : bool :=
  match x, y with
  | Num a, Num b => match (a ?= b)%Qc with Gt => false | _ => true end
  | _, _ => false
  end.

Definition gtb (x y : float) : bool := ltb y x.

Definition eqb (x y : float) : bool :=
  match x, y with
  | Num a, Num b => match (a ?= b)%Qc with Eq => true | _ => false end
  | _, _ => false
  end.

(** Arithmetic propagates NaN; a division by zero gives NaN here (numpy
    gives an infinity or NaN with a warning, never an exception). *)
Definition lift2 (f : Qc -> Qc -> Qc) (x y : float) : float :=
  match x, y with
  | Num a, Num b => Num (f a b)
  | _, _ => NaN
  end.

Definition add : float -> float -> float := lift2 Qcplus.
Definition sub : float -> float -> float := lift2 Qcminus.
Definition mul : float -> float -> float := lift2 Qcmult.
Definition div (x y : float) : float :=
  match x, y with
  | Num a, Num b => if decide (b = Q2Qc 0) then NaN else Num (a / b)%Qc
  | _, _ => NaN
  end.

(** [numpy.round]: to the nearest integer, ties to the even one. *)
Definition round_half_even (q : Qc) : Z :=
  let f := Qfloor q in
  match ((q - Qc_of_Z f) ?= Q2Qc (1 # 2))%Qc with
  | Lt => f
  | Gt => f + 1
  | Eq => if Z.even f then f else f + 1
  end.

Definition round (x : float) : float :=
  match x with
  | NaN => NaN
  | Num q => of_Z (round_half_even q)
  end.

(** The order the comparisons decide, as propositions on non-NaN values. *)
Definition le (x y : float) : Prop := leb x y = true.
Definition lt (x y : float) : Prop := ltb x y = true.

End Float.

Export Float (float, NaN, Num).

(** ** numpy on one-dimensional arrays *)

Module Np.

Import Float.

(** [a.argmax()]: the first index of the greatest element, the first NaN if
    there is one; the loop of numpy's [argmax] with its negated test. *)
Fixpoint argmax_from (mp : float) (mi i : nat) (a : list float) : nat :=
  match a with
  | [] => mi
  | x :: a' =>
      if leb x mp then argmax_from mp mi (S i) a'
      else if isnan x then i
      else argmax_from x i (S i) a'
  end.

Definition argmax (a : list float) : result nat :=
  match a with
  | [] => Raise ValueError
  | x :: a' => Ok (if isnan x then 0%nat else argmax_from x 0 1 a')
  end.

(** [numpy.maximum], which propagates NaN, and [a.max()], its reduction. *)
Definition maximum (x y : float) : float :=
  if isnan x then x else if isnan y then y else if leb y x then x else y.

Definition max (a : list float) : result float :=
  match a with
  | [] => Raise ValueError
  | x :: a' => Ok (foldl maximum x a')
  end.

Definition sum (a : list float) : float := foldl add (of_Z 0) a.

(** [a.mean()]: NaN (and a warning) on an empty array. *)
Definition mean (a : list float) : float :=
  match a with
  | [] => NaN
  | _ => div (sum a) (of_nat (length a))
  end.

(** [a[i]] for an integer index. *)
Definition item {A} (a : list A) (i : nat) : result A :=
  from_option IndexError (a !! i).

(** [a[idx]] for an array of integer indices. *)
Fixpoint take {A} (a : list A) (idx : list nat) : result (list A) :=
  match idx with
  | [] => Ok []
  | i :: idx' =>
      x ← item a i;
      xs ← take a idx';
      Ok (x :: xs)
  end.

(** [a[mask]] for a boolean mask, which must have the shape of [a]. *)
Fixpoint select {A} (a : list A) (mask : list bool) : list A :=
  match a, mask with
  | x :: a', b :: mask' => if b then x :: select a' mask' else select a' mask'
  | _, _ => []
  end.

Definition compress {A} (a : list A) (mask : list bool) : result (list A) :=
  if decide (length a = length mask) then Ok (select a mask)
  else Raise IndexError.

(** [numpy.argwhere(mask)], flattened: the indices where [mask] holds. *)
Fixpoint argwhere_from (i : nat) (mask : list bool) : list nat :=
  match mask with
  | [] => []
  | b :: mask' =>
      if b then i :: argwhere_from (S i) mask' else argwhere_from (S i) mask'
  end.

Definition argwhere (mask : list bool) : list nat := argwhere_from 0 mask.

(** [numpy.arange(0, n)]. *)
Definition arange (n : nat) : list Z := Z.of_nat <$> seq 0 n.

(** [numpy.full(n, v)]. *)
Definition full {A} (n : nat) (v : A) : list A := replicate n v.

(** [a[idx] = v] for an array of integer indices. *)
Fixpoint put {A} (a : list A) (idx : list nat) (v : A) : result (list A) :=
  match idx with
  | [] => Ok a
  | i :: idx' =>
      if decide (i < length a)%nat then put (<[i := v]> a) idx' v
      else Raise IndexError
  end.

(** [numpy.array(rows)] of a list of arrays: the rows must have one
    length (numpy raises a ValueError on ragged rows since version 1.24;
    before, it built an array of objects and warned). *)
Definition array {A} (rows : list (list A)) : result (list (list A)) :=
  match rows with
  | [] => Ok []
  | r :: rows' =>
      if forallb (fun r' => Nat.eqb (length r') (length r)) rows'
      then Ok rows else Raise ValueError
  end.

End Np.

(** ** The batch handed over by the training loop *)

Record Program : Type := mkProgram {
  prog_id : nat;
  get_infix_str : string;
}.

(** [batch.programs]: the programs of the batch and their per-program
    arrays. [tokens_complexity] is the two-dimensional array
    [programs.tokens.complexity], one row per program. *)
Record VectPrograms : Type := mkVectPrograms {
  progs : list Program;
  tokens_complexity : list (list float);
  n_complexity : list float;
  n_lengths : list nat;
  is_physical : list bool;
}.

Definition get_prog (ps : VectPrograms) (i : nat) : result Program :=
  Np.item (progs ps) i.

Definition get_programs_array (ps : VectPrograms) : list Program := progs ps.

(** [y_target_std] stands for [batch.dataset.y_target.std()]. *)
Record Batch : Type := mkBatch {
  programs : VectPrograms;
  batch_size : nat;
  max_time_step : nat;
  y_target_std : float;
}.

(** ** The CSV log *)

Record LogRow : Type := mkLogRow {
  row_epoch : Z;
  row_reward : float;
  row_complexity : float;
  row_length : nat;
  row_is_physical : bool;
  row_is_elite : bool;
  row_program : string;
}.

Inductive CsvLine : Type :=
  | Header (columns : list string)
  | Row (r : LogRow).

(** The files the logger can see: path to lines. *)
Abbreviation FileSystem := (gmap string (list CsvLine)).

(** [df.to_csv(path, mode='w')] and [df.to_csv(path, mode='a')]; with
    [path = None] pandas returns the text and writes nothing. The path is
    taken to be one that can be written: the error that pandas raises on a
    path it cannot open is not modelled, so nothing here says that a call
    which saves returns. *)
Definition to_csv_w (path : option string) (lines : list CsvLine)
    (fs : FileSystem) : FileSystem :=
  match path with
  | Some p => <[p := lines]> fs
  | None => fs
  end.

Definition to_csv_a (path : option string) (lines : list CsvLine)
    (fs : FileSystem) : FileSystem :=
  match path with
  | Some p => <[p := default [] (fs !! p) ++ lines]> fs
  | None => fs
  end.

Definition log_columns : list string :=
  ["epoch"; "reward"; "complexity"; "length"; "is_physical"; "is_elite";
   "program"]%string.

(** ** RunLogger *)

(** An attribute that is only assigned by [log] is [None] until then. *)
Record RunLogger : Type := mkRunLogger {
  save_path : option string;
  do_save : bool;
  epoch : option Z;
  R : option (list float);
  batch : option Batch;
  keep : option (list nat);
  notkept : option (list nat);
  best_prog_epoch : option Program;
  programs_epoch : option (list Program);
  overall_max_R_history : list float;
  hall_of_fame : list Program;
  epochs_history : list Z;
  loss_history : list float;
  mean_R_train_history : list float;
  mean_R_history : list float;
  max_R_history : list float;
  R_history : list (list float);
  R_history_train : list (list float);
  best_prog_complexity_history : list float;
  mean_complexity_history : list float;
  R_history_array : option (list (list float));
  R_history_train_array : option (list (list float));
  n_physical : list nat;
  lengths_of_physical : list (list nat);
  lengths_of_unphysical : list (list nat);
  pareto_complexities : option (list Z);
  pareto_rewards : option (list float);
  pareto_programs : option (list (option Program));
}.

(** Reading an attribute of [self]. *)
Definition attr {A} (o : option A) : result A := from_option AttributeError o.

Module RunLogger.

(** [initialize]: the histories are emptied; the attributes that [log]
    created earlier stay. *)
Definition initialize (self : RunLogger) : RunLogger :=
  {| save_path := save_path self;
     do_save := do_save self;
     epoch := None;
     R := R self;
     batch := batch self;
     keep := keep self;
     notkept := notkept self;
     best_prog_epoch := best_prog_epoch self;
     programs_epoch := programs_epoch self;
     overall_max_R_history := [];
     hall_of_fame := [];
     epochs_history := [];
     loss_history := [];
     mean_R_train_history := [];
     mean_R_history := [];
     max_R_history := [];
     R_history := [];
     R_history_train := [];
     best_prog_complexity_history := [];
     mean_complexity_history := [];
     R_history_array := R_history_array self;
     R_history_train_array := R_history_train_array self;
     n_physical := [];
     lengths_of_physical := [];
     lengths_of_unphysical := [];
     pareto_complexities := pareto_complexities self;
     pareto_rewards := pareto_rewards self;
     pareto_programs := pareto_programs self |}.

(** [__init__]. *)
Definition init (path : option string) (save : bool) : RunLogger :=
  initialize
    {| save_path := path; do_save := save; epoch := None; R := None;
       batch := None; keep := None; notkept := None;
       best_prog_epoch := None; programs_epoch := None;
       overall_max_R_history := []; hall_of_fame := [];
       epochs_history := []; loss_history := [];
       mean_R_train_history := []; mean_R_history := [];
       max_R_history := []; R_history := []; R_history_train := [];
       best_prog_complexity_history := []; mean_complexity_history := [];
       R_history_array := None; R_history_train_array := None;
       n_physical := []; lengths_of_physical := [];
       lengths_of_unphysical := [];
       pareto_complexities := None; pareto_rewards := None;
       pareto_programs := None |}.

Definition set_pareto (self : RunLogger) (pc : list Z) (pr : list float)
    (pp : list (option Program)) : RunLogger :=
  {| save_path := save_path self;
     do_save := do_save self;
     epoch := epoch self;
     R := R self;
     batch := batch self;
     keep := keep self;
     notkept := notkept self;
     best_prog_epoch := best_prog_epoch self;
     programs_epoch := programs_epoch self;
     overall_max_R_history := overall_max_R_history self;
     hall_of_fame := hall_of_fame self;
     epochs_history := epochs_history self;
     loss_history := loss_history self;
     mean_R_train_history := mean_R_train_history self;
     mean_R_history := mean_R_history self;
     max_R_history := max_R_history self;
     R_history := R_history self;
     R_history_train := R_history_train self;
     best_prog_complexity_history := best_prog_complexity_history self;
     mean_complexity_history := mean_complexity_history self;
     R_history_array := R_history_array self;
     R_history_train_array := R_history_train_array self;
     n_physical := n_physical self;
     lengths_of_physical := lengths_of_physical self;
     lengths_of_unphysical := lengths_of_unphysical self;
     pareto_complexities := Some pc;
     pareto_rewards := Some pr;
     pareto_programs := Some pp |}.

(** [a[i] = v] on an array. *)
Definition setitem {A} (a : list A) (i : nat) (v : A) : result (list A) :=
  if decide (i < length a)%nat then Ok (<[i := v]> a) else Raise IndexError.

(** [a[-1]]. *)
Definition item_last {A} (a : list A) : result A :=
  from_option IndexError (last a).

(** The mask [curr_complexities.round() == c]. *)
Definition have_c (curr_complexities : list float) (c : Z) : list bool :=
  (fun x => Float.eqb (Float.round x) (Float.of_Z c)) <$> curr_complexities.

(** The body of the loop of [pareto_logger] for the bin [i] of
    complexity [c]. *)
Definition pareto_step (curr_batch : Batch) (curr_rewards : list float)
    (i : nat) (c : Z) (st : list float * list (option Program))
    : result (list float * list (option Program)) :=
  let '(p_rewards, p_programs) := st in
  let curr_complexities := n_complexity (programs curr_batch) in
  let arg_have_c := Np.argwhere (have_c curr_complexities c) in
  if decide (0 < length arg_have_c)%nat then
    rs ← Np.take curr_rewards arg_have_c;
    k ← Np.argmax rs;
    arg_have_c_and_max ← Np.item arg_have_c k;
    max_r_at_c ← Np.item curr_rewards arg_have_c_and_max;
    cur ← Np.item p_rewards i;
    if Float.leb cur max_r_at_c || Float.isnan cur then
      p ← get_prog (programs curr_batch) arg_have_c_and_max;
      p_programs' ← setitem p_programs i (Some p);
      p_rewards' ← setitem p_rewards i max_r_at_c;
      Ok (p_rewards', p_programs')
    else Ok (p_rewards, p_programs)
  else Ok (p_rewards, p_programs).

(** [for i, c in enumerate(self.pareto_complexities)], from index [i]. *)
Fixpoint pareto_loop (curr_batch : Batch) (curr_rewards : list float)
    (i : nat) (cs : list Z) (st : list float * list (option Program))
    : result (list float * list (option Program)) :=
  match cs with
  | [] => Ok st
  | c :: cs' =>
      st' ← pareto_step curr_batch curr_rewards i c st;
      pareto_loop curr_batch curr_rewards (S i) cs' st'
  end.

(** The three Pareto arrays at the start of the loop of [pareto_logger]:
    created at epoch 0, those of [self] otherwise. *)
Definition pareto_arrays (self : RunLogger) (curr_batch : Batch)
    : result (list Z * list float * list (option Program)) :=
  if decide (epoch self = Some 0) then
    let pc := Np.arange (10 * max_time_step curr_batch) in
    Ok (pc, Np.full (length pc) NaN, Np.full (length pc) None)
  else
    pc ← attr (pareto_complexities self);
    pr ← attr (pareto_rewards self);
    pp ← attr (pareto_programs self);
    Ok (pc, pr, pp).

Definition pareto_logger (self : RunLogger) : result RunLogger :=
  curr_batch ← attr (batch self);
  curr_rewards ← attr (R self);
  '(pc, pr, pp) ← pareto_arrays self curr_batch;
  '(pr', pp') ← pareto_loop curr_batch curr_rewards 0 pc (pr, pp);
  Ok (set_pareto self pc pr' pp').

(** The rows of the data frame of [save_log]; every column is assigned to
    a frame whose index has [batch_size] entries. *)
Fixpoint frame_rows (ep : list Z) (rw cx : list float) (ln : list nat)
    (ph el : list bool) (ps : list string) : list LogRow :=
  match ep, rw, cx, ln, ph, el, ps with
  | e :: ep', r :: rw', c :: cx', l :: ln', p :: ph', b :: el', s :: ps' =>
      mkLogRow e r c l p b s :: frame_rows ep' rw' cx' ln' ph' el' ps'
  | _, _, _, _, _, _, _ => []
  end.

(** [df[name] = column]: the column must have the length of the index. *)
Definition column {A} (n : nat) (col : list A) : result (list A) :=
  if decide (length col = n) then Ok col else Raise ValueError.

Definition save_log (self : RunLogger) (fs : FileSystem)
    : result FileSystem :=
  let fs0 :=
    if decide (epoch self = Some 0)
    then to_csv_w (save_path self) [Header log_columns] fs
    else fs in
  curr_batch ← attr (batch self);
  curr_keep ← attr (keep self);
  curr_epoch ← attr (epoch self);
  curr_R ← attr (R self);
  is_elite ← Np.put (Np.full (batch_size curr_batch) false) curr_keep true;
  let programs_str :=
    get_infix_str <$> get_programs_array (programs curr_batch) in
  let n := batch_size curr_batch in
  c_epoch ← column n (Np.full n curr_epoch);
  c_reward ← column n curr_R;
  c_complexity ← column n (n_complexity (programs curr_batch));
  c_length ← column n (n_lengths (programs curr_batch));
  c_is_physical ← column n (is_physical (programs curr_batch));
  c_is_elite ← column n is_elite;
  c_program ← column n programs_str;
  let df := frame_rows c_epoch c_reward c_complexity c_length
              c_is_physical c_is_elite c_program in
  Ok (to_csv_a (save_path self) (Row <$> df) fs0).

(** The update of the running best reward and of the hall of fame at the
    start of [log]. *)
Definition log_best (self : RunLogger) (epoch : Z) (batch : Batch)
    (rewards : list float) (best_prog_idx_epoch : nat)
    : result (list float * list Program) :=
  '(h, hof) ←
    (if decide (epoch = 0) then
       m ← Np.max rewards;
       p ← get_prog (programs batch) best_prog_idx_epoch;
       Ok ([m], [p])
     else Ok (overall_max_R_history self, hall_of_fame self));
  if decide (epoch > 0) then
    m ← Np.max rewards;
    hm ← Np.max h;
    if Float.gtb m hm then
      p ← get_prog (programs batch) best_prog_idx_epoch;
      Ok (h ++ [m], hof ++ [p])
    else
      l ← item_last h;
      Ok (h ++ [l], hof)
  else Ok (h, hof).

(** [self] after the assignments and the appends of [log], before the call
    of [pareto_logger]. *)
Definition log_histories (self : RunLogger) (epoch : Z) (batch : Batch)
    (rewards : list float) (keep notkept : list nat) (loss_val : float)
    (best_prog : Program) (h : list float) (hof : list Program)
    (rewards_keep : list float) (max_R : float) (best_row : list float)
    (R_array R_train_array : list (list float))
    (len_physical len_unphysical : list nat) : RunLogger :=
  {| save_path := save_path self;
     do_save := do_save self;
     epoch := Some epoch;
     R := Some rewards;
     batch := Some batch;
     keep := Some keep;
     notkept := Some notkept;
     best_prog_epoch := Some best_prog;
     programs_epoch := Some (get_programs_array (programs batch));
     overall_max_R_history := h;
     hall_of_fame := hof;
     epochs_history := epochs_history self ++ [epoch];
     loss_history := loss_history self ++ [loss_val];
     mean_R_train_history :=
       mean_R_train_history self ++ [Np.mean rewards_keep];
     mean_R_history := mean_R_history self ++ [Np.mean rewards];
     max_R_history := max_R_history self ++ [max_R];
     R_history := R_history self ++ [rewards];
     R_history_train := R_history_train self ++ [rewards_keep];
     best_prog_complexity_history :=
       best_prog_complexity_history self ++ [Np.sum best_row];
     mean_complexity_history :=
       mean_complexity_history self
         ++ [Np.mean (Np.sum <$> tokens_complexity (programs batch))];
     R_history_array := Some R_array;
     R_history_train_array := Some R_train_array;
     n_physical :=
       n_physical self
         ++ [length (filter (fun b => b = true) (is_physical (programs batch)))];
     lengths_of_physical := lengths_of_physical self ++ [len_physical];
     lengths_of_unphysical :=
       lengths_of_unphysical self ++ [len_unphysical];
     pareto_complexities := pareto_complexities self;
     pareto_rewards := pareto_rewards self;
     pareto_programs := pareto_programs self |}.

(** [log]; the argument [model] is not used by the method and left out. *)
Definition log (self : RunLogger) (fs : FileSystem) (epoch : Z)
    (batch : Batch) (rewards : list float) (keep notkept : list nat)
    (loss_val : float) : result (RunLogger * FileSystem) :=
  best_prog_idx_epoch ← Np.argmax rewards;
  best_prog ← get_prog (programs batch) best_prog_idx_epoch;
  '(h, hof) ← log_best self epoch batch rewards best_prog_idx_epoch;
  rewards_keep ← Np.take rewards keep;
  max_R ← Np.max rewards;
  best_row ← Np.item (tokens_complexity (programs batch)) best_prog_idx_epoch;
  R_array ← Np.array (R_history self ++ [rewards]);
  R_train_array ← Np.array (R_history_train self ++ [rewards_keep]);
  len_physical ←
    Np.compress (n_lengths (programs batch)) (is_physical (programs batch));
  len_unphysical ←
    Np.compress (n_lengths (programs batch))
                (negb <$> is_physical (programs batch));
  let self1 :=
    log_histories self epoch batch rewards keep notkept loss_val best_prog
      h hof rewards_keep max_R best_row R_array R_train_array
      len_physical len_unphysical in
  self2 ← pareto_logger self1;
  if do_save self2 then
    fs' ← save_log self2 fs;
    Ok (self2, fs')
  else Ok (self2, fs).

(** The mask of [get_pareto_front]:
    [(~isnan(pareto_rewards)) & (pareto_rewards > 0)]. *)
Definition pareto_valid (r : float) : bool :=
  negb (Float.isnan r) && Float.gtb r (Float.of_Z 0).

(** The loop of [get_pareto_front] over [enumerate(pareto_rewards_valid)],
    from index [i]; the state is the three front lists. *)
Fixpoint front_loop (programs_valid : list (option Program))
    (complexities_valid : list Z) (i : nat) (rs : list float)
    (st : list float * list (option Program) * list Z)
    : result (list float * list (option Program) * list Z) :=
  match rs with
  | [] => Ok st
  | r :: rs' =>
      let '(front_r, front_programs, front_complexities) := st in
      l ← item_last front_r;
      if Float.gtb r l then
        p ← Np.item programs_valid i;
        c ← Np.item complexities_valid i;
        front_loop programs_valid complexities_valid (S i) rs'
          (front_r ++ [r], front_programs ++ [p], front_complexities ++ [c])
      else
        front_loop programs_valid complexities_valid (S i) rs' st
  end.

(** [get_pareto_front]: complexities, programs, rewards and RMSE of the
    front. *)
Definition get_pareto_front (self : RunLogger)
    : result (list Z * list (option Program) * list float * list float) :=
  p_rewards ← attr (pareto_rewards self);
  let mask_pareto_valid := fmap (M := list) pareto_valid p_rewards in
  rewards_valid ← Np.compress p_rewards mask_pareto_valid;
  p_programs ← attr (pareto_programs self);
  programs_valid ← Np.compress p_programs mask_pareto_valid;
  p_complexities ← attr (pareto_complexities self);
  complexities_valid ← Np.compress p_complexities mask_pareto_valid;
  r0 ← Np.item rewards_valid 0;
  p0 ← Np.item programs_valid 0;
  c0 ← Np.item complexities_valid 0;
  '(front_r, front_programs, front_complexities) ←
    front_loop programs_valid complexities_valid 0 rewards_valid
      ([r0], [p0], [c0]);
  curr_batch ← attr (batch self);
  let std := y_target_std curr_batch in
  let front_rmse :=
    fmap (M := list)
      (fun r => Float.mul (Float.sub (Float.div (Float.of_Z 1) r)
                                     (Float.of_Z 1)) std) front_r in
  Ok (front_complexities, front_programs, front_r, front_rmse).

(** The property [best_prog]: [self.hall_of_fame[-1]]. *)
Definition best_prog (self : RunLogger) : result Program :=
  item_last (hall_of_fame self).

End RunLogger.

(** ** RunVisualiser *)

(** [s.split('.')]. *)
Fixpoint split_dot (s : string) : list string :=
  match s with
  | EmptyString => [EmptyString]
  | String c s' =>
      if Ascii.eqb c "."%char then EmptyString :: split_dot s'
      else match split_dot s' with
           | [] => [String c EmptyString]
           | w :: ws => String c w :: ws
           end
  end.

(** [''.join(parts)]. *)
Definition join (parts : list string) : string :=
  foldr String.append EmptyString parts.

(** What the visualiser does to the outside world, in order. *)
Inductive Event : Type :=
  | EvInitialize
  | EvMakeVisualisation
  | EvSaveVisualisation
  | EvPrint (msg : string).

#[global] Instance Event_eq_dec : EqDecision Event.
Proof. solve_decision. Defined.

(** The plotting back end is not part of the module: for one call of
    [visualise], what each of the three methods that draw does, [None] when
    it returns and [Some e] when it raises [e]. *)
Record Backend : Type := mkBackend {
  initialize_raises : option exn;
  make_visualisation_raises : option exn;
  save_visualisation_raises : option exn;
}.

Record Figure : Type := mkFigure {
  fig_size : nat * nat;
}.

Module RunVisualiser.

Record RunVisualiser : Type := mkRunVisualiser {
  epoch_refresh_rate : Z;
  figsize : nat * nat;
  save_path : option string;
  save_path_log : string;
  do_show : bool;
  do_save : bool;
  fig : option Figure;
  run_logger : option RunLogger;
  batch : option Batch;
}.

(** [__init__]: [save_path.split] is called whatever [do_save] is. *)
Definition init (epoch_refresh_rate : Z) (save_path : option string)
    (do_show do_save : bool) : result RunVisualiser :=
  path ← attr save_path;
  Ok {| epoch_refresh_rate := epoch_refresh_rate;
        figsize := (40, 18)%nat;
        save_path := save_path;
        save_path_log :=
          String.append (join (removelast (split_dot path))) "_log.csv";
        do_show := do_show;
        do_save := do_save;
        fig := None;
        run_logger := None;
        batch := None |}.

(** The result of a call: the object as the call left it, the events it
    performed and the exception that left the call, if any. *)
Record Outcome : Type := mkOutcome {
  self' : RunVisualiser;
  trace : list Event;
  raised : option exn;
}.

Definition set_refs (self : RunVisualiser) (rl : RunLogger) (b : Batch)
    : RunVisualiser :=
  {| epoch_refresh_rate := epoch_refresh_rate self;
     figsize := figsize self;
     save_path := save_path self;
     save_path_log := save_path_log self;
     do_show := do_show self;
     do_save := do_save self;
     fig := fig self;
     run_logger := Some rl;
     batch := Some b |}.

Definition set_fig (self : RunVisualiser) (f : Figure) : RunVisualiser :=
  {| epoch_refresh_rate := epoch_refresh_rate self;
     figsize := figsize self;
     save_path := save_path self;
     save_path_log := save_path_log self;
     do_show := do_show self;
     do_save := do_save self;
     fig := Some f;
     run_logger := run_logger self;
     batch := batch self |}.

(** [initialize]: creates the figure and its axes. *)
Definition initialize (env : Backend) (self : RunVisualiser) : Outcome :=
  match initialize_raises env with
  | Some e => mkOutcome self [EvInitialize] (Some e)
  | None =>
      mkOutcome (set_fig self (mkFigure (figsize self))) [EvInitialize] None
  end.

(** The body of the [try] of [visualise]: the events and the exception
    that leaves the body, if any. *)
Definition render (env : Backend) (self : RunVisualiser)
    : list Event * option exn :=
  let '(t1, e1) :=
    if do_show self
    then ([EvMakeVisualisation], make_visualisation_raises env)
    else ([], None) in
  match e1 with
  | Some e => (t1, Some e)
  | None =>
      if do_save self
      then (t1 ++ [EvSaveVisualisation], save_visualisation_raises env)
      else (t1, None)
  end.

Definition unable_msg : string := "Unable to make visualisation plots.".

Definition visualise (env : Backend) (self : RunVisualiser)
    (run_logger : RunLogger) (batch : Batch) : Outcome :=
  let epoch := epoch run_logger in
  let self1 := set_refs self run_logger batch in
  let o1 :=
    if decide (epoch = Some 0) then initialize env self1
    else mkOutcome self1 [] None in
  match raised o1 with
  | Some e => o1
  | None =>
      match epoch with
      | None => mkOutcome (self' o1) (trace o1) (Some TypeError)
      | Some ep =>
          if decide (epoch_refresh_rate self = 0) then
            mkOutcome (self' o1) (trace o1) (Some ZeroDivisionError)
          else if decide (ep `mod` epoch_refresh_rate self = 0) then
            match render env (self' o1) with
            | (t, Some _) =>
                mkOutcome (self' o1) (trace o1 ++ t ++ [EvPrint unable_msg])
                  None
            | (t, None) => mkOutcome (self' o1) (trace o1 ++ t) None
            end
          else mkOutcome (self' o1) (trace o1) None
      end
  end.

End RunVisualiser.

(** ** Runs of the training loop *)

(** The arguments of one call of [log]. *)
Record Call : Type := mkCall {
  call_epoch : Z;
  call_batch : Batch;
  call_rewards : list float;
  call_keep : list nat;
  call_notkept : list nat;
  call_loss : float;
}.

Definition log_call (st : RunLogger * FileSystem) (c : Call)
    : result (RunLogger * FileSystem) :=
  RunLogger.log st.1 st.2 (call_epoch c) (call_batch c) (call_rewards c)
    (call_keep c) (call_notkept c) (call_loss c).

(** The calls of [log] one after the other; the first exception ends the
    run. *)
Fixpoint run (st : RunLogger * FileSystem) (cs : list Call)
    : result (RunLogger * FileSystem) :=
  match cs with
  | [] => Ok st
  | c :: cs' =>
      st' ← log_call st c;
      run st' cs'
  end.

(** [new] is [old] with one element appended. *)
Definition appended {A} (old new : list A) : Prop :=
  exists x, new = old ++ [x].

(** ** Vocabulary of the statements *)

(** An array without NaN. *)
Definition nonan (a : list float) : Prop :=
  Forall (fun x => Float.isnan x = false) a.

(** [m] is a greatest element of [a]. *)
Definition is_max (a : list float) (m : float) : Prop :=
  m ∈ a /\ forall x, x ∈ a -> Float.leb x m = true.

(** The twelve per-epoch histories each get one element in a call. *)
Definition histories_appended (self self' : RunLogger) : Prop :=
  appended (epochs_history self) (epochs_history self') /\
  appended (loss_history self) (loss_history self') /\
  appended (mean_R_train_history self) (mean_R_train_history self') /\
  appended (mean_R_history self) (mean_R_history self') /\
  appended (max_R_history self) (max_R_history self') /\
  appended (R_history self) (R_history self') /\
  appended (R_history_train self) (R_history_train self') /\
  appended (best_prog_complexity_history self)
           (best_prog_complexity_history self') /\
  appended (mean_complexity_history self) (mean_complexity_history self') /\
  appended (n_physical self) (n_physical self') /\
  appended (lengths_of_physical self) (lengths_of_physical self') /\
  appended (lengths_of_unphysical self) (lengths_of_unphysical self').

(** The lengths of the twelve histories. *)
Definition histories_lengths (self : RunLogger) : list nat :=
  [ length (epochs_history self); length (loss_history self);
    length (mean_R_train_history self); length (mean_R_history self);
    length (max_R_history self); length (R_history self);
    length (R_history_train self);
    length (best_prog_complexity_history self);
    length (mean_complexity_history self); length (n_physical self);
    length (lengths_of_physical self); length (lengths_of_unphysical self) ].

(** The calls of a training loop: epochs 0, 1, 2, ... in this order. *)
Definition in_order (cs : list Call) : Prop :=
  call_epoch <$> cs = Np.arange (length cs).

(** No reward of the calls is NaN. *)
Definition rewards_nonan (cs : list Call) : Prop :=
  Forall (fun c => nonan (call_rewards c)) cs.

(** [m] is the greatest of the maximum rewards of the epochs [cs]. *)
Definition running_max (cs : list Call) (m : float) : Prop :=
  (exists c, c ∈ cs /\ Np.max (call_rewards c) = Ok m) /\
  (forall c, c ∈ cs ->
     exists m', Np.max (call_rewards c) = Ok m' /\ Float.leb m' m = true).

(** The program [p] is in a batch of the calls [cs], with reward [r]. *)
Definition logged_with (cs : list Call) (p : Program) (r : float) : Prop :=
  exists c i, c ∈ cs /\
    progs (programs (call_batch c)) !! i = Some p /\
    call_rewards c !! i = Some r.

(** What holds of the state after the calls [cs] of a training loop. *)
Definition best_inv (cs : list Call) (self : RunLogger) : Prop :=
  length (overall_max_R_history self) = length cs /\
  (forall k, (k < length cs)%nat ->
     exists m, overall_max_R_history self !! k = Some m /\
               running_max (take (S k) cs) m) /\
  (exists p m, last (hall_of_fame self) = Some p /\
               last (overall_max_R_history self) = Some m /\
               logged_with cs p m).

(** The rewards of the programs of a batch whose rounded complexity is
    [c]: [cx] are the complexities and [rw] the rewards of the batch. *)
Fixpoint rewards_with_complexity (c : Z) (cx rw : list float) : list float :=
  match cx, rw with
  | x :: cx', r :: rw' =>
      if Float.eqb (Float.round x) (Float.of_Z c)
      then r :: rewards_with_complexity c cx' rw'
      else rewards_with_complexity c cx' rw'
  | _, _ => []
  end.

Definition call_rewards_at (c : Z) (call : Call) : list float :=
  rewards_with_complexity c (n_complexity (programs (call_batch call)))
    (call_rewards call).

(** The rewards of all the programs of rounded complexity [c] in the
    calls [cs]. *)
Definition rewards_at (c : Z) (cs : list Call) : list float :=
  concat (call_rewards_at c <$> cs).

(** [v] is what a bin of the Pareto arrays holds when the programs of its
    complexity had the rewards [seen]: their maximum, NaN if there is
    none. *)
Definition bin_spec (seen : list float) (v : float) : Prop :=
  match seen with
  | [] => v = NaN
  | _ => is_max seen v
  end.

(** The calls from the most recent call with epoch 0 on (all the calls if
    there is none). *)
Definition since_reset (cs : list Call) : list Call :=
  foldl (fun acc c => if decide (call_epoch c = 0) then [c] else acc ++ [c])
        [] cs.

(** The three Pareto arrays exist, over the grid [0 .. n-1]. *)
Definition pareto_grid (n : nat) (self : RunLogger) : Prop :=
  exists pr pp,
    pareto_complexities self = Some (Np.arange n) /\
    pareto_rewards self = Some pr /\
    pareto_programs self = Some pp /\
    length pr = n /\ length pp = n.

(** The Pareto arrays do not exist yet. *)
Definition pareto_unset (self : RunLogger) : Prop :=
  pareto_complexities self = None /\
  pareto_rewards self = None /\
  pareto_programs self = None.

(** The Pareto arrays are over the grid [0 .. n-1] and every bin of
    [pareto_rewards] holds the maximum of the rewards that the programs of
    its complexity had in the calls [cs]. *)
Definition pareto_inv (cs : list Call) (n : nat) (self : RunLogger) : Prop :=
  pareto_grid n self /\
  forall pr i, pareto_rewards self = Some pr -> (i < n)%nat ->
    exists v, pr !! i = Some v /\ bin_spec (rewards_at (Z.of_nat i) cs) v.

(** The candidates of the Pareto front: the bins, as pairs of complexity
    and reward, whose reward is not NaN and greater than 0, by increasing
    complexity. *)
Definition pareto_candidates (pc : list Z) (pr : list float)
    : list (Z * float) :=
  filter (fun cr => RunLogger.pareto_valid cr.2 = true) (zip pc pr).

(** The indices that the loop of [get_pareto_front] appends to the front
    when it runs over the rewards [rs], the first of index [i], with
    [last] the last reward of the front. *)
Fixpoint front_idx (i : nat) (rs : list float) (last : float) : list nat :=
  match rs with
  | [] => []
  | r :: rs' =>
      if Float.gtb r last then i :: front_idx (S i) rs' r
      else front_idx (S i) rs' last
  end.

(** The indices, among the candidates of rewards [rv], of the front that
    [get_pareto_front] returns: the first candidate, then what its loop
    appends. *)
Definition front_indices (rv : list float) : list nat :=
  match rv with
  | [] => []
  | r0 :: _ => 0%nat :: front_idx 0 rv r0
  end.

(** The RMSE that [get_pareto_front] computes from a reward of the front. *)
Definition front_rmse_of (b : Batch) (r : float) : float :=
  Float.mul (Float.sub (Float.div (Float.of_Z 1) r) (Float.of_Z 1))
            (y_target_std b).

(** A call whose batch is well formed: [n] programs, every per-program
    array of length [n], [n] rewards, and [k] indices of elite programs,
    all in range. *)
Definition wf_call (n k : nat) (c : Call) : Prop :=
  let ps := programs (call_batch c) in
  (0 < n)%nat /\
  length (call_rewards c) = n /\
  batch_size (call_batch c) = n /\
  length (progs ps) = n /\
  length (tokens_complexity ps) = n /\
  length (n_complexity ps) = n /\
  length (n_lengths ps) = n /\
  length (is_physical ps) = n /\
  length (call_keep c) = k /\
  Forall (fun i => (i < n)%nat) (call_keep c).

(** What the call number [j] of a training loop needs of the logger:
    after the first call the running history is not empty and the Pareto
    arrays exist; the rows of the reward histories have one length. *)
Definition ready (n k j : nat) (self : RunLogger) : Prop :=
  (j = 0%nat \/
   (overall_max_R_history self <> [] /\ exists g, pareto_grid g self)) /\
  Forall (fun r => length r = n) (R_history self) /\
  Forall (fun r => length r = k) (R_history_train self).

(** ** A small training run

    Three programs per batch, of complexities 1, 5/2 and 3 (so in the bins
    1, 2 and 3, as 5/2 is rounded to the even 2), one elite program per
    epoch, [max_time_step = 1]. *)

Definition ratio (a : Z) (b : positive) : float := Num (Q2Qc (a # b)).

Definition demo_programs (tag : string) : VectPrograms :=
  {| progs := [mkProgram 0 (tag +:+ "a"); mkProgram 1 (tag +:+ "b");
               mkProgram 2 (tag +:+ "c")];
     tokens_complexity := [[ratio 1 1]; [ratio 5 2]; [ratio 3 1]];
     n_complexity := [ratio 1 1; ratio 5 2; ratio 3 1];
     n_lengths := [1; 1; 1]%nat;
     is_physical := [true; false; true] |}.

Definition demo_batch (tag : string) : Batch :=
  {| programs := demo_programs tag; batch_size := 3; max_time_step := 1;
     y_target_std := ratio 2 1 |}.

Definition demo_call (e : Z) (tag : string) (rewards : list float)
    (keep : list nat) : Call :=
  {| call_epoch := e; call_batch := demo_batch tag; call_rewards := rewards;
     call_keep := keep; call_notkept := []; call_loss := ratio 1 10 |}.

Definition demo_calls : list Call :=
  [ demo_call 0 "p" [ratio 1 2; ratio 1 3; ratio 1 4] [0%nat];
    demo_call 1 "q" [ratio 1 5; ratio 2 5; ratio 9 10] [2%nat];
    demo_call 2 "r" [ratio 1 5; ratio 1 5; ratio 2 5] [2%nat] ].

Definition demo_init : RunLogger * FileSystem :=
  (RunLogger.init (Some "run_log.csv"%string) true, ∅).

(** The state after the run (the initial one, should the run raise). *)
Definition demo_final : RunLogger * FileSystem :=
  match run demo_init demo_calls with
  | Ok st => st
  | Raise _ => demo_init
  end.

(** A logger that is used for a second training run: the epochs start
    again at 0. *)
Definition reset_calls : list Call :=
  [ demo_call 0 "p" [ratio 1 2; ratio 1 3; ratio 1 4] [0%nat];
    demo_call 1 "q" [ratio 1 5; ratio 3 4; ratio 9 10] [2%nat];
    demo_call 0 "r" [ratio 1 5; ratio 1 5; ratio 2 5] [2%nat] ].

Definition reset_final : RunLogger * FileSystem :=
  match run demo_init reset_calls with
  | Ok st => st
  | Raise _ => demo_init
  end.

(** Every bin of [pareto_rewards] holds the maximum of the rewards that the
    programs of its complexity had in all the calls [cs]. *)
Definition pareto_tells_all_calls (cs : list Call) (self : RunLogger)
    : Prop :=
  exists pr, pareto_rewards self = Some pr /\
    forall i v, pr !! i = Some v -> bin_spec (rewards_at (Z.of_nat i) cs) v.

(** One call whose only program has a complexity outside the grid: the
    grid of [max_time_step = 1] is [0 .. 9], the complexity is 12. *)
Definition offgrid_program : Program := mkProgram 0 "x".

Definition offgrid_calls : list Call :=
  [ {| call_epoch := 0;
       call_batch :=
         {| programs :=
              {| progs := [offgrid_program];
                 tokens_complexity := [[ratio 12 1]];
                 n_complexity := [ratio 12 1];
                 n_lengths := [1%nat];
                 is_physical := [true] |};
            batch_size := 1; max_time_step := 1;
            y_target_std := ratio 2 1 |};
       call_rewards := [ratio 1 2];
       call_keep := [0%nat]; call_notkept := [];
       call_loss := ratio 1 10 |} ].

Definition offgrid_final : RunLogger * FileSystem :=
  match run demo_init offgrid_calls with
  | Ok st => st
  | Raise _ => demo_init
  end.

(** The state after the first call of the small training run. *)
Definition demo_first : RunLogger * FileSystem :=
  match run demo_init (take 1 demo_calls) with
  | Ok st => st
  | Raise _ => demo_init
  end.

(** ** A visualiser that shows and saves *)

Definition demo_visualiser : RunVisualiser.RunVisualiser :=
  {| RunVisualiser.epoch_refresh_rate := 10;
     RunVisualiser.figsize := (40, 18)%nat;
     RunVisualiser.save_path := Some "run.png"%string;
     RunVisualiser.save_path_log := "run_log.csv"%string;
     RunVisualiser.do_show := true;
     RunVisualiser.do_save := true;
     RunVisualiser.fig := None;
     RunVisualiser.run_logger := None;
     RunVisualiser.batch := None |}.

(** A back end where everything works, and one whose display fails. *)
Definition backend_ok : Backend := mkBackend None None None.

Definition backend_no_display : Backend :=
  mkBackend None (Some (ExternalError "no display")) None.

(** The body of the [try] of [visualise] raises: [make_visualisation] is
    called and raises, or [save_visualisation] is reached and raises. *)
Definition rendering_raises (env : Backend)
    (self : RunVisualiser.RunVisualiser) : Prop :=
  (RunVisualiser.do_show self = true /\
   is_Some (make_visualisation_raises env)) \/
  ((RunVisualiser.do_show self = true ->
    make_visualisation_raises env = None) /\
   RunVisualiser.do_save self = true /\
   is_Some (save_visualisation_raises env)).

(** ** Counting the array elements that are accessed

    The scans of the logger once more, in a monad that counts. Every
    operation on an array is charged the number of array elements it
    reads or writes: an element-wise operation or a reduction of an array
    of [n] elements, [n]; the creation of an array of [n] elements, [n];
    indexing with [k] indices, [k]; indexing with a mask, the elements of
    the mask and of the array; reading or writing one item, appending to
    a list, taking the next element of an iteration, 1. Reading an
    attribute is free, [get_prog] is charged as one access, and
    [y_target.std()], a reduction of the data set and not of an array of
    the logger, is not charged. The scans are written with these
    operations, statement by statement as in the source. *)

Module Cost.

Record counted (A : Type) : Type := Counted {
  outcome : result A;
  accesses : nat;
}.
Arguments Counted {A} outcome accesses.
Arguments outcome {A} c.
Arguments accesses {A} c.

#[global] Instance counted_ret : MRet counted := fun A a => Counted (Ok a) 0.
#[global] Instance counted_bind : MBind counted := fun A B f m =>
  match outcome m with
  | Ok a => Counted (outcome (f a)) (accesses m + accesses (f a))
  | Raise e => Counted (Raise e) (accesses m)
  end.

(** An operation that accesses [n] elements and gives [r]. *)
Definition charge {A} (n : nat) (r : result A) : counted A := Counted r n.

(** *** The operations of numpy and of lists *)

Module Op.

Definition attr {A} (o : option A) : counted A := charge 0 (attr o).

(** [a.round()], [a == c], [a > c], [np.isnan(a)], [~m]. *)
Definition round (a : list float) : counted (list float) :=
  charge (length a) (Ok (Float.round <$> a)).

Definition eq_scalar (a : list float) (c : Z) : counted (list bool) :=
  charge (length a) (Ok ((fun x => Float.eqb x (Float.of_Z c)) <$> a)).

Definition gt_scalar (a : list float) (c : Z) : counted (list bool) :=
  charge (length a) (Ok ((fun x => Float.gtb x (Float.of_Z c)) <$> a)).

Definition isnan (a : list float) : counted (list bool) :=
  charge (length a) (Ok (Float.isnan <$> a)).

Definition invert (m : list bool) : counted (list bool) :=
  charge (length m) (Ok (negb <$> m)).

(** [m1 & m2]: the two masks must have one shape. *)
Definition and_ (m1 m2 : list bool) : counted (list bool) :=
  charge (length m1 + length m2)
    (if decide (length m1 = length m2) then Ok (zip_with andb m1 m2)
     else Raise ValueError).

(** [1 / a], [a - 1], [a * s]. *)
Definition map_scalar (f : float -> float) (a : list float)
    : counted (list float) :=
  charge (length a) (Ok (f <$> a)).

Definition argwhere (mask : list bool) : counted (list nat) :=
  charge (length mask) (Ok (Np.argwhere mask)).

Definition argmax (a : list float) : counted nat :=
  charge (length a) (Np.argmax a).

Definition max (a : list float) : counted float :=
  charge (length a) (Np.max a).

Definition take {A} (a : list A) (idx : list nat) : counted (list A) :=
  charge (length idx) (Np.take a idx).

Definition compress {A} (a : list A) (mask : list bool) : counted (list A) :=
  charge (length mask + length a) (Np.compress a mask).

Definition item {A} (a : list A) (i : nat) : counted A :=
  charge 1 (Np.item a i).

Definition item_last {A} (a : list A) : counted A :=
  charge 1 (RunLogger.item_last a).

Definition setitem {A} (a : list A) (i : nat) (v : A) : counted (list A) :=
  charge 1 (RunLogger.setitem a i v).

Definition get_prog (ps : VectPrograms) (i : nat) : counted Program :=
  charge 1 (get_prog ps i).

Definition arange (n : nat) : counted (list Z) := charge n (Ok (Np.arange n)).

Definition full {A} (n : nat) (v : A) : counted (list A) :=
  charge n (Ok (Np.full n v)).

(** [l.append(x)], [np.array(l)] of a list of scalars, and the next
    element of an iteration. *)
Definition append {A} (l : list A) (x : A) : counted (list A) :=
  charge 1 (Ok (l ++ [x])).

Definition array {A} (l : list A) : counted (list A) :=
  charge (length l) (Ok l).

Definition next : counted unit := charge 1 (Ok tt).

End Op.

(** *** [pareto_logger] *)

(** The body of the loop for the bin [i] of complexity [c]. The test
    [pareto_rewards[i] <= max_r_at_c or isnan(pareto_rewards[i])] reads
    the bin a second time when the comparison fails, and
    [arg_have_c_and_max[0]] reads the index out of its array of one
    element. *)
Definition pareto_step (curr_batch : Batch) (curr_rewards : list float)
    (i : nat) (c : Z) (st : list float * list (option Program))
    : counted (list float * list (option Program)) :=
  let '(p_rewards, p_programs) := st in
  let curr_complexities := n_complexity (programs curr_batch) in
  rounded ← Op.round curr_complexities;
  mask ← Op.eq_scalar rounded c;
  arg_have_c ← Op.argwhere mask;
  if decide (0 < length arg_have_c)%nat then
    rs ← Op.take curr_rewards arg_have_c;
    k ← Op.argmax rs;
    arg_have_c_and_max ← Op.item arg_have_c k;
    max_r_at_c ← Op.item curr_rewards arg_have_c_and_max;
    cur ← Op.item p_rewards i;
    replace ←
      (if Float.leb cur max_r_at_c then mret true
       else cur' ← Op.item p_rewards i; mret (Float.isnan cur'));
    if replace : bool then
      idx ← Op.item [arg_have_c_and_max] 0;
      p ← Op.get_prog (programs curr_batch) idx;
      p_programs' ← Op.setitem p_programs i (Some p);
      p_rewards' ← Op.setitem p_rewards i max_r_at_c;
      mret (p_rewards', p_programs')
    else mret (p_rewards, p_programs)
  else mret (p_rewards, p_programs).

Fixpoint pareto_loop (curr_batch : Batch) (curr_rewards : list float)
    (i : nat) (cs : list Z) (st : list float * list (option Program))
    : counted (list float * list (option Program)) :=
  match cs with
  | [] => mret st
  | c :: cs' =>
      _ ← Op.next;
      st' ← pareto_step curr_batch curr_rewards i c st;
      pareto_loop curr_batch curr_rewards (S i) cs' st'
  end.

Definition pareto_arrays (self : RunLogger) (curr_batch : Batch)
    : counted (list Z * list float * list (option Program)) :=
  if decide (epoch self = Some 0) then
    pc ← Op.arange (10 * max_time_step curr_batch);
    pr ← Op.full (length pc) NaN;
    pp ← Op.full (length pc) None;
    mret (pc, pr, pp)
  else
    pc ← Op.attr (pareto_complexities self);
    pr ← Op.attr (pareto_rewards self);
    pp ← Op.attr (pareto_programs self);
    mret (pc, pr, pp).

Definition pareto_logger (self : RunLogger) : counted RunLogger :=
  curr_batch ← Op.attr (batch self);
  curr_rewards ← Op.attr (R self);
  '(pc, pr, pp) ← pareto_arrays self curr_batch;
  '(pr', pp') ← pareto_loop curr_batch curr_rewards 0 pc (pr, pp);
  mret (RunLogger.set_pareto self pc pr' pp').

(** *** [get_pareto_front] *)

Fixpoint front_loop (programs_valid : list (option Program))
    (complexities_valid : list Z) (i : nat) (rs : list float)
    (st : list float * list (option Program) * list Z)
    : counted (list float * list (option Program) * list Z) :=
  match rs with
  | [] => mret st
  | r :: rs' =>
      let '(front_r, front_programs, front_complexities) := st in
      _ ← Op.next;
      l ← Op.item_last front_r;
      if Float.gtb r l then
        front_r' ← Op.append front_r r;
        p ← Op.item programs_valid i;
        front_programs' ← Op.append front_programs p;
        c ← Op.item complexities_valid i;
        front_complexities' ← Op.append front_complexities c;
        front_loop programs_valid complexities_valid (S i) rs'
          (front_r', front_programs', front_complexities')
      else
        front_loop programs_valid complexities_valid (S i) rs' st
  end.

Definition get_pareto_front (self : RunLogger)
    : counted (list Z * list (option Program) * list float * list float) :=
  p_rewards ← Op.attr (pareto_rewards self);
  is_nan ← Op.isnan p_rewards;
  not_nan ← Op.invert is_nan;
  positive ← Op.gt_scalar p_rewards 0;
  mask_pareto_valid ← Op.and_ not_nan positive;
  rewards_valid ← Op.compress p_rewards mask_pareto_valid;
  p_programs ← Op.attr (pareto_programs self);
  programs_valid ← Op.compress p_programs mask_pareto_valid;
  p_complexities ← Op.attr (pareto_complexities self);
  complexities_valid ← Op.compress p_complexities mask_pareto_valid;
  r0 ← Op.item rewards_valid 0;
  p0 ← Op.item programs_valid 0;
  c0 ← Op.item complexities_valid 0;
  '(front_r, front_programs, front_complexities) ←
    front_loop programs_valid complexities_valid 0 rewards_valid
      ([r0], [p0], [c0]);
  front_complexities ← Op.array front_complexities;
  front_programs ← Op.array front_programs;
  front_r ← Op.array front_r;
  inverse ← Op.map_scalar (Float.div (Float.of_Z 1)) front_r;
  minus_one ← Op.map_scalar (fun x => Float.sub x (Float.of_Z 1)) inverse;
  curr_batch ← Op.attr (batch self);
  front_rmse ←
    Op.map_scalar (fun x => Float.mul x (y_target_std curr_batch)) minus_one;
  mret (front_complexities, front_programs, front_r, front_rmse).

(** *** The running best reward in [log] *)

Definition log_best (self : RunLogger) (epoch : Z) (batch : Batch)
    (rewards : list float) (best_prog_idx_epoch : nat)
    : counted (list float * list Program) :=
  '(h, hof) ←
    (if decide (epoch = 0)%Z then
       m ← Op.max rewards;
       p ← Op.get_prog (programs batch) best_prog_idx_epoch;
       mret ([m], [p])
     else mret (overall_max_R_history self, hall_of_fame self));
  if decide (epoch > 0)%Z then
    m ← Op.max rewards;
    hm ← Op.max h;
    if Float.gtb m hm then
      m' ← Op.max rewards;
      h' ← Op.append h m';
      p ← Op.get_prog (programs batch) best_prog_idx_epoch;
      hof' ← Op.append hof p;
      mret (h', hof')
    else
      l ← Op.item_last h;
      h' ← Op.append h l;
      mret (h', hof)
  else mret (h, hof).

End Cost.

(** A logger about to run [pareto_logger] at epoch 0 on a batch of one
    program, of complexity 1 and reward 1/2, with [max_time_step = m]. *)
Definition wide_grid_batch (m : nat) : Batch :=
  {| programs :=
       {| progs := [mkProgram 0 "x"];
          tokens_complexity := [[ratio 1 1]];
          n_complexity := [ratio 1 1];
          n_lengths := [1%nat];
          is_physical := [true] |};
     batch_size := 1; max_time_step := m; y_target_std := ratio 2 1 |}.

Definition wide_grid_logger (m : nat) : RunLogger :=
  RunLogger.log_histories (RunLogger.init None false) 0 (wide_grid_batch m)
    [ratio 1 2] [0%nat] [] (ratio 1 10) (mkProgram 0 "x")
    [ratio 1 2] [mkProgram 0 "x"] [ratio 1 2] (ratio 1 2) [ratio 1 1]
    [[ratio 1 2]] [[ratio 1 2]] [1%nat] [].

(** The logger after [pareto_logger] (the logger itself, should the call
    raise). *)
Definition wide_grid_final (m : nat) : RunLogger :=
  match RunLogger.pareto_logger (wide_grid_logger m) with
  | Ok self' => self'
  | Raise _ => wide_grid_logger m
  end.

(** ** Vocabulary of the further properties *)

(** The program [p] is in a batch of the calls [cs], with the reward [r]
    and a complexity that rounds to [c]. *)
Definition logged_in_bin (cs : list Call) (c : Z) (p : Program) (r : float)
    : Prop :=
  exists call j x, call ∈ cs /\
    progs (programs (call_batch call)) !! j = Some p /\
    call_rewards call !! j = Some r /\
    n_complexity (programs (call_batch call)) !! j = Some x /\
    Float.eqb (Float.round x) (Float.of_Z c) = true.

(** The string has a dot. *)
Fixpoint has_dot (s : string) : bool :=
  match s with
  | EmptyString => false
  | String c s' => Ascii.eqb c "."%char || has_dot s'
  end.

(** The string without its dots. *)
Fixpoint without_dots (s : string) : string :=
  match s with
  | EmptyString => EmptyString
  | String c s' =>
      if Ascii.eqb c "."%char then without_dots s'
      else String c (without_dots s')
  end.

(** Two epochs whose best programs of complexity 1 have the same reward. *)
Definition tie_calls : list Call :=
  [ demo_call 0 "p" [ratio 1 2; ratio 1 3; ratio 1 4] [0%nat];
    demo_call 1 "q" [ratio 1 2; ratio 1 5; ratio 1 5] [0%nat] ].

Definition tie_final : RunLogger * FileSystem :=
  match run demo_init tie_calls with
  | Ok st => st
  | Raise _ => demo_init
  end.

(** A training run whose second batch holds a NaN reward, next to the
    highest reward of the run. *)
Definition nan_calls : list Call :=
  [ demo_call 0 "p" [ratio 1 2; ratio 1 3; ratio 1 4] [0%nat];
    demo_call 1 "q" [NaN; ratio 2 5; ratio 9 10] [2%nat] ].

Definition nan_final : RunLogger * FileSystem :=
  match run demo_init nan_calls with
  | Ok st => st
  | Raise _ => demo_init
  end.

(** One call whose two programs have the complexity 1, the first with a
    NaN reward. *)
Definition nan_bin_calls : list Call :=
  [ {| call_epoch := 0;
       call_batch :=
         {| programs :=
              {| progs := [mkProgram 0 "x"; mkProgram 1 "y"];
                 tokens_complexity := [[ratio 1 1]; [ratio 1 1]];
                 n_complexity := [ratio 1 1; ratio 1 1];
                 n_lengths := [1%nat; 1%nat];
                 is_physical := [true; true] |};
            batch_size := 2; max_time_step := 1;
            y_target_std := ratio 2 1 |};
       call_rewards := [NaN; ratio 1 2];
       call_keep := [1%nat]; call_notkept := [0%nat];
       call_loss := ratio 1 10 |} ].

Definition nan_bin_final : RunLogger * FileSystem :=
  match run demo_init nan_bin_calls with
  | Ok st => st
  | Raise _ => demo_init
  end.

(** The state before the last call of [reset_calls]. *)
Definition reset_before : RunLogger * FileSystem :=
  match run demo_init (take 2 reset_calls) with
  | Ok st => st
  | Raise _ => demo_init
  end.

(** * Properties *)

(** ** The result monad *)

Lemma bind_Ok {A B} (m : result A) (f : A -> result B) (b : B) :
  m ≫= f = Ok b -> exists a, m = Ok a /\ f a = Ok b.
Proof. destruct m as [a|e]; simpl; [eauto | discriminate]. Qed.

Lemma from_option_Ok {A} (e : exn) (o : option A) (a : A) :
  from_option e o = Ok a <-> o = Some a.
Proof. destruct o; simpl; split; congruence. Qed.

(** Inverts a hypothesis [m ≫= f = Ok b] into its two steps. *)
Tactic Notation "inv_bind" hyp(H) :=
  let x := fresh "x" in
  let Hx := fresh "Hx" in
  apply bind_Ok in H; destruct H as (x & Hx & H).

Tactic Notation "inv_bind" hyp(H) "as" simple_intropattern(x) ident(Hx) :=
  apply bind_Ok in H; destruct H as (x & Hx & H).

(** ** The order of floats *)

Module FloatFacts.

Import Float.

Lemma leb_Num (a b : Qc) : leb (Num a) (Num b) = true <-> (a <= b)%Qc.
Proof.
  simpl. rewrite Qcle_alt. destruct (a ?= b)%Qc; split; congruence.
Qed.

Lemma ltb_Num (a b : Qc) : ltb (Num a) (Num b) = true <-> (a < b)%Qc.
Proof.
  simpl. rewrite Qclt_alt. destruct (a ?= b)%Qc; split; congruence.
Qed.

Lemma eqb_Num (a b : Qc) : eqb (Num a) (Num b) = true <-> a = b.
Proof.
  simpl. rewrite Qceq_alt. destruct (a ?= b)%Qc; split; congruence.
Qed.

Lemma leb_nonan x y : leb x y = true -> isnan x = false /\ isnan y = false.
Proof. destruct x, y; simpl; intuition congruence. Qed.

Lemma ltb_nonan x y : ltb x y = true -> isnan x = false /\ isnan y = false.
Proof. destruct x, y; simpl; intuition congruence. Qed.

Lemma leb_refl x : isnan x = false -> leb x x = true.
Proof. destruct x; [discriminate|]. intros _. apply leb_Num, Qcle_refl. Qed.

Lemma leb_trans x y z : leb x y = true -> leb y z = true -> leb x z = true.
Proof.
  destruct x, y, z; try discriminate. rewrite !leb_Num. apply Qcle_trans.
Qed.

Lemma leb_antisym x y : leb x y = true -> leb y x = true -> x = y.
Proof.
  destruct x, y; try discriminate. rewrite !leb_Num.
  intros H1 H2. f_equal. by apply Qcle_antisym.
Qed.

Lemma leb_total x y :
  isnan x = false -> isnan y = false -> leb x y = true \/ leb y x = true.
Proof.
  destruct x as [|a], y as [|b]; try discriminate. intros _ _.
  rewrite !leb_Num. destruct (Qclt_le_dec a b); auto using Qclt_le_weak.
Qed.

Lemma ltb_leb x y : ltb x y = true -> leb x y = true.
Proof.
  destruct x, y; try discriminate. rewrite ltb_Num, leb_Num.
  apply Qclt_le_weak.
Qed.

Lemma ltb_irrefl x : ltb x x = false.
Proof.
  destruct x as [|a]; [done|]. apply not_true_is_false.
  rewrite ltb_Num. apply (irreflexivity Qclt).
Qed.

(** On numbers, [x < y] is the negation of [y <= x]. *)
Lemma ltb_negb_leb x y :
  isnan x = false -> isnan y = false -> ltb x y = negb (leb y x).
Proof.
  destruct x as [|a], y as [|b]; try discriminate. intros _ _.
  apply eq_true_iff_eq. rewrite negb_true_iff, <- not_true_iff_false.
  rewrite ltb_Num, leb_Num. apply Qclt_nge.
Qed.

Lemma ltb_leb_trans x y z :
  ltb x y = true -> leb y z = true -> ltb x z = true.
Proof.
  destruct x, y, z; try discriminate. rewrite !ltb_Num, leb_Num.
  apply Qclt_le_trans.
Qed.

Lemma leb_ltb_trans x y z :
  leb x y = true -> ltb y z = true -> ltb x z = true.
Proof.
  destruct x, y, z; try discriminate. rewrite !ltb_Num, leb_Num.
  apply Qcle_lt_trans.
Qed.

Lemma ltb_trans x y z : ltb x y = true -> ltb y z = true -> ltb x z = true.
Proof. intros H1 H2. eapply ltb_leb_trans; [done|]. by apply ltb_leb. Qed.

Lemma ltb_not_leb x y : ltb x y = true -> leb y x = false.
Proof.
  intros H. destruct (ltb_nonan _ _ H) as [Hx Hy].
  rewrite (ltb_negb_leb _ _ Hx Hy) in H. by destruct (leb y x).
Qed.

Lemma is_max_unique a m1 m2 : is_max a m1 -> is_max a m2 -> m1 = m2.
Proof. intros [Hi1 Hm1] [Hi2 Hm2]. apply leb_antisym; auto. Qed.

Lemma is_max_nonan a m : is_max a m -> isnan m = false.
Proof. intros [Hi Hm]. by destruct (leb_nonan _ _ (Hm m Hi)). Qed.

End FloatFacts.


(** ** numpy reductions on arrays without NaN *)

Module NpFacts.

Import Float FloatFacts.

Lemma maximum_spec x y :
  isnan x = false -> isnan y = false ->
  let m := Np.maximum x y in
  isnan m = false /\ (m = x \/ m = y) /\ leb x m = true /\ leb y m = true.
Proof.
  intros Hx Hy. unfold Np.maximum. rewrite Hx, Hy.
  destruct (leb y x) eqn:E.
  - auto using leb_refl.
  - destruct (leb_total x y Hx Hy) as [H|H]; [|congruence].
    auto using leb_refl.
Qed.

Lemma foldl_maximum_spec a x :
  isnan x = false -> nonan a ->
  let m := foldl Np.maximum x a in
  isnan m = false /\ m ∈ x :: a /\ forall y, y ∈ x :: a -> leb y m = true.
Proof.
  revert x. induction a as [|z a IH]; intros x Hx Ha; simpl.
  - split; [done|]. split; [left|]. intros y Hy.
    apply list_elem_of_singleton in Hy as ->. by apply leb_refl.
  - apply Forall_cons in Ha as [Hz Ha].
    destruct (maximum_spec x z Hx Hz) as (Hm & Hor & Hxm & Hzm).
    destruct (IH _ Hm Ha) as (Hn & Hin & Hle).
    split; [done|]. split.
    + apply elem_of_cons in Hin as [->|Hin].
      * destruct Hor as [->| ->]; [left | right; left].
      * by do 2 right.
    + intros y Hy. apply elem_of_cons in Hy as [->|Hy].
      * eapply leb_trans; [exact Hxm|]. apply Hle. left.
      * apply elem_of_cons in Hy as [->|Hy].
        -- eapply leb_trans; [exact Hzm|]. apply Hle. left.
        -- apply Hle. by right.
Qed.

(** [a.max()] of a non-empty array of numbers is its greatest element. *)
Lemma max_spec a :
  a <> [] -> nonan a -> exists m, Np.max a = Ok m /\ is_max a m.
Proof.
  destruct a as [|x a]; [done|]. intros _ Ha.
  apply Forall_cons in Ha as [Hx Ha].
  destruct (foldl_maximum_spec a x Hx Ha) as (_ & Hin & Hle).
  eexists. split; [reflexivity|]. by split.
Qed.

Lemma max_Ok_nonempty a m : Np.max a = Ok m -> a <> [].
Proof. by destruct a. Qed.

Lemma max_is_max a m : nonan a -> Np.max a = Ok m -> is_max a m.
Proof.
  intros Ha Hm. destruct (max_spec a (max_Ok_nonempty _ _ Hm) Ha)
    as (m' & Hm' & Hmax). congruence.
Qed.

Lemma argmax_from_spec a : forall pre mp mi,
  nonan a -> isnan mp = false -> pre !! mi = Some mp ->
  (forall y, y ∈ pre -> leb y mp = true) ->
  exists m, (pre ++ a) !! Np.argmax_from mp mi (length pre) a = Some m
            /\ forall y, y ∈ pre ++ a -> leb y m = true.
Proof.
  induction a as [|x a IH]; intros pre mp mi Ha Hmp Hmi Hpre; simpl.
  - exists mp. rewrite app_nil_r. by split.
  - apply Forall_cons in Ha as [Hx Ha]. rewrite Hx.
    replace (pre ++ x :: a) with ((pre ++ [x]) ++ a)
      by (by rewrite <- app_assoc).
    replace (S (length pre)) with (length (pre ++ [x]))
      by (rewrite length_app; simpl; lia).
    destruct (leb x mp) eqn:E.
    + apply IH; auto.
      * by apply lookup_app_l_Some.
      * intros y Hy. apply elem_of_app in Hy as [Hy|Hy]; [auto|].
        by apply list_elem_of_singleton in Hy as ->.
    + apply IH; auto.
      * rewrite lookup_app_r by lia.
        by replace (length pre - length pre)%nat with 0%nat by lia.
      * assert (leb mp x = true) as Hle
          by (destruct (leb_total x mp Hx Hmp); congruence).
        intros y Hy. apply elem_of_app in Hy as [Hy|Hy].
        -- eapply leb_trans; [by apply Hpre | done].
        -- apply list_elem_of_singleton in Hy as ->. by apply leb_refl.
Qed.

(** [a.argmax()] of a non-empty array of numbers is an index of its
    greatest element. *)
Lemma argmax_spec a i :
  nonan a -> Np.argmax a = Ok i -> exists m, a !! i = Some m /\ is_max a m.
Proof.
  destruct a as [|x a]; [discriminate|]. intros Ha Hi.
  apply Forall_cons in Ha as [Hx Ha]. simpl in Hi. rewrite Hx in Hi.
  injection Hi as <-.
  destruct (argmax_from_spec a [x] x 0%nat Ha Hx eq_refl) as (m & Hm & Hle).
  { intros y Hy. apply list_elem_of_singleton in Hy as ->. by apply leb_refl. }
  exists m. split; [exact Hm|]. split; [|exact Hle].
  eapply list_elem_of_lookup_2. exact Hm.
Qed.

Lemma argmax_Ok a : a <> [] -> exists i, Np.argmax a = Ok i.
Proof. destruct a; [done|]. intros _. eexists. reflexivity. Qed.

(** The value at [argmax] is the value of [max]. *)
Lemma argmax_max a i m :
  nonan a -> Np.argmax a = Ok i -> Np.max a = Ok m -> a !! i = Some m.
Proof.
  intros Ha Hi Hm. destruct (argmax_spec a i Ha Hi) as (m' & Hl & Hmax).
  by rewrite (is_max_unique a m m' (max_is_max a m Ha Hm) Hmax).
Qed.

Lemma item_Ok {A} (a : list A) i x : Np.item a i = Ok x <-> a !! i = Some x.
Proof. apply from_option_Ok. Qed.

Lemma take_Ok {A} (a : list A) idx xs :
  Np.take a idx = Ok xs ->
  length xs = length idx /\
  forall k i, idx !! k = Some i -> xs !! k = a !! i /\ is_Some (a !! i).
Proof.
  revert xs. induction idx as [|i idx IH]; intros xs H; simpl in H.
  - injection H as <-. split; [done|]. intros k i Hk. by destruct k.
  - inv_bind H. inv_bind H. injection H as <-.
    apply item_Ok in Hx. destruct (IH _ Hx0) as [Hlen Hall].
    split; [simpl; lia|]. intros [|k] j Hk; simpl in *.
    + injection Hk as <-. rewrite Hx. eauto.
    + by apply Hall.
Qed.

Lemma select_length {A} (a : list A) mask :
  (length (Np.select a mask) <= length a)%nat.
Proof.
  revert mask. induction a as [|x a IH]; intros [|[] mask]; simpl;
    try lia; specialize (IH mask); lia.
Qed.

Lemma select_same_mask {A B} (a : list A) (b : list B) mask :
  length a = length b -> length (Np.select a mask) = length (Np.select b mask).
Proof.
  revert b mask. induction a as [|x a IH]; intros [|y b] [|[] mask] H;
    simpl in *; try done; try lia; f_equal; apply IH; lia.
Qed.

Lemma argwhere_from_spec mask i0 j :
  j ∈ Np.argwhere_from i0 mask <->
  exists k, j = (i0 + k)%nat /\ mask !! k = Some true.
Proof.
  revert i0. induction mask as [|b mask IH]; intros i0; simpl.
  - split; [by intros ?%elem_of_nil | by intros (k & _ & ?)].
  - assert (j ∈ Np.argwhere_from (S i0) mask <->
            exists k, j = (i0 + S k)%nat /\ mask !! k = Some true) as IH'.
    { rewrite IH. split; intros (k & -> & Hk); exists k; split; auto; lia. }
    destruct b.
    + rewrite elem_of_cons, IH'. split.
      * intros [->|(k & -> & Hk)]; [exists 0%nat | exists (S k)];
          split; auto; lia.
      * intros ([|k] & -> & Hk); [left; lia | right; eauto].
    + rewrite IH'. split.
      * intros (k & -> & Hk). exists (S k). auto.
      * intros ([|k] & -> & Hk); [done | eauto].
Qed.

Lemma argwhere_spec mask j :
  j ∈ Np.argwhere mask <-> mask !! j = Some true.
Proof.
  unfold Np.argwhere. rewrite argwhere_from_spec. split.
  - by intros (k & -> & Hk).
  - intros H. by exists j.
Qed.

Lemma arange_length n : length (Np.arange n) = n.
Proof. unfold Np.arange. by rewrite length_fmap, length_seq. Qed.

Lemma arange_lookup n i :
  (i < n)%nat -> Np.arange n !! i = Some (Z.of_nat i).
Proof.
  intros H. unfold Np.arange. rewrite list_lookup_fmap.
  by rewrite lookup_seq_lt.
Qed.

End NpFacts.

(** ** One call of [log], taken apart *)

Module LogFacts.

Import Float FloatFacts NpFacts RunLogger.

Lemma pareto_logger_inv self self' :
  pareto_logger self = Ok self' ->
  exists pc pr pp, self' = set_pareto self pc pr pp.
Proof.
  unfold pareto_logger. intros H.
  inv_bind H as cb Hcb. inv_bind H as cr Hcr.
  inv_bind H as [[pc pr] pp] Hinit. inv_bind H as [pr' pp'] Hloop.
  injection H as <-. eauto.
Qed.

(** The steps of a call of [log] that returns. *)
Lemma log_inv self fs e b r k nk lv self' fs' :
  log self fs e b r k nk lv = Ok (self', fs') ->
  exists idx bp h hof rk m row Ra Rta lp lu,
    Np.argmax r = Ok idx /\
    get_prog (programs b) idx = Ok bp /\
    log_best self e b r idx = Ok (h, hof) /\
    Np.take r k = Ok rk /\
    Np.max r = Ok m /\
    pareto_logger
      (log_histories self e b r k nk lv bp h hof rk m row Ra Rta lp lu)
      = Ok self' /\
    (if do_save self then save_log self' fs = Ok fs' else fs' = fs).
Proof.
  unfold log. intros H.
  inv_bind H as idx Hidx. inv_bind H as bp Hbp.
  inv_bind H as [h hof] Hbest. inv_bind H as rk Hrk. inv_bind H as m Hm.
  inv_bind H as row Hrow. inv_bind H as Ra HRa. inv_bind H as Rta HRta.
  inv_bind H as lp Hlp. inv_bind H as lu Hlu. inv_bind H as self2 Hpl.
  exists idx, bp, h, hof, rk, m, row, Ra, Rta, lp, lu.
  repeat (split; [assumption|]).
  destruct (pareto_logger_inv _ _ Hpl) as (pc & pr & pp & ->).
  simpl in H. simpl.
  destruct (do_save self).
  - inv_bind H as fs2 Hfs. injection H as <- <-. by split.
  - injection H as <- <-. by split.
Qed.

Lemma run_app st cs1 cs2 :
  run st (cs1 ++ cs2) = (st' ← run st cs1; run st' cs2).
Proof.
  revert st. induction cs1 as [|c cs1 IH]; intros st; simpl; [done|].
  destruct (log_call st c) as [st'|]; simpl; [apply IH | done].
Qed.

Lemma run_snoc st cs c st2 :
  run st (cs ++ [c]) = Ok st2 <->
  exists st1, run st cs = Ok st1 /\ log_call st1 c = Ok st2.
Proof.
  rewrite run_app. split.
  - intros H. inv_bind H. exists x. split; [done|].
    simpl in H. by destruct (log_call x c).
  - intros (st1 & -> & H). simpl. by rewrite H.
Qed.

Lemma log_histories_appended self fs e b r k nk lv self' fs' :
  log self fs e b r k nk lv = Ok (self', fs') ->
  histories_appended self self' /\
  epochs_history self' = epochs_history self ++ [e].
Proof.
  intros H. apply log_inv in H
    as (idx & bp & h & hof & rk & m & row & Ra & Rta & lp & lu & H).
  destruct H as (_ & _ & _ & _ & _ & H & _).
  destruct (pareto_logger_inv _ _ H) as (pc & pr & pp & ->).
  split; [|reflexivity].
  unfold histories_appended, appended; simpl. repeat split; eauto.
Qed.

Lemma appended_length {A} (old new : list A) :
  appended old new -> length new = S (length old).
Proof. intros [x ->]. rewrite length_app. simpl. lia. Qed.

Lemma histories_appended_lengths self self' :
  histories_appended self self' ->
  histories_lengths self' = S <$> histories_lengths self.
Proof.
  unfold histories_appended, histories_lengths.
  intros H. repeat (destruct H as [?%appended_length H]).
  apply appended_length in H. simpl. congruence.
Qed.

Lemma rewards_nonan_app cs1 cs2 :
  rewards_nonan (cs1 ++ cs2) -> rewards_nonan cs1 /\ rewards_nonan cs2.
Proof. apply Forall_app. Qed.

Lemma rewards_nonan_snoc cs c :
  rewards_nonan (cs ++ [c]) -> rewards_nonan cs /\ nonan (call_rewards c).
Proof.
  intros [H1 H2]%rewards_nonan_app. split; [done|].
  unfold rewards_nonan in H2. by rewrite Forall_singleton in H2.
Qed.

End LogFacts.

(** ** The small training run returns *)

Module DemoFacts.

Lemma demo_run : run demo_init demo_calls = Ok demo_final.
Proof. vm_compute. reflexivity. Qed.

Lemma demo_run_pair :
  run demo_init demo_calls = Ok (demo_final.1, demo_final.2).
Proof. rewrite <- surjective_pairing. exact demo_run. Qed.

Lemma demo_in_order : in_order demo_calls.
Proof. reflexivity. Qed.

Lemma demo_rewards_nonan : rewards_nonan demo_calls.
Proof. repeat constructor. Qed.

Lemma demo_first_epoch : epoch demo_first.1 = Some 0.
Proof. vm_compute. reflexivity. Qed.

End DemoFacts.

(** ** The running best reward and the hall of fame *)

Module BestFacts.

Import Float FloatFacts NpFacts RunLogger LogFacts.

Lemma log_best_zero self b r idx h hof :
  log_best self 0 b r idx = Ok (h, hof) ->
  exists m p, Np.max r = Ok m /\ get_prog (programs b) idx = Ok p /\
              h = [m] /\ hof = [p].
Proof.
  unfold log_best. rewrite decide_True by done. intros H.
  inv_bind H as [h0 hof0] H0. inv_bind H0 as m Hm. inv_bind H0 as p Hp.
  injection H0 as <- <-. rewrite decide_False in H by lia.
  injection H as <- <-. by exists m, p.
Qed.

Lemma log_best_pos self e b r idx h hof :
  e > 0 -> log_best self e b r idx = Ok (h, hof) ->
  exists m hm, Np.max r = Ok m /\
    Np.max (overall_max_R_history self) = Ok hm /\
    if gtb m hm
    then exists p, get_prog (programs b) idx = Ok p /\
           h = overall_max_R_history self ++ [m] /\
           hof = hall_of_fame self ++ [p]
    else exists l, last (overall_max_R_history self) = Some l /\
           h = overall_max_R_history self ++ [l] /\
           hof = hall_of_fame self.
Proof.
  intros He. unfold log_best. rewrite decide_False by lia.
  simpl. rewrite decide_True by done. intros H.
  inv_bind H as m Hm. inv_bind H as hm Hhm. exists m, hm.
  split; [done|]. split; [done|].
  destruct (gtb m hm).
  - inv_bind H as p Hp. injection H as <- <-. eauto.
  - inv_bind H as l Hl. injection H as <- <-.
    apply from_option_Ok in Hl. eauto.
Qed.

Lemma in_order_snoc cs c :
  in_order (cs ++ [c]) ->
  in_order cs /\ call_epoch c = Z.of_nat (length cs).
Proof.
  unfold in_order, Np.arange.
  rewrite fmap_app, length_app. simpl.
  replace (length cs + 1)%nat with (S (length cs)) by lia.
  rewrite seq_S, fmap_app. simpl. intros H.
  apply app_inj_2 in H as [H1 H2]; [|done]. split; [done|congruence].
Qed.

Lemma running_max_mono cs1 cs2 m1 m2 :
  cs1 ⊆ cs2 -> running_max cs1 m1 -> running_max cs2 m2 ->
  leb m1 m2 = true.
Proof.
  intros Hsub [(c & Hc & Hm1) _] [_ Hall].
  destruct (Hall c (Hsub _ Hc)) as (m' & Hm' & Hle). congruence.
Qed.

Lemma running_max_unique cs m1 m2 :
  running_max cs m1 -> running_max cs m2 -> m1 = m2.
Proof.
  intros H1 H2. apply leb_antisym; eapply running_max_mono; eauto.
Qed.

Lemma logged_with_mono cs1 cs2 p r :
  cs1 ⊆ cs2 -> logged_with cs1 p r -> logged_with cs2 p r.
Proof. intros Hsub (c & i & Hc & H). exists c, i. split; auto. Qed.

Lemma best_inv_last cs self :
  cs <> [] -> best_inv cs self ->
  exists m, last (overall_max_R_history self) = Some m /\ running_max cs m /\
            Np.max (overall_max_R_history self) = Ok m.
Proof.
  intros Hne (Hlen & Hk & _).
  assert (length cs <> 0)%nat as Hn by (by destruct cs).
  destruct (Hk (length cs - 1)%nat ltac:(lia)) as (m & Hm & Hrm).
  rewrite firstn_all2 in Hrm by lia.
  exists m. rewrite last_lookup, Hlen.
  replace (Nat.pred (length cs)) with (length cs - 1)%nat by lia.
  split; [done|]. split; [done|].
  assert (is_max (overall_max_R_history self) m) as Hmax.
  { split; [by eapply list_elem_of_lookup_2|].
    intros x Hx. apply list_elem_of_lookup in Hx as [k Hx].
    pose proof (lookup_lt_Some _ _ _ Hx) as Hlt. rewrite Hlen in Hlt.
    destruct (Hk k Hlt) as (m' & Hm' & Hrm').
    assert (x = m') as -> by congruence.
    eapply running_max_mono; [|exact Hrm'|exact Hrm].
    apply subseteq_take. }
  assert (nonan (overall_max_R_history self)) as Hnn.
  { apply Forall_forall. intros x Hx.
    by destruct (leb_nonan _ _ (proj2 Hmax x Hx)). }
  destruct (max_spec (overall_max_R_history self)) as (m' & Hm' & Hmax');
    [|done|].
  { intros E. rewrite E in Hm. by rewrite lookup_nil in Hm. }
  by rewrite (is_max_unique _ _ _ Hmax Hmax').
Qed.

Lemma log_call_best l fs c l' fs' :
  log_call (l, fs) c = Ok (l', fs') ->
  exists idx,
    Np.argmax (call_rewards c) = Ok idx /\
    log_best l (call_epoch c) (call_batch c) (call_rewards c) idx
      = Ok (overall_max_R_history l', hall_of_fame l').
Proof.
  unfold log_call. simpl. intros H. apply log_inv in H
    as (idx & bp & h & hof & rk & m & row & Ra & Rta & lp & lu & H).
  destruct H as (Hidx & _ & Hbest & _ & _ & H & _).
  destruct (pareto_logger_inv _ _ H) as (pc & pr & pp & ->).
  exists idx. by split.
Qed.

Lemma argmax_logged c idx p m :
  nonan (call_rewards c) ->
  Np.argmax (call_rewards c) = Ok idx ->
  get_prog (programs (call_batch c)) idx = Ok p ->
  Np.max (call_rewards c) = Ok m ->
  forall cs, c ∈ cs -> logged_with cs p m.
Proof.
  intros Hnn Hidx Hp Hm cs Hc. exists c, idx. split; [done|].
  split; [by apply item_Ok in Hp|]. by apply argmax_max.
Qed.

Lemma best_inv_first l fs c l' fs' :
  call_epoch c = 0 -> nonan (call_rewards c) ->
  log_call (l, fs) c = Ok (l', fs') -> best_inv [c] l'.
Proof.
  intros He Hnn H. apply log_call_best in H as (idx & Hidx & H).
  rewrite He in H. apply log_best_zero in H as (m & p & Hm & Hp & Hh & Hhof).
  unfold best_inv. rewrite Hh, Hhof. simpl. split; [done|]. split.
  - intros k Hk. assert (k = 0%nat) as -> by lia. exists m. split; [done|].
    simpl. split.
    + exists c. split; [left|done].
    + intros c' ->%list_elem_of_singleton. exists m. split; [done|].
      apply leb_refl. eapply is_max_nonan. by apply max_is_max.
  - exists p, m. split; [done|]. split; [done|].
    eapply argmax_logged; eauto. left.
Qed.

Lemma best_inv_step cs l fs c l' fs' :
  cs <> [] -> best_inv cs l ->
  call_epoch c = Z.of_nat (length cs) -> nonan (call_rewards c) ->
  log_call (l, fs) c = Ok (l', fs') ->
  best_inv (cs ++ [c]) l' /\
  exists m prev, Np.max (call_rewards c) = Ok m /\ running_max cs prev /\
    if gtb m prev
    then exists p, hall_of_fame l' = hall_of_fame l ++ [p]
    else hall_of_fame l' = hall_of_fame l.
Proof.
  intros Hne Hinv He Hnn H.
  destruct (best_inv_last cs l Hne Hinv) as (prev & Hlast & Hprev & Hmaxh).
  destruct Hinv as (Hlen & Hk & p0 & m0 & Hp0 & Hm0 & Hlog0).
  assert (m0 = prev) as -> by congruence.
  apply log_call_best in H as (idx & Hidx & H).
  apply log_best_pos in H as (m & hm & Hm & Hhm & H);
    [|destruct cs; [done|simpl in He; lia]].
  assert (hm = prev) as -> by congruence.
  pose proof (max_is_max _ _ Hnn Hm) as Hmmax.
  pose proof (is_max_nonan _ _ Hmmax) as Hmn.
  assert (isnan prev = false) as Hpn.
  { destruct Hprev as [(c0 & Hc0 & _) Hall].
    destruct (Hall c0 Hc0) as (m' & _ & Hle).
    by destruct (leb_nonan _ _ Hle). }
  assert (forall new, leb prev new = true -> leb m new = true ->
            (new = m \/ new = prev) ->
            running_max (cs ++ [c]) new) as Hnew.
  { intros new Hpl Hml Hor. split.
    - destruct Hor as [->| ->].
      + exists c. split; [apply elem_of_app; right; left | done].
      + destruct Hprev as [(c0 & Hc0 & Hmc0) _]. exists c0.
        split; [apply elem_of_app; by left | done].
    - intros c' Hc'. apply elem_of_app in Hc' as [Hc'|Hc'].
      + destruct Hprev as [_ Hall]. destruct (Hall c' Hc') as (m' & Hm' & Hle).
        exists m'. split; [done|]. by eapply leb_trans.
      + apply list_elem_of_singleton in Hc' as ->. by exists m. }
  assert (forall new, running_max (cs ++ [c]) new ->
     forall k, (k < length cs + 1)%nat ->
     exists x, (overall_max_R_history l ++ [new]) !! k = Some x /\
               running_max (take (S k) (cs ++ [c])) x) as Hks.
  { intros new Hrm k Hlt.
    destruct (decide (k < length cs)%nat) as [Hkl|Hkl].
    - destruct (Hk k Hkl) as (x & Hx & Hrx). exists x.
      split; [by apply lookup_app_l_Some|].
      by rewrite take_app_le by lia.
    - assert (k = length cs) as -> by lia. exists new. split.
      + rewrite lookup_app_r by lia.
        by replace (length cs - length _)%nat with 0%nat by lia.
      + rewrite firstn_all2; [done|]. rewrite length_app. simpl. lia. }
  destruct (gtb m prev) eqn:Egt.
  - destruct H as (p & Hp & Hh & Hhof). split.
    + unfold best_inv. rewrite Hh, Hhof, !length_app, !last_snoc. simpl.
      assert (running_max (cs ++ [c]) m) as Hrm.
      { apply Hnew; [by apply ltb_leb | by apply leb_refl | by left]. }
      split; [lia|]. split; [by apply Hks|].
      exists p, m. split; [done|]. split; [done|].
      eapply argmax_logged; eauto. apply elem_of_app. right. left.
    + exists m, prev. rewrite Egt. split; [done|]. split; [done|]. eauto.
  - destruct H as (lst & Hl & Hh & Hhof).
    assert (lst = prev) as -> by congruence. split.
    + unfold best_inv. rewrite Hh, Hhof, !length_app, !last_snoc. simpl.
      assert (running_max (cs ++ [c]) prev) as Hrm.
      { apply Hnew; [by apply leb_refl | | by right].
        unfold gtb in Egt. rewrite (ltb_negb_leb _ _ Hpn Hmn) in Egt.
        by destruct (leb m prev). }
      split; [lia|]. split; [by apply Hks|].
      exists p0, prev. split; [done|]. split; [done|].
      eapply logged_with_mono; [|exact Hlog0].
      intros x Hx. apply elem_of_app. by left.
    + exists m, prev. rewrite Egt. split; [done|]. by split.
Qed.

End BestFacts.

Module BestTheorems.

Import Float FloatFacts NpFacts RunLogger LogFacts BestFacts.

Lemma in_order_prefix cs1 cs2 : in_order (cs1 ++ cs2) -> in_order cs1.
Proof.
  induction cs2 as [|c cs2 IH] using rev_ind.
  - by rewrite app_nil_r.
  - rewrite app_assoc. intros H. apply in_order_snoc in H as [H _]. auto.
Qed.

Lemma run_best_inv st0 cs st :
  in_order cs -> cs <> [] -> rewards_nonan cs ->
  run st0 cs = Ok st -> best_inv cs st.1.
Proof.
  revert st. induction cs as [|c cs IH] using rev_ind; [done|].
  intros st Hord _ Hnn Hrun.
  apply in_order_snoc in Hord as [Hord He].
  apply rewards_nonan_snoc in Hnn as [Hnn Hc].
  apply run_snoc in Hrun as ([l1 fs1] & Hrun & Hlog). destruct st as [l' fs'].
  destruct cs as [|c0 cs'].
  - simpl in Hrun, He |- *. injection Hrun as ->.
    by apply (best_inv_first l1 fs1 c l' fs').
  - eapply best_inv_step; eauto.
Qed.

(** Claim C1, amended. In a training run (calls of [log] with the epochs
    0, 1, 2, ... and no NaN reward), after the call for epoch [t], that is
    after [t + 1] calls: [overall_max_R_history] has [t + 1] entries;
    its entry [k] is the greatest of the maximum rewards of the epochs
    [0..k], for every [k <= t], so the entries never decrease; [best_prog]
    returns the last program of the hall of fame, which was logged with the
    last entry as its reward; and a call for an epoch after the first
    appends a program to the hall of fame when the maximum reward of the
    epoch strictly exceeds the running maximum before the call, and leaves
    the hall of fame as it is otherwise. *)
Theorem overall_max_history_and_best_prog st0 cs self fs :
  in_order cs -> cs <> [] -> rewards_nonan cs ->
  run st0 cs = Ok (self, fs) ->
  length (overall_max_R_history self) = length cs /\
  (forall k, (k < length cs)%nat ->
     exists m, overall_max_R_history self !! k = Some m /\
               running_max (take (S k) cs) m) /\
  (forall j k mj mk, (j <= k)%nat ->
     overall_max_R_history self !! j = Some mj ->
     overall_max_R_history self !! k = Some mk -> leb mj mk = true) /\
  (exists p m, best_prog self = Ok p /\ p ∈ hall_of_fame self /\
     last (overall_max_R_history self) = Some m /\ running_max cs m /\
     logged_with cs p m) /\
  (forall cs1 c cs2, cs = cs1 ++ c :: cs2 -> cs1 <> [] ->
     exists st1 st2 m prev,
       run st0 cs1 = Ok st1 /\ log_call st1 c = Ok st2 /\
       Np.max (call_rewards c) = Ok m /\ running_max cs1 prev /\
       if gtb m prev
       then exists p, hall_of_fame st2.1 = hall_of_fame st1.1 ++ [p]
       else hall_of_fame st2.1 = hall_of_fame st1.1).
Proof.
  intros Hord Hne Hnn Hrun.
  pose proof (run_best_inv st0 cs (self, fs) Hord Hne Hnn Hrun) as Hinv.
  simpl in Hinv.
  destruct (best_inv_last cs self Hne Hinv) as (ml & Hlast & Hrml & _).
  destruct Hinv as (Hlen & Hk & p & m & Hp & Hm & Hlog).
  assert (m = ml) as -> by congruence.
  split; [done|]. split; [done|]. split; [|split].
  - intros j k mj mk Hjk Hj Hk'.
    pose proof (lookup_lt_Some _ _ _ Hj) as Hjl.
    pose proof (lookup_lt_Some _ _ _ Hk') as Hkl. rewrite Hlen in Hjl, Hkl.
    destruct (Hk j Hjl) as (mj' & Hj' & Hrj).
    destruct (Hk k Hkl) as (mk' & Hk'' & Hrk).
    assert (mj' = mj) as -> by congruence.
    assert (mk' = mk) as -> by congruence.
    eapply running_max_mono; [|exact Hrj|exact Hrk].
    intros c Hc. apply elem_of_take in Hc as (i & Hi & Hlt).
    apply elem_of_take. exists i. split; [done|lia].
  - exists p, ml. unfold best_prog, item_last. rewrite Hp.
    split; [done|]. split; [|done].
    rewrite last_lookup in Hp. by eapply list_elem_of_lookup_2.
  - intros cs1 c cs2 -> Hne1.
    rewrite run_app in Hrun. inv_bind Hrun as [l1 fs1] Hrun1.
    simpl in Hrun. inv_bind Hrun as [l2 fs2] Hlog2.
    replace (cs1 ++ c :: cs2) with ((cs1 ++ [c]) ++ cs2) in Hord, Hnn
      by (by rewrite <- app_assoc).
    apply in_order_prefix in Hord.
    apply rewards_nonan_app in Hnn as [Hnn _].
    apply in_order_snoc in Hord as [Hord He].
    apply rewards_nonan_snoc in Hnn as [Hnn1 Hc].
    pose proof (run_best_inv st0 cs1 (l1, fs1) Hord Hne1 Hnn1 Hrun1) as Hinv1.
    destruct (best_inv_step cs1 l1 fs1 c l2 fs2 Hne1 Hinv1 He Hc Hlog2)
      as (_ & m & prev & Hmx & Hprev & Hif).
    by exists (l1, fs1), (l2, fs2), m, prev.
Qed.

Lemma overall_max_history_and_best_prog_witness :
  in_order demo_calls /\ rewards_nonan demo_calls /\
  run demo_init demo_calls = Ok (demo_final.1, demo_final.2) /\
  length (overall_max_R_history demo_final.1) = length demo_calls /\
  exists p m, best_prog demo_final.1 = Ok p /\
    last (overall_max_R_history demo_final.1) = Some m /\
    running_max demo_calls m.
Proof.
  refine (conj DemoFacts.demo_in_order
            (conj DemoFacts.demo_rewards_nonan
               (conj DemoFacts.demo_run_pair _))).
  destruct (overall_max_history_and_best_prog demo_init demo_calls
              demo_final.1 demo_final.2 DemoFacts.demo_in_order
              ltac:(discriminate) DemoFacts.demo_rewards_nonan
              DemoFacts.demo_run_pair)
    as (Hlen & _ & _ & (p & m & Hp & _ & Hm & Hrm & _) & _).
  refine (conj Hlen _). exists p, m. exact (conj Hp (conj Hm Hrm)).
Defined.

(** Claim C1 as the spec states it, for every sequence of calls, fails
    when a batch holds a NaN reward: at epoch 1 the rewards are NaN, 2/5
    and 9/10, the maximum of the batch is NaN for numpy, the test
    [rewards.max() > np.max(...)] fails, and the running best stays at
    1/2 with the program of epoch 0, below the reward 9/10 that was
    logged. *)
Lemma overall_max_misses_batch_with_nan_counterexample :
  in_order nan_calls /\
  run demo_init nan_calls = Ok nan_final /\
  overall_max_R_history nan_final.1 = [ratio 1 2; ratio 1 2] /\
  best_prog nan_final.1 = Ok (mkProgram 0 "pa") /\
  logged_with nan_calls (mkProgram 2 "qc") (ratio 9 10) /\
  ltb (ratio 1 2) (ratio 9 10) = true /\
  ~ (exists m, last (overall_max_R_history nan_final.1) = Some m /\
               running_max nan_calls m).
Proof.
  assert (run demo_init nan_calls = Ok nan_final) as Hrun
    by (vm_compute; reflexivity).
  assert (overall_max_R_history nan_final.1 = [ratio 1 2; ratio 1 2]) as Hh
    by (vm_compute; reflexivity).
  split; [reflexivity|]. split; [exact Hrun|]. split; [exact Hh|].
  split; [vm_compute; reflexivity|]. split.
  { exists (demo_call 1 "q" [NaN; ratio 2 5; ratio 9 10] [2%nat]), 2%nat.
    split; [right; left|split; reflexivity]. }
  split; [reflexivity|].
  intros (m & _ & _ & Hall).
  destruct (Hall (demo_call 1 "q" [NaN; ratio 2 5; ratio 9 10] [2%nat]))
    as (m' & Hm' & Hle); [right; left|].
  vm_compute in Hm'. injection Hm' as <-. discriminate Hle.
Qed.

End BestTheorems.

(** ** The per-epoch histories *)

Module HistoryTheorems.

Import RunLogger LogFacts.

Lemma run_histories st cs st' :
  run st cs = Ok st' ->
  histories_lengths st'.1
    = (fun n => (n + length cs)%nat) <$> histories_lengths st.1 /\
  epochs_history st'.1 = epochs_history st.1 ++ (call_epoch <$> cs).
Proof.
  revert st. induction cs as [|c cs IH]; intros st H; simpl in H.
  - injection H as <-. rewrite app_nil_r. split; [|done].
    unfold histories_lengths. simpl. by rewrite !Nat.add_0_r.
  - inv_bind H as st1 Hlog. destruct (IH _ H) as [Hl He].
    destruct st as [l fs], st1 as [l1 fs1]. unfold log_call in Hlog.
    apply log_histories_appended in Hlog as [Happ Hep]. cbn [fst snd] in *.
    apply histories_appended_lengths in Happ.
    rewrite Hl, He, Happ, Hep, <- app_assoc. split; [|done].
    unfold histories_lengths. simpl. repeat f_equal; lia.
Qed.

(** Claim C6. A call of [log] that returns appends exactly one element to
    each of the twelve per-epoch histories, the epoch to [epochs_history];
    so after [n] calls that follow [initialize] each of them has length [n]
    and [epochs_history] is the list of the epochs in the order of the
    calls. *)
Theorem log_appends_to_histories :
  (forall self fs e b r k nk lv self' fs',
     log self fs e b r k nk lv = Ok (self', fs') ->
     histories_appended self self' /\
     epochs_history self' = epochs_history self ++ [e]) /\
  (forall self fs cs self' fs',
     run (initialize self, fs) cs = Ok (self', fs') ->
     histories_lengths self' = replicate 12 (length cs) /\
     epochs_history self' = call_epoch <$> cs).
Proof.
  split.
  - intros. by eapply log_histories_appended.
  - intros self fs cs self' fs' H.
    apply run_histories in H as [Hl He]. simpl in *. by split.
Qed.

Lemma log_appends_to_histories_witness :
  run (initialize demo_init.1, demo_init.2) demo_calls
    = Ok (demo_final.1, demo_final.2) /\
  histories_lengths demo_final.1 = replicate 12 3%nat /\
  epochs_history demo_final.1 = [0; 1; 2].
Proof.
  refine (conj DemoFacts.demo_run_pair _).
  exact (proj2 log_appends_to_histories demo_init.1 demo_init.2 demo_calls
           demo_final.1 demo_final.2 DemoFacts.demo_run_pair).
Defined.

End HistoryTheorems.

(** ** The Pareto arrays *)

Module ParetoFacts.

Import Float FloatFacts NpFacts RunLogger LogFacts.

Lemma rewards_with_complexity_nil c cx : rewards_with_complexity c cx [] = [].
Proof. by destruct cx. Qed.

Lemma rewards_with_complexity_subseteq c cx rw :
  rewards_with_complexity c cx rw ⊆ rw.
Proof.
  revert rw. induction cx as [|x cx IH]; intros [|r rw]; simpl;
    try apply list_subseteq_nil.
  destruct (eqb (round x) (of_Z c)).
  - intros y [->|Hy]%elem_of_cons; [left | right; by apply IH].
  - intros y Hy. right. by apply IH.
Qed.

Lemma rewards_with_complexity_nonan c cx rw :
  nonan rw -> nonan (rewards_with_complexity c cx rw).
Proof.
  intros H. apply Forall_forall. intros x Hx.
  eapply (proj1 (Forall_forall _ _) H), rewards_with_complexity_subseteq, Hx.
Qed.

(** The rewards that [pareto_step] reads through [argwhere] are the
    rewards of the programs of complexity [c]. *)
Lemma take_argwhere c rw_all cx : forall i0 rs,
  Np.take rw_all (Np.argwhere_from i0 (have_c cx c)) = Ok rs ->
  rs = rewards_with_complexity c cx (drop i0 rw_all).
Proof.
  induction cx as [|x cx IH]; intros i0 rs H; simpl in H.
  - by injection H as <-.
  - destruct (drop i0 rw_all) as [|r rw'] eqn:Ed.
    + assert (drop (S i0) rw_all = []) as Ed'.
      { apply drop_ge. apply (f_equal length) in Ed.
        rewrite length_drop in Ed. simpl in Ed. lia. }
      destruct (eqb (round x) (of_Z c)) eqn:E; simpl in H.
      * inv_bind H as y Hy. apply item_Ok in Hy.
        apply lookup_lt_Some in Hy. apply (f_equal length) in Ed.
        rewrite length_drop in Ed. simpl in Ed. lia.
      * apply IH in H. rewrite Ed' in H.
        by rewrite rewards_with_complexity_nil in H.
    + assert (rw_all !! i0 = Some r /\ drop (S i0) rw_all = rw') as [Hr Ed'].
      { split.
        - rewrite <- (Nat.add_0_r i0), <- lookup_drop. by rewrite Ed.
        - replace (S i0) with (i0 + 1)%nat by lia.
          by rewrite <- drop_drop, Ed. }
      simpl. destruct (eqb (round x) (of_Z c)) eqn:E; simpl in H.
      * inv_bind H as y Hy. inv_bind H as ys Hys. injection H as <-.
        apply item_Ok in Hy. apply IH in Hys. rewrite Ed' in Hys.
        congruence.
      * apply IH in H. by rewrite Ed' in H.
Qed.

Lemma bin_spec_app seen rs cur m :
  nonan rs -> bin_spec seen cur ->
  (rs <> [] -> is_max rs m) ->
  let new := match rs with
             | [] => cur
             | _ => if leb cur m || isnan cur then m else cur
             end in
  bin_spec (seen ++ rs) new.
Proof.
  intros Hnn Hcur Hm. destruct rs as [|r rs'].
  { simpl. by rewrite app_nil_r. }
  specialize (Hm ltac:(done)). set (rs := r :: rs') in *.
  pose proof (is_max_nonan _ _ Hm) as Hmn.
  destruct seen as [|s seen'].
  - simpl in Hcur. subst cur. simpl. exact Hm.
  - assert (is_max (s :: seen') cur) as Hmax by exact Hcur.
    pose proof (is_max_nonan _ _ Hmax) as Hcn.
    assert (forall v, bin_spec ((s :: seen') ++ rs) v
                      = is_max ((s :: seen') ++ rs) v) as Heq by reflexivity.
    cbv zeta. rewrite Heq. clear Heq Hcur. set (L := s :: seen') in *.
    unfold rs at 1. rewrite Hcn, orb_false_r.
    destruct Hmax as [Hin Hle], Hm as [Hin' Hle'].
    destruct (leb cur m) eqn:E.
    + split; [apply elem_of_app; by right|].
      intros y [Hy|Hy]%elem_of_app; [|by apply Hle'].
      eapply leb_trans; [by apply Hle | done].
    + assert (leb m cur = true) as Hmc
        by (destruct (leb_total cur m Hcn Hmn); congruence).
      split; [apply elem_of_app; by left|].
      intros y [Hy|Hy]%elem_of_app; [by apply Hle|].
      eapply leb_trans; [by apply Hle' | done].
Qed.

Lemma bin_spec_update seen rs cur m :
  nonan rs -> bin_spec seen cur -> rs <> [] -> is_max rs m ->
  bin_spec (seen ++ rs) (if leb cur m || isnan cur then m else cur).
Proof.
  intros Hnn Hcur Hne Hm.
  pose proof (bin_spec_app seen rs cur m Hnn Hcur (fun _ => Hm)) as H.
  by destruct rs.
Qed.

Lemma setitem_Ok {A} (a : list A) i v a' :
  setitem a i v = Ok a' -> a' = <[i := v]> a /\ (i < length a)%nat.
Proof. unfold setitem. case_decide; [|done]. by intros [= <-]. Qed.

(** One bin of [pareto_logger]. *)
Lemma pareto_step_spec b rw i c pr pp pr' pp' :
  nonan rw -> pareto_step b rw i c (pr, pp) = Ok (pr', pp') ->
  length pr' = length pr /\ length pp' = length pp /\
  (forall j, j <> i -> pr' !! j = pr !! j) /\
  (forall seen cur, pr !! i = Some cur -> bin_spec seen cur ->
     exists new, pr' !! i = Some new /\
       bin_spec
         (seen ++ rewards_with_complexity c (n_complexity (programs b)) rw)
         new).
Proof.
  intros Hnn. unfold pareto_step.
  set (cx := n_complexity (programs b)).
  set (matches := Np.argwhere (have_c cx c)). case_decide as Hlen.
  - intros H. inv_bind H as rs Hrs. inv_bind H as k Hk.
    inv_bind H as jmax Hjmax. inv_bind H as max_r Hmax_r.
    inv_bind H as cur' Hcur'.
    apply item_Ok in Hjmax, Hmax_r, Hcur'.
    pose proof (take_argwhere c rw cx 0%nat rs Hrs) as Hrwc.
    rewrite drop_0 in Hrwc.
    destruct (take_Ok _ _ _ Hrs) as [Hlrs Hat].
    assert (nonan rs) as Hnrs
      by (rewrite Hrwc; by apply rewards_with_complexity_nonan).
    destruct (argmax_spec rs k Hnrs Hk) as (m & Hmk & Hm).
    assert (m = max_r) as ->.
    { destruct (Hat k jmax Hjmax) as [Heq _]. congruence. }
    assert (rs <> []) as Hne.
    { intros ->. simpl in Hlrs. fold matches in Hlrs. lia. }
    destruct (leb cur' max_r || isnan cur') eqn:E.
    + inv_bind H as p Hp. inv_bind H as pp2 Hpp2. inv_bind H as pr2 Hpr2.
      injection H as <- <-.
      apply setitem_Ok in Hpp2 as [-> Hi2], Hpr2 as [-> Hi1].
      rewrite !length_insert. split; [done|]. split; [done|]. split.
      * intros j Hj. by rewrite list_lookup_insert_ne.
      * intros seen cur Hcur Hspec. exists max_r.
        rewrite list_lookup_insert_eq by done. split; [done|].
        assert (cur = cur') as -> by congruence.
        pose proof (bin_spec_update seen rs cur' max_r Hnrs Hspec Hne Hm)
          as Hb.
        by rewrite E, Hrwc in Hb.
    + injection H as <- <-. split; [done|]. split; [done|]. split; [done|].
      intros seen cur Hcur Hspec. exists cur. split; [done|].
      assert (cur = cur') as -> by congruence.
      pose proof (bin_spec_update seen rs cur' max_r Hnrs Hspec Hne Hm)
        as Hb.
      by rewrite E, Hrwc in Hb.
  - intros [= <- <-]. split; [done|]. split; [done|]. split; [done|].
    intros seen cur Hcur Hspec. exists cur. split; [done|].
    assert (matches = []) as Hm by (destruct matches; [done|simpl in *; lia]).
    pose proof (take_argwhere c rw cx 0%nat []) as Hrwc.
    unfold matches, Np.argwhere in Hm. rewrite Hm, drop_0 in Hrwc.
    rewrite <- Hrwc by done. by rewrite app_nil_r.
Qed.

(** The loop of [pareto_logger] over the bins [i0, i0 + 1, ...]. *)
Lemma pareto_loop_spec b rw : nonan rw -> forall cs i0 pr pp pr' pp',
  pareto_loop b rw i0 cs (pr, pp) = Ok (pr', pp') ->
  length pr' = length pr /\ length pp' = length pp /\
  (forall j, (j < i0)%nat -> pr' !! j = pr !! j) /\
  (forall k c seen cur, cs !! k = Some c ->
     pr !! (i0 + k)%nat = Some cur -> bin_spec seen cur ->
     exists new, pr' !! (i0 + k)%nat = Some new /\
       bin_spec
         (seen ++ rewards_with_complexity c (n_complexity (programs b)) rw)
         new).
Proof.
  intros Hnn. induction cs as [|c cs IH]; intros i0 pr pp pr' pp' H;
    simpl in H.
  - injection H as <- <-. split; [done|]. split; [done|]. split; [done|].
    intros k c seen cur Hk. by rewrite lookup_nil in Hk.
  - inv_bind H as [pr1 pp1] Hstep.
    destruct (pareto_step_spec _ _ _ _ _ _ _ _ Hnn Hstep)
      as (Hl1 & Hl2 & Hother & Hbin).
    destruct (IH _ _ _ _ _ H) as (Hl1' & Hl2' & Hbefore & Hrest).
    split; [congruence|]. split; [congruence|]. split.
    + intros j Hj. rewrite Hbefore by lia. apply Hother. lia.
    + intros [|k] c' seen cur Hk Hcur Hspec; simpl in Hk.
      * injection Hk as ->. rewrite Nat.add_0_r in *.
        destruct (Hbin seen cur Hcur Hspec) as (new & Hnew & Hs).
        exists new. split; [|done]. rewrite Hbefore by lia. done.
      * replace (i0 + S k)%nat with (S i0 + k)%nat in * by lia.
        apply (Hrest k c' seen cur Hk); [|done].
        rewrite Hother by lia. done.
Qed.

(** The steps of a call of [pareto_logger] that returns. *)
Lemma pareto_logger_steps self self' :
  pareto_logger self = Ok self' ->
  exists b rw pc pr pp pr' pp',
    batch self = Some b /\ R self = Some rw /\
    (if decide (epoch self = Some 0)
     then pc = Np.arange (10 * max_time_step b) /\
          pr = Np.full (length pc) NaN /\ pp = Np.full (length pc) None
     else pareto_complexities self = Some pc /\
          pareto_rewards self = Some pr /\
          pareto_programs self = Some pp) /\
    pareto_loop b rw 0 pc (pr, pp) = Ok (pr', pp') /\
    self' = set_pareto self pc pr' pp'.
Proof.
  unfold pareto_logger. intros H.
  inv_bind H as b Hb. inv_bind H as rw Hrw.
  inv_bind H as [[pc pr] pp] Hinit. inv_bind H as [pr' pp'] Hloop.
  injection H as <-. apply from_option_Ok in Hb, Hrw.
  exists b, rw, pc, pr, pp, pr', pp'. repeat (split; [done|]).
  split; [|done]. unfold pareto_arrays in Hinit. case_decide.
  - by injection Hinit as <- <- <-.
  - inv_bind Hinit as pc0 Hpc. inv_bind Hinit as pr0 Hpr.
    inv_bind Hinit as pp0 Hpp. injection Hinit as <- <- <-.
    by apply from_option_Ok in Hpc, Hpr, Hpp.
Qed.

(** [pareto_logger] at epoch 0: the arrays are created and filled from the
    batch of the call. *)
Lemma pareto_logger_reset self self' b rw :
  batch self = Some b -> R self = Some rw -> nonan rw ->
  epoch self = Some 0 ->
  pareto_logger self = Ok self' ->
  pareto_grid (10 * max_time_step b) self' /\
  forall pr i, pareto_rewards self' = Some pr ->
    (i < 10 * max_time_step b)%nat ->
    exists v, pr !! i = Some v /\
      bin_spec (rewards_with_complexity (Z.of_nat i)
                  (n_complexity (programs b)) rw) v.
Proof.
  intros Hb HR Hnn He H.
  apply pareto_logger_steps in H
    as (b' & rw' & pc & pr0 & pp0 & pr' & pp' & Hb' & HR' & Hinit & Hloop & ->).
  assert (b' = b) as -> by congruence. assert (rw' = rw) as -> by congruence.
  rewrite decide_True in Hinit by done. destruct Hinit as (-> & -> & ->).
  set (n := (10 * max_time_step b)%nat) in *.
  destruct (pareto_loop_spec b rw Hnn _ _ _ _ _ _ Hloop)
    as (Hl1 & Hl2 & _ & Hbins).
  rewrite arange_length in *. unfold Np.full in *.
  rewrite length_replicate in Hl1. rewrite length_replicate in Hl2.
  split.
  - exists pr', pp'. by repeat split.
  - intros pr i [= <-] Hi.
    destruct (Hbins i (Z.of_nat i) [] NaN) as (v & Hv & Hs).
    + by apply arange_lookup.
    + unfold Np.full. by apply lookup_replicate_2.
    + done.
    + exists v. by split.
Qed.

(** [pareto_logger] at another epoch: every bin takes the rewards of the
    batch into its maximum. *)
Lemma pareto_logger_update self self' b rw n :
  batch self = Some b -> R self = Some rw -> nonan rw ->
  epoch self <> Some 0 -> pareto_grid n self ->
  pareto_logger self = Ok self' ->
  pareto_grid n self' /\
  forall pr pr' i seen cur,
    pareto_rewards self = Some pr -> pareto_rewards self' = Some pr' ->
    (i < n)%nat -> pr !! i = Some cur -> bin_spec seen cur ->
    exists new, pr' !! i = Some new /\
      bin_spec (seen ++ rewards_with_complexity (Z.of_nat i)
                          (n_complexity (programs b)) rw) new.
Proof.
  intros Hb HR Hnn He (pr0 & pp0 & Hpc & Hpr & Hpp & Hl1 & Hl2) H.
  apply pareto_logger_steps in H
    as (b' & rw' & pc & pr1 & pp1 & pr' & pp' & Hb' & HR' & Hinit & Hloop & ->).
  assert (b' = b) as -> by congruence. assert (rw' = rw) as -> by congruence.
  rewrite decide_False in Hinit by done. destruct Hinit as (Hpc' & Hpr' & Hpp').
  assert (pc = Np.arange n) as -> by congruence.
  assert (pr1 = pr0) as -> by congruence.
  assert (pp1 = pp0) as -> by congruence.
  destruct (pareto_loop_spec b rw Hnn _ _ _ _ _ _ Hloop)
    as (Hl1' & Hl2' & _ & Hbins).
  split.
  - exists pr', pp'. repeat split; simpl; congruence.
  - intros pr pr2 i seen cur Hq1 [= <-] Hi Hcur Hspec.
    assert (pr = pr0) as -> by congruence.
    apply (Hbins i (Z.of_nat i) seen cur); [|done|done].
    by apply arange_lookup.
Qed.

Lemma since_reset_snoc cs c :
  since_reset (cs ++ [c])
  = if decide (call_epoch c = 0) then [c] else since_reset cs ++ [c].
Proof. unfold since_reset. by rewrite foldl_app. Qed.

Lemma rewards_at_snoc i cs c :
  rewards_at i (cs ++ [c]) = rewards_at i cs ++ call_rewards_at i c.
Proof.
  unfold rewards_at. rewrite fmap_app, concat_app. simpl.
  by rewrite app_nil_r.
Qed.

(** The state handed to [pareto_logger] by [log]. *)
Lemma log_call_pareto l fs c l' fs' :
  log_call (l, fs) c = Ok (l', fs') ->
  exists self1,
    batch self1 = Some (call_batch c) /\
    R self1 = Some (call_rewards c) /\
    epoch self1 = Some (call_epoch c) /\
    pareto_complexities self1 = pareto_complexities l /\
    pareto_rewards self1 = pareto_rewards l /\
    pareto_programs self1 = pareto_programs l /\
    pareto_logger self1 = Ok l'.
Proof.
  unfold log_call. simpl. intros H. apply log_inv in H
    as (idx & bp & h & hof & rk & m & row & Ra & Rta & lp & lu & H).
  destruct H as (_ & _ & _ & _ & _ & H & _).
  match type of H with pareto_logger ?s = _ => exists s end.
  by repeat split.
Qed.

(** After a run that contains a call with epoch 0, the Pareto arrays tell
    the calls since the most recent such call. *)
Lemma run_pareto_inv st0 cs st :
  rewards_nonan cs -> run st0 cs = Ok st ->
  forall c0 rest, since_reset cs = c0 :: rest -> call_epoch c0 = 0 ->
    pareto_inv (c0 :: rest) (10 * max_time_step (call_batch c0)) st.1.
Proof.
  revert st. induction cs as [|c cs IH] using rev_ind; [done|].
  intros [l' fs'] Hnn Hrun c0 rest Hsr He0.
  apply rewards_nonan_snoc in Hnn as [Hnn Hc].
  apply run_snoc in Hrun as ([l1 fs1] & Hrun & Hlog).
  apply log_call_pareto in Hlog
    as (self1 & Hb & HR & He & Hpc & Hpr & Hpp & Hpl).
  rewrite since_reset_snoc in Hsr. case_decide as Hz.
  - injection Hsr as <- <-. rewrite Hz in He.
    destruct (pareto_logger_reset _ _ _ _ Hb HR Hc He Hpl) as [Hg Hbins].
    split; [done|]. intros pr i Hpr' Hi.
    destruct (Hbins pr i Hpr' Hi) as (v & Hv & Hs). exists v. split; [done|].
    unfold rewards_at. simpl. by rewrite app_nil_r.
  - destruct (since_reset cs) as [|c1 rest1] eqn:Esr.
    { simpl in Hsr. injection Hsr as <- <-. done. }
    simpl in Hsr. injection Hsr as <- <-.
    destruct (IH (l1, fs1) Hnn Hrun c1 rest1 eq_refl He0) as [Hg Hinv].
    cbn [fst] in Hg, Hinv.
    assert (pareto_grid (10 * max_time_step (call_batch c1)) self1) as Hg1.
    { destruct Hg as (pr & pp & ? & ? & ? & ? & ?). exists pr, pp.
      repeat split; congruence. }
    assert (epoch self1 <> Some 0) as Hne by (rewrite He; congruence).
    destruct (pareto_logger_update _ _ _ _ _ Hb HR Hc Hne Hg1 Hpl)
      as [Hg' Hbins].
    split; [done|]. cbn [fst]. intros pr' i Hpr' Hi.
    destruct Hg as (pr & pp & _ & Hprl & _).
    destruct (Hinv pr i Hprl Hi) as (cur & Hcur & Hs).
    destruct (Hbins pr pr' i _ cur ltac:(congruence) Hpr' Hi Hcur Hs)
      as (new & Hnew & Hs').
    exists new. split; [done|].
    change (c1 :: rest1 ++ [c]) with ((c1 :: rest1) ++ [c]).
    by rewrite rewards_at_snoc.
Qed.

End ParetoFacts.

Module ParetoTheorems.

Import Float FloatFacts NpFacts RunLogger LogFacts ParetoFacts.

(** In a training loop no call after the first has epoch 0: the calls
    since the reset are all the calls. *)
Lemma since_reset_in_order cs : in_order cs -> since_reset cs = cs.
Proof.
  induction cs as [|c cs IH] using rev_ind; [done|].
  intros [Hord He]%BestFacts.in_order_snoc. rewrite since_reset_snoc, IH by done.
  case_decide as Hz; [|done].
  destruct cs; [done|]. simpl in He. lia.
Qed.

(** Claim C2, amended. After a returning sequence of calls of [log] with
    rewards that are numbers, in which [c0] is the most recent call with
    epoch 0 and [rest] the calls after it: the grid [pareto_complexities]
    is [0 .. 10 * max_time_step - 1] for the batch of [c0], and for every
    index [i] of the grid [pareto_rewards[i]] is the maximum reward of the
    programs of rounded complexity [i] in the calls [c0 :: rest], and NaN
    if there is none. Every call of [log], hence of [pareto_logger],
    re-establishes this, as the statement holds after every call. *)
Theorem pareto_rewards_since_reset st0 cs self fs c0 rest :
  rewards_nonan cs -> run st0 cs = Ok (self, fs) ->
  since_reset cs = c0 :: rest -> call_epoch c0 = 0 ->
  exists pr,
    pareto_complexities self
      = Some (Np.arange (10 * max_time_step (call_batch c0))) /\
    pareto_rewards self = Some pr /\
    length pr = (10 * max_time_step (call_batch c0))%nat /\
    forall i, (i < 10 * max_time_step (call_batch c0))%nat ->
      exists v, pr !! i = Some v /\
        bin_spec (rewards_at (Z.of_nat i) (c0 :: rest)) v.
Proof.
  intros Hnn Hrun Hsr He.
  destruct (run_pareto_inv st0 cs (self, fs) Hnn Hrun c0 rest Hsr He)
    as [(pr & pp & Hpc & Hpr & Hpp & Hl & _) Hbins].
  exists pr. repeat (split; [done|]). intros i Hi. by apply Hbins.
Qed.

Lemma pareto_rewards_since_reset_witness :
  rewards_nonan reset_calls /\
  run demo_init reset_calls = Ok (reset_final.1, reset_final.2) /\
  exists pr, pareto_rewards reset_final.1 = Some pr /\
    length pr = 10%nat /\
    forall i, (i < 10)%nat ->
      exists v, pr !! i = Some v /\
        bin_spec
          (rewards_at (Z.of_nat i)
             [demo_call 0 "r" [ratio 1 5; ratio 1 5; ratio 2 5] [2%nat]]) v.
Proof.
  assert (rewards_nonan reset_calls) as Hnn by (repeat constructor).
  assert (run demo_init reset_calls = Ok (reset_final.1, reset_final.2))
    as Hrun by (vm_compute; reflexivity).
  refine (conj Hnn (conj Hrun _)).
  destruct (pareto_rewards_since_reset demo_init reset_calls
              reset_final.1 reset_final.2
              (demo_call 0 "r" [ratio 1 5; ratio 1 5; ratio 2 5] [2%nat]) []
              Hnn Hrun eq_refl eq_refl)
    as (pr & _ & Hpr & Hl & Hbins).
  exists pr. exact (conj Hpr (conj Hl Hbins)).
Defined.

(** Claim C2 as it is stated fails when a call with epoch 0 comes again:
    the arrays are created anew, and the bin of complexity 1 holds 1/5
    although a program of complexity 1 was logged with reward 1/2. *)
Lemma pareto_rewards_all_calls_counterexample :
  head (call_epoch <$> reset_calls) = Some 0 /\
  rewards_nonan reset_calls /\
  run demo_init reset_calls = Ok reset_final /\
  ~ pareto_tells_all_calls reset_calls reset_final.1.
Proof.
  split; [reflexivity|]. split; [repeat constructor|].
  split; [vm_compute; reflexivity|].
  intros (pr & Hpr & Hall).
  assert ((pareto_rewards reset_final.1 ≫= (fun a => a !! 1%nat))
          = Some (ratio 1 5)) as Hbin by (vm_compute; reflexivity).
  rewrite Hpr in Hbin. simpl in Hbin.
  apply Hall in Hbin.
  assert (rewards_at (Z.of_nat 1) reset_calls
          = [ratio 1 2; ratio 1 5; ratio 1 5]) as Hseen
    by (vm_compute; reflexivity).
  rewrite Hseen in Hbin. destruct Hbin as [_ Hle].
  specialize (Hle (ratio 1 2) ltac:(left)).
  vm_compute in Hle. discriminate.
Qed.

End ParetoTheorems.

(** ** The extraction of the Pareto front *)

Module FrontFacts.

Import Float FloatFacts NpFacts RunLogger LogFacts.

Lemma sorted_lookup {A} (R : relation A) (l : list A) i j x y :
  StronglySorted R l -> l !! i = Some x -> l !! j = Some y ->
  (i < j)%nat -> R x y.
Proof.
  intros Hs. revert i j. induction Hs as [|a l Hs IH Hall]; intros i j Hi Hj Hlt.
  - by rewrite lookup_nil in Hi.
  - destruct j as [|j]; [lia|]. simpl in Hj. destruct i as [|i]; simpl in Hi.
    + injection Hi as <-. eapply (proj1 (Forall_forall _ _) Hall).
      by eapply list_elem_of_lookup_2.
    + apply (IH i j); [done|done|lia].
Qed.

Lemma select_subseteq {A} (a : list A) mask : Np.select a mask ⊆ a.
Proof.
  revert mask. induction a as [|x a IH]; intros [|[] mask]; simpl;
    try apply list_subseteq_nil.
  - intros y [->|Hy]%elem_of_cons; [left | right; by eapply IH].
  - intros y Hy. right. by eapply IH.
Qed.

Lemma select_sorted {A} (R : relation A) (a : list A) mask :
  StronglySorted R a -> StronglySorted R (Np.select a mask).
Proof.
  intros Hs. revert mask. induction Hs as [|x a Hs IH Hall]; intros mask.
  - destruct mask; constructor.
  - destruct mask as [|[] mask]; simpl; [constructor| |apply IH].
    constructor; [apply IH|]. apply Forall_forall. intros y Hy.
    apply (proj1 (Forall_forall _ _) Hall). by eapply select_subseteq.
Qed.

Lemma seq_sorted i n : StronglySorted Nat.lt (seq i n).
Proof.
  revert i. induction n as [|n IH]; intros i; simpl; constructor; [apply IH|].
  apply Forall_forall. intros j Hj. apply elem_of_seq in Hj. lia.
Qed.

Lemma arange_sorted n : StronglySorted Z.lt (Np.arange n).
Proof.
  unfold Np.arange. eapply StronglySorted_fmap; [|apply seq_sorted].
  intros x y Hxy. lia.
Qed.

(** Masking with a test on the array itself is filtering. *)
Lemma select_zip_filter {A} (f : float -> bool) (a : list A) (r : list float) :
  length a = length r ->
  zip (Np.select a (f <$> r)) (Np.select r (f <$> r))
  = filter (fun cr => f cr.2 = true) (zip a r).
Proof.
  revert r. induction a as [|x a IH]; intros [|y r] Hl; simpl in *;
    try done.
  rewrite filter_cons. simpl. destruct (f y) eqn:E.
  - rewrite decide_True by done. simpl. f_equal. apply IH. lia.
  - rewrite decide_False by congruence. apply IH. lia.
Qed.

Lemma select_valid (f : float -> bool) (r : list float) x :
  x ∈ Np.select r (f <$> r) <-> x ∈ r /\ f x = true.
Proof.
  induction r as [|y r IH]; simpl.
  - split; [by intros ?%elem_of_nil | by intros [?%elem_of_nil _]].
  - destruct (f y) eqn:E.
    + rewrite !elem_of_cons, IH. split.
      * intros [->|[? ?]]; auto.
      * intros [[->|?] ?]; auto.
    + rewrite elem_of_cons, IH. split.
      * intros [? ?]; auto.
      * intros [[->|?] ?]; [congruence | auto].
Qed.

(** ** The indices of the front *)

Lemma front_idx_range rs : forall i l j,
  j ∈ front_idx i rs l -> (i <= j < i + length rs)%nat.
Proof.
  induction rs as [|r rs IH]; intros i l j Hj; simpl in Hj.
  - by apply elem_of_nil in Hj.
  - destruct (gtb r l).
    + apply elem_of_cons in Hj as [->|Hj]; [simpl; lia|].
      apply IH in Hj. simpl. lia.
    + apply IH in Hj. simpl. lia.
Qed.

Lemma front_idx_sorted rs :
  forall i l, StronglySorted Nat.lt (front_idx i rs l).
Proof.
  induction rs as [|r rs IH]; intros i l; simpl; [constructor|].
  destruct (gtb r l); [|apply IH]. constructor; [apply IH|].
  apply Forall_forall. intros j Hj. apply front_idx_range in Hj. lia.
Qed.

(** An index is appended exactly when its reward exceeds the last reward
    of the front and the reward of every index appended before it. *)
Lemma front_idx_spec rv : forall rs i l k rk,
  rs = drop i rv -> (i <= k)%nat -> rv !! k = Some rk ->
  k ∈ front_idx i rs l <->
  gtb rk l = true /\
  forall j rj, j ∈ front_idx i rs l -> (j < k)%nat -> rv !! j = Some rj ->
               ltb rj rk = true.
Proof.
  induction rs as [|r rs IH]; intros i l k rk Hrs Hik Hk.
  - exfalso. apply lookup_lt_Some in Hk. apply (f_equal length) in Hrs.
    rewrite length_drop in Hrs. simpl in Hrs. lia.
  - assert (rv !! i = Some r /\ rs = drop (S i) rv) as [Hi Hrs'].
    { split.
      - rewrite <- (Nat.add_0_r i), <- lookup_drop. by rewrite <- Hrs.
      - replace (S i) with (i + 1)%nat by lia.
        by rewrite <- drop_drop, <- Hrs. }
    simpl. destruct (decide (k = i)) as [->|Hne].
    + assert (rk = r) as -> by congruence.
      destruct (gtb r l) eqn:E.
      * split; [|intros; left]. intros _. split; [done|].
        intros j rj [->|Hj]%elem_of_cons Hlt; [lia|].
        apply front_idx_range in Hj. lia.
      * split; [|by intros [? _]].
        intros Hj. apply front_idx_range in Hj. lia.
    + assert (S i <= k)%nat as Hik' by lia.
      destruct (gtb r l) eqn:E.
      * rewrite elem_of_cons, (IH (S i) r k rk Hrs' Hik' Hk). split.
        -- intros [->|[Hgt Hall]]; [done|]. split.
           ++ unfold gtb in *. by eapply ltb_trans.
           ++ intros j rj [->|Hj]%elem_of_cons Hlt Hrj.
              ** assert (rj = r) as -> by congruence. exact Hgt.
              ** by eapply Hall.
        -- intros [Hgt Hall]. right. split.
           ++ apply (Hall i r); [left | lia | done].
           ++ intros j rj Hj Hlt Hrj. apply (Hall j rj); [by right|done|done].
      * apply (IH (S i) l k rk Hrs' Hik' Hk).
Qed.

(** The rewards at the appended indices increase and exceed [l]. *)
Lemma front_idx_increasing rv : forall rs i l srs,
  rs = drop i rv -> Np.take rv (front_idx i rs l) = Ok srs ->
  StronglySorted Float.lt srs /\ Forall (fun r => ltb l r = true) srs.
Proof.
  induction rs as [|r rs IH]; intros i l srs Hrs H; simpl in H.
  - injection H as <-. split; constructor.
  - assert (rv !! i = Some r /\ rs = drop (S i) rv) as [Hi Hrs'].
    { split.
      - rewrite <- (Nat.add_0_r i), <- lookup_drop. by rewrite <- Hrs.
      - replace (S i) with (i + 1)%nat by lia.
        by rewrite <- drop_drop, <- Hrs. }
    destruct (gtb r l) eqn:E; [|by eapply IH].
    simpl in H. inv_bind H as x Hx. inv_bind H as xs Hxs. injection H as <-.
    apply item_Ok in Hx. assert (x = r) as -> by congruence.
    destruct (IH _ _ _ Hrs' Hxs) as [Hs Hall]. split.
    + by constructor.
    + constructor; [exact E|]. eapply Forall_impl; [exact Hall|].
      intros y Hy. simpl in Hy. by eapply ltb_trans.
Qed.

Lemma take_elem {A} (a : list A) idx xs x :
  Np.take a idx = Ok xs ->
  x ∈ xs <-> exists j, j ∈ idx /\ a !! j = Some x.
Proof.
  revert xs. induction idx as [|i idx IH]; intros xs H; simpl in H.
  - injection H as <-. split; [by intros ?%elem_of_nil|].
    by intros (j & ?%elem_of_nil & _).
  - inv_bind H as y Hy. inv_bind H as ys Hys. injection H as <-.
    apply item_Ok in Hy. rewrite elem_of_cons, (IH _ Hys). split.
    + intros [->|(j & Hj & Hx)]; [exists i | exists j]; split; auto;
        [left | by right].
    + intros (j & [->|Hj]%elem_of_cons & Hx); [left; congruence | right; eauto].
Qed.

Lemma take_zip_elem {A B} (a : list A) (b : list B) idx xs ys x y :
  Np.take a idx = Ok xs -> Np.take b idx = Ok ys ->
  (x, y) ∈ zip xs ys <->
  exists j, j ∈ idx /\ a !! j = Some x /\ b !! j = Some y.
Proof.
  revert xs ys. induction idx as [|i idx IH]; intros xs ys Ha Hb;
    simpl in Ha, Hb.
  - injection Ha as <-. split; [by intros ?%elem_of_nil|].
    by intros (j & ?%elem_of_nil & _).
  - inv_bind Ha as x0 Hx0. inv_bind Ha as xs0 Hxs0. injection Ha as <-.
    inv_bind Hb as y0 Hy0. inv_bind Hb as ys0 Hys0. injection Hb as <-.
    apply item_Ok in Hx0, Hy0. simpl.
    rewrite elem_of_cons, (IH _ _ Hxs0 Hys0). split.
    + intros [[= -> ->]|(j & Hj & Hx & Hy)]; [exists i | exists j];
        repeat split; auto; [left | by right].
    + intros (j & [->|Hj]%elem_of_cons & Hx & Hy);
        [left; congruence | right; eauto].
Qed.

Lemma take_sorted {A} (R : relation A) (a : list A) idx xs :
  StronglySorted Nat.lt idx -> StronglySorted R a ->
  Np.take a idx = Ok xs -> StronglySorted R xs.
Proof.
  intros Hidx Ha. revert xs.
  induction Hidx as [|i idx Hidx IH Hall]; intros xs H; simpl in H.
  - injection H as <-. constructor.
  - inv_bind H as y Hy. inv_bind H as ys Hys. injection H as <-.
    apply item_Ok in Hy. constructor; [by apply IH|].
    apply Forall_forall. intros z Hz.
    apply (take_elem _ _ _ _ Hys) in Hz as (j & Hj & Hz).
    eapply (sorted_lookup R a i j); eauto.
    by apply (proj1 (Forall_forall _ _) Hall).
Qed.

Lemma take_length {A} (a : list A) idx xs :
  Np.take a idx = Ok xs -> length xs = length idx.
Proof. intros H. by destruct (take_Ok _ _ _ H). Qed.

Lemma drop_cons_lookup {A} (rv : list A) i r rs :
  r :: rs = drop i rv -> rv !! i = Some r /\ rs = drop (S i) rv.
Proof.
  intros Hrs. split.
  - rewrite <- (Nat.add_0_r i), <- lookup_drop. by rewrite <- Hrs.
  - replace (S i) with (i + 1)%nat by lia. by rewrite <- drop_drop, <- Hrs.
Qed.

(** The loop of [get_pareto_front] appends the candidates of the indices
    [front_idx]. *)
Lemma front_loop_idx pv cv rv :
  length pv = length rv -> length cv = length rv ->
  forall rs i fr fp fc l, rs = drop i rv -> last fr = Some l ->
  exists srs sps scs,
    Np.take rv (front_idx i rs l) = Ok srs /\
    Np.take pv (front_idx i rs l) = Ok sps /\
    Np.take cv (front_idx i rs l) = Ok scs /\
    front_loop pv cv i rs (fr, fp, fc) = Ok (fr ++ srs, fp ++ sps, fc ++ scs).
Proof.
  intros Hlp Hlc. induction rs as [|r rs IH]; intros i fr fp fc l Hrs Hl.
  - exists [], [], []. simpl. by rewrite !app_nil_r.
  - apply drop_cons_lookup in Hrs as [Hi Hrs'].
    pose proof (lookup_lt_Some _ _ _ Hi) as Hlt.
    destruct (lookup_lt_is_Some_2 pv i ltac:(lia)) as [p Hp].
    destruct (lookup_lt_is_Some_2 cv i ltac:(lia)) as [c Hc].
    simpl. unfold item_last. rewrite Hl. simpl.
    destruct (gtb r l) eqn:E.
    + destruct (IH (S i) (fr ++ [r]) (fp ++ [p]) (fc ++ [c]) r Hrs'
                  (last_snoc _ _)) as (srs & sps & scs & H1 & H2 & H3 & H4).
      exists (r :: srs), (p :: sps), (c :: scs). simpl.
      unfold Np.item. rewrite Hi, Hp, Hc, H1, H2, H3. simpl.
      rewrite H4, <- !app_assoc. by repeat split.
    + by apply IH.
Qed.

(** [get_pareto_front] on a state whose Pareto arrays are over a grid. *)
Lemma get_pareto_front_grid self n pr pp b :
  pareto_complexities self = Some (Np.arange n) ->
  pareto_rewards self = Some pr -> pareto_programs self = Some pp ->
  length pr = n -> length pp = n -> batch self = Some b ->
  let mask := pareto_valid <$> pr in
  let rv := Np.select pr mask in
  (rv = [] /\ get_pareto_front self = Raise IndexError) \/
  (rv <> [] /\ exists fr fp fc,
     get_pareto_front self = Ok (fc, fp, fr, front_rmse_of b <$> fr) /\
     Np.take rv (front_indices rv) = Ok fr /\
     Np.take (Np.select pp mask) (front_indices rv) = Ok fp /\
     Np.take (Np.select (Np.arange n) mask) (front_indices rv) = Ok fc).
Proof.
  intros Hpc Hpr Hpp Hl1 Hl2 Hb mask rv.
  unfold get_pareto_front, attr. rewrite Hpc, Hpr, Hpp, Hb.
  cbn [from_option mbind result_bind]. fold mask.
  unfold Np.compress.
  rewrite !decide_True
    by (unfold mask; rewrite length_fmap, ?arange_length; lia).
  cbn [mbind result_bind]. fold rv.
  set (pv := Np.select pp mask). set (cv := Np.select (Np.arange n) mask).
  assert (length pv = length rv) as Hlp
    by (apply select_same_mask; lia).
  assert (length cv = length rv) as Hlc
    by (apply select_same_mask; rewrite arange_length; lia).
  destruct rv as [|r0 rv'] eqn:Erv; [by left|]. right. split; [done|].
  destruct pv as [|p0 pv'] eqn:Epv; [done|].
  destruct cv as [|c0 cv'] eqn:Ecv; [done|].
  cbn [Np.item lookup list_lookup from_option mbind result_bind].
  destruct (front_loop_idx (p0 :: pv') (c0 :: cv') (r0 :: rv') Hlp Hlc
              (r0 :: rv') 0%nat [r0] [p0] [c0] r0 eq_refl eq_refl)
    as (srs & sps & scs & H1 & H2 & H3 & H4).
  rewrite H4. cbn [mbind result_bind].
  exists (r0 :: srs), (p0 :: sps), (c0 :: scs). split; [done|].
  unfold front_indices.
  cbn [Np.take Np.item lookup list_lookup from_option mbind result_bind].
  by rewrite H1, H2, H3.
Qed.

Lemma front_idx_first r0 rv' : front_idx 0 (r0 :: rv') r0 = front_idx 1 rv' r0.
Proof. simpl. unfold gtb. by rewrite ltb_irrefl. Qed.

Lemma front_indices_sorted rv : StronglySorted Nat.lt (front_indices rv).
Proof.
  destruct rv as [|r0 rv']; [constructor|]. unfold front_indices.
  rewrite front_idx_first. constructor; [apply front_idx_sorted|].
  apply Forall_forall. intros j Hj. apply front_idx_range in Hj.
  unfold Nat.lt. lia.
Qed.

(** The front, on the lists of the candidates: [cv] their complexities and
    [rv] their rewards. *)
Lemma front_indices_spec (cv : list Z) (rv : list float) fc fr :
  length cv = length rv -> StronglySorted Z.lt cv ->
  Np.take rv (front_indices rv) = Ok fr ->
  Np.take cv (front_indices rv) = Ok fc ->
  rv <> [] ->
  StronglySorted Z.lt fc /\ StronglySorted Float.lt fr /\
  head (zip fc fr) = head (zip cv rv) /\
  (forall c r, (c, r) ∈ zip fc fr -> (c, r) ∈ zip cv rv) /\
  (forall k c r, zip cv rv !! k = Some (c, r) -> (0 < k)%nat ->
     (c, r) ∈ zip fc fr <->
     forall c' r', (c', r') ∈ zip fc fr -> c' < c -> ltb r' r = true).
Proof.
  intros Hlen Hcv Hfr Hfc Hne.
  destruct rv as [|r0 rv'] eqn:Erv; [done|]. rewrite <- Erv in *.
  destruct cv as [|c0 cv'] eqn:Ecv;
    [rewrite Erv in Hlen; done|]. rewrite <- Ecv in *.
  assert (front_indices rv = 0%nat :: front_idx 0 rv r0) as HJ
    by (by rewrite Erv).
  pose proof (front_indices_sorted rv) as HJs.
  assert (rv !! 0%nat = Some r0) as Hr0 by (by rewrite Erv).
  assert (cv !! 0%nat = Some c0) as Hc0 by (by rewrite Ecv).
  pose proof (fun c r => take_zip_elem cv rv _ fc fr c r Hfc Hfr) as Hmem.
  assert (forall j k cj ck, cv !! j = Some cj -> cv !! k = Some ck ->
            cj < ck -> (j < k)%nat) as Hinj.
  { intros j k cj ck Hj Hk Hlt. destruct (decide (j < k)%nat); [done|].
    destruct (decide (j = k)) as [->|]; [assert (cj = ck) by congruence; lia|].
    pose proof (sorted_lookup Z.lt cv k j ck cj Hcv Hk Hj ltac:(lia)). lia. }
  split; [by eapply take_sorted|]. split; [|split; [|split]].
  - rewrite HJ in Hfr. simpl in Hfr.
    inv_bind Hfr as x Hx. inv_bind Hfr as srs Hsrs. injection Hfr as <-.
    apply item_Ok in Hx. assert (x = r0) as -> by congruence.
    destruct (front_idx_increasing rv rv 0%nat r0 srs eq_refl Hsrs)
      as [Hs Hall].
    by constructor.
  - rewrite HJ in Hfr, Hfc. simpl in Hfr, Hfc.
    inv_bind Hfr as x Hx. inv_bind Hfr as srs Hsrs. injection Hfr as <-.
    inv_bind Hfc as y Hy. inv_bind Hfc as scs Hscs. injection Hfc as <-.
    apply item_Ok in Hx, Hy. rewrite Ecv, Erv. simpl.
    rewrite Ecv in Hy. rewrite Erv in Hx. simpl in Hx, Hy. congruence.
  - intros c r (j & Hj & Hc & Hr)%Hmem.
    eapply list_elem_of_lookup_2. apply lookup_zip_Some. eauto.
  - intros k c r [Hck Hrk]%lookup_zip_Some Hk.
    assert ((c, r) ∈ zip fc fr <-> k ∈ front_idx 0 rv r0) as ->.
    { rewrite Hmem, HJ. split.
      - intros (j & Hj & Hc & Hr).
        assert (j = k) as ->.
        { destruct (decide (j = k)); [done|]. exfalso.
          destruct (decide (j < k)%nat).
          - pose proof (sorted_lookup Z.lt cv j k c c Hcv Hc Hck ltac:(lia)).
            lia.
          - pose proof (sorted_lookup Z.lt cv k j c c Hcv Hck Hc ltac:(lia)).
            lia. }
        apply elem_of_cons in Hj as [->|Hj]; [lia|done].
      - intros Hj. exists k. split; [by right|done]. }
    rewrite (front_idx_spec rv rv 0%nat r0 k r eq_refl ltac:(lia) Hrk).
    split.
    + intros [Hgt Hall] c' r' (j & Hj & Hc' & Hr')%Hmem Hlt.
      pose proof (Hinj j k c' c Hc' Hck Hlt) as Hjk.
      rewrite HJ in Hj. apply elem_of_cons in Hj as [->|Hj].
      * assert (r' = r0) as -> by congruence. exact Hgt.
      * by apply (Hall j r').
    + intros Hall. split.
      * apply (Hall c0 r0).
        -- apply Hmem. exists 0%nat. rewrite HJ. split; [left|done].
        -- apply (sorted_lookup Z.lt cv 0%nat k c0 c Hcv Hc0 Hck Hk).
      * intros j rj Hj Hjk Hrj.
        destruct (lookup_lt_is_Some_2 cv j) as [cj Hcj].
        { apply lookup_lt_Some in Hrj. lia. }
        apply (Hall cj rj).
        -- apply Hmem. exists j. rewrite HJ. split; [by right|done].
        -- apply (sorted_lookup Z.lt cv j k cj c Hcv Hcj Hck Hjk).
Qed.

End FrontFacts.

(** ** The Pareto arrays keep their shape *)

Module GridFacts.

Import Float FloatFacts NpFacts RunLogger LogFacts ParetoFacts.

Lemma pareto_step_length b rw i c pr pp pr' pp' :
  pareto_step b rw i c (pr, pp) = Ok (pr', pp') ->
  length pr' = length pr /\ length pp' = length pp.
Proof.
  unfold pareto_step. case_decide as Hd; [|by intros [= <- <-]].
  intros H. inv_bind H as rs Hrs. inv_bind H as k Hk.
  inv_bind H as jmax Hjmax. inv_bind H as max_r Hmax_r.
  inv_bind H as cur Hcur.
  destruct (leb cur max_r || isnan cur); [|by injection H as <- <-].
  inv_bind H as p Hp. inv_bind H as pp2 Hpp2. inv_bind H as pr2 Hpr2.
  injection H as <- <-.
  apply setitem_Ok in Hpp2 as [-> _], Hpr2 as [-> _].
  by rewrite !length_insert.
Qed.

Lemma pareto_loop_length b rw cs : forall i pr pp pr' pp',
  pareto_loop b rw i cs (pr, pp) = Ok (pr', pp') ->
  length pr' = length pr /\ length pp' = length pp.
Proof.
  induction cs as [|c cs IH]; intros i pr pp pr' pp' H; simpl in H.
  - by injection H as <- <-.
  - inv_bind H as [pr1 pp1] Hstep.
    apply pareto_step_length in Hstep as [H1 H2].
    apply IH in H as [H3 H4]. split; congruence.
Qed.

Lemma pareto_logger_grid self self' :
  pareto_unset self \/ (exists n, pareto_grid n self) ->
  pareto_logger self = Ok self' ->
  (exists n, pareto_grid n self') /\ batch self' = batch self /\
  is_Some (batch self).
Proof.
  intros Hpre H.
  apply pareto_logger_steps in H
    as (b & rw & pc & pr & pp & pr' & pp' & Hb & HR & Hinit & Hloop & ->).
  apply pareto_loop_length in Hloop as [Hl1 Hl2].
  split; [|split; [done | by rewrite Hb]].
  case_decide as Hd.
  - destruct Hinit as (-> & -> & ->). exists (10 * max_time_step b)%nat.
    rewrite arange_length in *. unfold Np.full in *.
    rewrite length_replicate in Hl1. rewrite length_replicate in Hl2.
    exists pr', pp'. by repeat split.
  - destruct Hinit as (Hpc & Hpr & Hpp).
    destruct Hpre as [(Hu & _)|(n & pr0 & pp0 & Hpc0 & Hpr0 & Hpp0 & Hn1 & Hn2)];
      [congruence|].
    exists n, pr', pp'. simpl.
    repeat split; congruence.
Qed.

Lemma pareto_logger_grid_reset self self' :
  epoch self = Some 0 -> pareto_logger self = Ok self' ->
  exists n, pareto_grid n self'.
Proof.
  intros He H.
  apply pareto_logger_steps in H
    as (b & rw & pc & pr & pp & pr' & pp' & Hb & HR & Hinit & Hloop & ->).
  apply pareto_loop_length in Hloop as [Hl1 Hl2].
  rewrite decide_True in Hinit by done. destruct Hinit as (-> & -> & ->).
  exists (10 * max_time_step b)%nat.
  rewrite arange_length in *. unfold Np.full in *.
  rewrite length_replicate in Hl1. rewrite length_replicate in Hl2.
  exists pr', pp'. by repeat split.
Qed.

Lemma log_call_grid l fs c l' fs' :
  pareto_unset l \/ (exists n, pareto_grid n l) ->
  log_call (l, fs) c = Ok (l', fs') ->
  (exists n, pareto_grid n l') /\ batch l' = Some (call_batch c).
Proof.
  intros Hpre H.
  apply log_call_pareto in H
    as (self1 & Hb & HR & He & Hpc & Hpr & Hpp & Hpl).
  destruct (pareto_logger_grid self1 l') as (Hg & Hb' & _); [|done|].
  - destruct Hpre
      as [(H1 & H2 & H3)|(n & pr & pp & H1 & H2 & H3 & H4 & H5)].
    + left. unfold pareto_unset. repeat split; congruence.
    + right. exists n, pr, pp. repeat split; congruence.
  - split; [done | congruence].
Qed.

(** After at least one call from a fresh logger, the arrays exist. *)
Lemma run_grid st0 cs st :
  pareto_unset st0.1 \/ (exists n, pareto_grid n st0.1) ->
  cs <> [] -> run st0 cs = Ok st ->
  (exists n, pareto_grid n st.1) /\ exists b, batch st.1 = Some b.
Proof.
  revert st. induction cs as [|c cs IH] using rev_ind; [done|].
  intros [l' fs'] Hpre _ Hrun.
  apply run_snoc in Hrun as ([l1 fs1] & Hrun & Hlog).
  destruct (log_call_grid l1 fs1 c l' fs') as [Hg Hb]; [|done|by eauto].
  destruct cs as [|c0 cs'].
  - simpl in Hrun. by injection Hrun as ->.
  - right. by destruct (IH (l1, fs1) Hpre ltac:(done) Hrun).
Qed.

Lemma init_unset path save : pareto_unset (RunLogger.init path save).
Proof. by repeat split. Qed.

End GridFacts.

Module FrontTheorems.

Import Float FloatFacts NpFacts RunLogger LogFacts ParetoFacts FrontFacts
       GridFacts.

(** [get_pareto_front] on the states that the calls of [log] reach from a
    fresh logger. *)
Lemma get_pareto_front_reached path save fs0 cs self fs :
  run (RunLogger.init path save, fs0) cs = Ok (self, fs) -> cs <> [] ->
  exists n pr pp b,
    pareto_complexities self = Some (Np.arange n) /\
    pareto_rewards self = Some pr /\ pareto_programs self = Some pp /\
    length pr = n /\ length pp = n /\ batch self = Some b /\
    let mask := pareto_valid <$> pr in
    let rv := Np.select pr mask in
    (rv = [] /\ get_pareto_front self = Raise IndexError) \/
    (rv <> [] /\ exists fr fp fc,
       get_pareto_front self = Ok (fc, fp, fr, front_rmse_of b <$> fr) /\
       Np.take rv (front_indices rv) = Ok fr /\
       Np.take (Np.select pp mask) (front_indices rv) = Ok fp /\
       Np.take (Np.select (Np.arange n) mask) (front_indices rv) = Ok fc).
Proof.
  intros Hrun Hne.
  destruct (run_grid (RunLogger.init path save, fs0) cs (self, fs)
              (or_introl (init_unset path save)) Hne Hrun)
    as [(n & pr & pp & Hpc & Hpr & Hpp & Hl1 & Hl2) (b & Hb)].
  simpl in *. exists n, pr, pp, b. repeat (split; [done|]).
  by apply get_pareto_front_grid.
Qed.

(** Claim C3. When [get_pareto_front] returns, in a state reached by calls
    of [log] from a fresh logger: the four arrays have one length, the
    complexities and the rewards of the front are strictly increasing, the
    front is made of candidates (bins whose reward is not NaN and exceeds
    0), its first element is the first candidate, and a further candidate
    is in the front exactly when its reward strictly exceeds the reward of
    every element of the front of smaller complexity. *)
Theorem get_pareto_front_spec path save fs0 cs self fs fc fp fr rmse :
  run (RunLogger.init path save, fs0) cs = Ok (self, fs) ->
  get_pareto_front self = Ok (fc, fp, fr, rmse) ->
  exists pc pr,
    pareto_complexities self = Some pc /\ pareto_rewards self = Some pr /\
    length fp = length fc /\ length fr = length fc /\
    length rmse = length fc /\
    StronglySorted Z.lt fc /\ StronglySorted Float.lt fr /\
    pareto_candidates pc pr <> [] /\
    head (zip fc fr) = head (pareto_candidates pc pr) /\
    (forall c r, (c, r) ∈ zip fc fr -> (c, r) ∈ pareto_candidates pc pr) /\
    (forall k c r, pareto_candidates pc pr !! k = Some (c, r) -> (0 < k)%nat ->
       (c, r) ∈ zip fc fr <->
       forall c' r', (c', r') ∈ zip fc fr -> c' < c -> ltb r' r = true).
Proof.
  intros Hrun Hfront.
  assert (cs <> []) as Hne.
  { intros ->. simpl in Hrun. injection Hrun as <- <-. discriminate. }
  destruct (get_pareto_front_reached _ _ _ _ _ _ Hrun Hne)
    as (n & pr & pp & b & Hpc & Hpr & Hpp & Hl1 & Hl2 & Hb & Hcases).
  cbv zeta in Hcases.
  destruct Hcases as [[_ Hraise]|(Hrv & fr' & fp' & fc' & Hok & Hfr & Hfp & Hfc)];
    [congruence|].
  rewrite Hok in Hfront. injection Hfront as <- <- <- <-.
  exists (Np.arange n), pr. split; [done|]. split; [done|].
  unfold pareto_candidates.
  rewrite <- (select_zip_filter pareto_valid (Np.arange n) pr)
    by (by rewrite arange_length).
  set (mask := pareto_valid <$> pr) in *.
  set (rv := Np.select pr mask) in *.
  set (cv := Np.select (Np.arange n) mask) in *.
  assert (length cv = length rv) as Hlen
    by (apply select_same_mask; by rewrite arange_length).
  assert (StronglySorted Z.lt cv) as Hcv
    by (apply select_sorted, arange_sorted).
  rewrite (take_length _ _ _ Hfr), (take_length _ _ _ Hfp),
    (take_length _ _ _ Hfc), length_fmap, (take_length _ _ _ Hfr).
  repeat (split; [done|]).
  destruct (front_indices_spec cv rv fc' fr' Hlen Hcv Hfr Hfc Hrv)
    as (Hsc & Hsr & Hrest).
  split; [done|]. split; [done|]. split; [|done].
  destruct rv, cv; done.
Qed.

Lemma get_pareto_front_spec_witness :
  run (RunLogger.init (Some "run_log.csv"%string) true, ∅) demo_calls
    = Ok (demo_final.1, demo_final.2) /\
  get_pareto_front demo_final.1
    = Ok ([1; 3], [Some (mkProgram 0 "pa"); Some (mkProgram 2 "qc")],
          [ratio 1 2; ratio 9 10],
          front_rmse_of (demo_batch "r") <$> [ratio 1 2; ratio 9 10]) /\
  StronglySorted Z.lt [1; 3] /\
  StronglySorted Float.lt [ratio 1 2; ratio 9 10].
Proof.
  assert (get_pareto_front demo_final.1
    = Ok ([1; 3], [Some (mkProgram 0 "pa"); Some (mkProgram 2 "qc")],
          [ratio 1 2; ratio 9 10],
          front_rmse_of (demo_batch "r") <$> [ratio 1 2; ratio 9 10]))
    as Hfront by (vm_compute; reflexivity).
  refine (conj DemoFacts.demo_run_pair (conj Hfront _)).
  destruct (get_pareto_front_spec _ _ _ _ _ _ _ _ _ _
              DemoFacts.demo_run_pair Hfront)
    as (pc & pr & _ & _ & _ & _ & _ & Hc & Hr & _).
  exact (conj Hc Hr).
Defined.

Lemma select_nil_iff (f : float -> bool) (r : list float) :
  Np.select r (f <$> r) = [] <-> forall x, x ∈ r -> f x = false.
Proof.
  split.
  - intros Hnil x Hx. destruct (f x) eqn:E; [|done].
    assert (x ∈ Np.select r (f <$> r)) as Hin by (by apply select_valid).
    rewrite Hnil in Hin. by apply elem_of_nil in Hin.
  - intros Hall. destruct (Np.select r (f <$> r)) as [|x l] eqn:E; [done|].
    assert (x ∈ Np.select r (f <$> r)) as Hin by (rewrite E; left).
    apply select_valid in Hin as [Hin Hf]. rewrite (Hall x Hin) in Hf. done.
Qed.

(** Claim C8, amended. In a state reached by calls of [log] from a fresh
    logger: before the first call [get_pareto_front] raises an
    AttributeError, as the arrays do not exist; after it,
    [get_pareto_front] raises an IndexError exactly when no bin of
    [pareto_rewards] holds a reward that is not NaN and greater than 0, and
    returns exactly when some bin does; and it returns whenever a program
    with a reward greater than 0 and a rounded complexity inside the grid
    was logged since the most recent call with epoch 0, provided no
    logged reward is NaN. *)
Theorem get_pareto_front_fails_iff path save fs0 cs self fs :
  run (RunLogger.init path save, fs0) cs = Ok (self, fs) ->
  (cs = [] -> get_pareto_front self = Raise AttributeError) /\
  (cs <> [] -> exists pr, pareto_rewards self = Some pr /\
     (get_pareto_front self = Raise IndexError <->
      forall r, r ∈ pr -> pareto_valid r = false) /\
     (is_ok (get_pareto_front self) = true <->
      exists r, r ∈ pr /\ pareto_valid r = true)) /\
  (forall c0 rest i r,
     rewards_nonan cs -> since_reset cs = c0 :: rest -> call_epoch c0 = 0 ->
     (i < 10 * max_time_step (call_batch c0))%nat ->
     r ∈ rewards_at (Z.of_nat i) (c0 :: rest) ->
     ltb (of_Z 0) r = true ->
     is_ok (get_pareto_front self) = true).
Proof.
  intros Hrun.
  assert (cs <> [] -> exists pr, pareto_rewards self = Some pr /\
     (get_pareto_front self = Raise IndexError <->
      forall r, r ∈ pr -> pareto_valid r = false) /\
     (is_ok (get_pareto_front self) = true <->
      exists r, r ∈ pr /\ pareto_valid r = true)) as Hiff.
  { intros Hne.
    destruct (get_pareto_front_reached _ _ _ _ _ _ Hrun Hne)
      as (n & pr & pp & b & Hpc & Hpr & Hpp & Hl1 & Hl2 & Hb & Hcases).
    cbv zeta in Hcases. exists pr. split; [done|].
    destruct Hcases as [[Hnil ->]|(Hrv & fr & fp & fc & -> & _)].
    - pose proof (proj1 (select_nil_iff pareto_valid pr) Hnil) as Hall.
      split; [by split|]. simpl. split; [done|].
      intros (r & Hr & Hv). by rewrite (Hall r Hr) in Hv.
    - split.
      + split; [done|]. intros Hall. exfalso. apply Hrv.
        by apply select_nil_iff.
      + simpl. split; [|done]. intros _.
        destruct (Np.select pr (pareto_valid <$> pr)) as [|x l] eqn:E; [done|].
        exists x. apply (select_valid pareto_valid pr x). rewrite E. left. }
  split; [|split; [exact Hiff|]].
  - intros ->. simpl in Hrun. by injection Hrun as <- <-.
  - intros c0 rest i r Hnn Hsr He Hi Hseen Hpos.
    assert (cs <> []) as Hne by (intros ->; discriminate).
    destruct (Hiff Hne) as (pr & Hpr & _ & Hok). apply Hok.
    destruct (run_pareto_inv _ cs (self, fs) Hnn Hrun c0 rest Hsr He)
      as [_ Hbins].
    destruct (Hbins pr i Hpr Hi) as (v & Hv & Hspec).
    exists v. split; [by eapply list_elem_of_lookup_2|].
    destruct (rewards_at (Z.of_nat i) (c0 :: rest)) as [|s seen] eqn:E;
      [by apply elem_of_nil in Hseen|].
    destruct Hspec as [_ Hle]. specialize (Hle r Hseen).
    unfold pareto_valid, gtb.
    rewrite (ltb_leb_trans _ _ _ Hpos Hle).
    by destruct (leb_nonan _ _ Hle) as [_ ->].
Qed.

Lemma get_pareto_front_fails_iff_witness :
  run (RunLogger.init (Some "run_log.csv"%string) true, ∅) demo_calls
    = Ok (demo_final.1, demo_final.2) /\
  is_ok (get_pareto_front demo_final.1) = true.
Proof.
  refine (conj DemoFacts.demo_run_pair _).
  destruct (get_pareto_front_fails_iff _ _ _ _ _ _ DemoFacts.demo_run_pair)
    as (_ & _ & H).
  apply (H (demo_call 0 "p" [ratio 1 2; ratio 1 3; ratio 1 4] [0%nat])
           (tail demo_calls) 1%nat (ratio 1 2)).
  - repeat constructor.
  - reflexivity.
  - reflexivity.
  - simpl. lia.
  - vm_compute. left.
  - reflexivity.
Defined.

(** Claim C8 as it is stated fails for a program whose complexity is
    outside the grid: a program with reward 1/2 was logged, and
    [get_pareto_front] raises. *)
Lemma get_pareto_front_offgrid_counterexample :
  run demo_init offgrid_calls = Ok offgrid_final /\
  logged_with offgrid_calls offgrid_program (ratio 1 2) /\
  ltb (of_Z 0) (ratio 1 2) = true /\
  get_pareto_front offgrid_final.1 = Raise IndexError.
Proof.
  split; [vm_compute; reflexivity|]. split; [|split].
  - eexists _, 0%nat. split; [left|]. split; reflexivity.
  - reflexivity.
  - vm_compute. reflexivity.
Qed.

(** A NaN reward in the batch hides the other programs of its
    complexity: the rewards NaN and 1/2 at complexity 1 leave every bin at
    NaN, and [get_pareto_front] raises although a reward above 0 was
    logged inside the grid. *)
Lemma get_pareto_front_nan_example :
  run demo_init nan_bin_calls = Ok nan_bin_final /\
  logged_in_bin nan_bin_calls 1 (mkProgram 1 "y") (ratio 1 2) /\
  ltb (of_Z 0) (ratio 1 2) = true /\
  get_pareto_front nan_bin_final.1 = Raise IndexError.
Proof.
  split; [vm_compute; reflexivity|]. split.
  { eexists _, 1%nat, (ratio 1 1). split; [left|].
    repeat split; try reflexivity. }
  split; [reflexivity|]. vm_compute. reflexivity.
Qed.

End FrontTheorems.

(** ** The CSV log *)

Module CsvFacts.

Import Float NpFacts RunLogger LogFacts.

Lemma column_Ok {A} n (col c : list A) :
  column n col = Ok c -> c = col /\ length col = n.
Proof. unfold column. case_decide; [|done]. by intros [= <-]. Qed.

(** [a[idx] = v]: the indices must be in range, and exactly they hold
    [v] afterwards. *)
Lemma put_spec {A} (v : A) idx : forall a a',
  Np.put a idx v = Ok a' ->
  length a' = length a /\
  (forall i, i ∈ idx -> (i < length a)%nat) /\
  (forall i, i ∈ idx -> (i < length a)%nat -> a' !! i = Some v) /\
  (forall i, i ∉ idx -> a' !! i = a !! i).
Proof.
  induction idx as [|j idx IH]; intros a a' H; simpl in H.
  - injection H as <-. split; [done|]. split; [by intros i ?%elem_of_nil|].
    split; [by intros i ?%elem_of_nil|done].
  - case_decide as Hj; [|done].
    destruct (IH _ _ H) as (Hl & Hr & Hin & Hout).
    rewrite length_insert in Hl, Hr, Hin. split; [done|]. split; [|split].
    + intros i [->|Hi]%elem_of_cons; auto.
    + intros i Hi Hlt. destruct (decide (i ∈ idx)) as [Hi'|Hi']; [auto|].
      apply elem_of_cons in Hi as [->|Hi]; [|done].
      rewrite Hout by done. by apply list_lookup_insert_eq.
    + intros i Hi. apply not_elem_of_cons in Hi as [Hne Hi].
      rewrite Hout by done. by apply list_lookup_insert_ne.
Qed.

Lemma frame_rows_length n ep : forall rw cx ln ph el ps,
  length ep = n -> length rw = n -> length cx = n -> length ln = n ->
  length ph = n -> length el = n -> length ps = n ->
  length (frame_rows ep rw cx ln ph el ps) = n.
Proof.
  revert n. induction ep as [|e ep IH];
    intros n [|r rw] [|c cx] [|l ln] [|p ph] [|b el] [|s ps];
    simpl; intros; try lia.
  destruct n; [lia|]. f_equal. apply IH; lia.
Qed.

Lemma frame_rows_lookup ep : forall rw cx ln ph el ps i e r c l p b s,
  ep !! i = Some e -> rw !! i = Some r -> cx !! i = Some c ->
  ln !! i = Some l -> ph !! i = Some p -> el !! i = Some b ->
  ps !! i = Some s ->
  frame_rows ep rw cx ln ph el ps !! i = Some (mkLogRow e r c l p b s).
Proof.
  induction ep as [|e0 ep IH];
    intros [|r0 rw] [|c0 cx] [|l0 ln] [|p0 ph] [|b0 el] [|s0 ps] i;
    intros e r c l p b s; try (by rewrite ?lookup_nil).
  destruct i as [|i]; simpl.
  - by intros [= ->] [= ->] [= ->] [= ->] [= ->] [= ->] [= ->].
  - apply IH.
Qed.

(** [save_log]: the file at [save_path] after the call. *)
Lemma save_log_spec self fs fs' path e b k r :
  save_path self = Some path -> epoch self = Some e ->
  batch self = Some b -> keep self = Some k -> R self = Some r ->
  save_log self fs = Ok fs' ->
  exists rows,
    length rows = batch_size b /\
    fs' = <[path := (if decide (e = 0) then [Header log_columns]
                     else default [] (fs !! path)) ++ (Row <$> rows)]> fs /\
    forall i, (i < batch_size b)%nat ->
      exists rw cx ln ph p,
        r !! i = Some rw /\
        n_complexity (programs b) !! i = Some cx /\
        n_lengths (programs b) !! i = Some ln /\
        is_physical (programs b) !! i = Some ph /\
        progs (programs b) !! i = Some p /\
        rows !! i
          = Some (mkLogRow e rw cx ln ph (bool_decide (i ∈ k))
                    (get_infix_str p)).
Proof.
  intros Hpath He Hb Hk HR. unfold save_log, attr.
  rewrite Hpath, He, Hb, Hk, HR. cbn [from_option mbind result_bind].
  intros H. inv_bind H as el Hel.
  inv_bind H as c1 H1. inv_bind H as c2 H2. inv_bind H as c3 H3.
  inv_bind H as c4 H4. inv_bind H as c5 H5. inv_bind H as c6 H6.
  inv_bind H as c7 H7. injection H as <-.
  apply column_Ok in H1 as [-> L1], H2 as [-> L2], H3 as [-> L3],
    H4 as [-> L4], H5 as [-> L5], H6 as [-> L6], H7 as [-> L7].
  set (n := batch_size b) in *.
  destruct (put_spec true k _ _ Hel) as (Hlen & Hrange & Hin & Hout).
  unfold Np.full in *. rewrite length_replicate in Hlen, Hrange, Hin.
  exists (frame_rows (replicate n e) r (n_complexity (programs b))
            (n_lengths (programs b)) (is_physical (programs b)) el
            (get_infix_str <$> get_programs_array (programs b))).
  split; [by apply frame_rows_length|]. split.
  - unfold to_csv_a, to_csv_w. case_decide as Hz.
    + injection Hz as ->. rewrite decide_True by done.
      rewrite lookup_insert_eq. simpl. by rewrite insert_insert_eq.
    + rewrite decide_False by congruence. done.
  - intros i Hi.
    destruct (lookup_lt_is_Some_2 r i ltac:(lia)) as [rw Hrw].
    destruct (lookup_lt_is_Some_2 (n_complexity (programs b)) i ltac:(lia))
      as [cx Hcx].
    destruct (lookup_lt_is_Some_2 (n_lengths (programs b)) i ltac:(lia))
      as [ln Hln].
    destruct (lookup_lt_is_Some_2 (is_physical (programs b)) i ltac:(lia))
      as [ph Hph].
    rewrite length_fmap in L7.
    destruct (lookup_lt_is_Some_2 (progs (programs b)) i
                ltac:(unfold get_programs_array in L7; lia)) as [p Hp].
    exists rw, cx, ln, ph, p. repeat (split; [done|]).
    apply frame_rows_lookup; try done.
    + by apply lookup_replicate_2.
    + case_bool_decide as Hik.
      * by apply Hin.
      * rewrite Hout by done. by apply lookup_replicate_2.
    + rewrite list_lookup_fmap. unfold get_programs_array. by rewrite Hp.
Qed.

(** Claim C4. With [do_save] true and a path in [save_path], a call of
    [log] that returns leaves in the file at [save_path] what it held
    before (on the call with epoch 0: only the header row, with the seven
    column names) followed by exactly [batch_size] rows, one per program of
    the batch in order, each with the epoch, the reward, the complexity,
    the length, the physical flag and the infix string of its program, and
    with [is_elite] true exactly when the index of the program is in
    [keep]. *)
Theorem log_appends_csv_rows self fs e b r k nk lv self' fs' path :
  do_save self = true -> save_path self = Some path ->
  log self fs e b r k nk lv = Ok (self', fs') ->
  exists rows,
    length rows = batch_size b /\
    fs' !! path
      = Some ((if decide (e = 0) then [Header log_columns]
               else default [] (fs !! path)) ++ (Row <$> rows)) /\
    log_columns
      = ["epoch"; "reward"; "complexity"; "length"; "is_physical";
         "is_elite"; "program"]%string /\
    forall i, (i < batch_size b)%nat ->
      exists row p,
        rows !! i = Some row /\ progs (programs b) !! i = Some p /\
        row_epoch row = e /\
        r !! i = Some (row_reward row) /\
        n_complexity (programs b) !! i = Some (row_complexity row) /\
        n_lengths (programs b) !! i = Some (row_length row) /\
        is_physical (programs b) !! i = Some (row_is_physical row) /\
        row_program row = get_infix_str p /\
        (row_is_elite row = true <-> i ∈ k).
Proof.
  intros Hsave Hpath H. apply log_inv in H
    as (idx & bp & h & hof & rk & m & row & Ra & Rta & lp & lu & H).
  destruct H as (_ & _ & _ & _ & _ & Hpl & Hlog). rewrite Hsave in Hlog.
  destruct (pareto_logger_inv _ _ Hpl) as (pc & pr & pp & ->).
  match type of Hlog with
  | save_log ?s _ = _ =>
      destruct (save_log_spec s fs fs' path e b k r Hpath eq_refl eq_refl
                  eq_refl eq_refl Hlog) as (rows & Hlen & -> & Hrows)
  end.
  exists rows. split; [done|]. split; [by rewrite lookup_insert_eq|].
  split; [done|]. intros i Hi.
  destruct (Hrows i Hi) as (rw & cx & ln & ph & p & ? & ? & ? & ? & ? & Hrow).
  eexists _, p. split; [exact Hrow|]. simpl. repeat (split; [done|]).
  apply bool_decide_eq_true.
Qed.

Lemma log_appends_csv_rows_witness :
  log demo_init.1 demo_init.2 0 (demo_batch "p")
      [ratio 1 2; ratio 1 3; ratio 1 4] [0%nat] [] (ratio 1 10)
    = Ok (demo_first.1, demo_first.2) /\
  exists rows, length rows = 3%nat /\
    demo_first.2 !! "run_log.csv"%string
      = Some ([Header log_columns] ++ (Row <$> rows)).
Proof.
  assert (log demo_init.1 demo_init.2 0 (demo_batch "p")
            [ratio 1 2; ratio 1 3; ratio 1 4] [0%nat] [] (ratio 1 10)
          = Ok (demo_first.1, demo_first.2)) as Hlog
    by (vm_compute; reflexivity).
  refine (conj Hlog _).
  destruct (log_appends_csv_rows demo_init.1 demo_init.2 0 (demo_batch "p")
              [ratio 1 2; ratio 1 3; ratio 1 4] [0%nat] [] (ratio 1 10)
              demo_first.1 demo_first.2 "run_log.csv"%string
              eq_refl eq_refl Hlog) as (rows & Hlen & Hfile & _).
  exists rows. exact (conj Hlen Hfile).
Defined.

End CsvFacts.

(** ** The visualiser *)

Module VisualiserTheorems.

Import RunVisualiser.

(** Claim C9. [RunVisualiser(save_path = None)] raises, whatever the
    refresh rate and the flags [do_show] and [do_save] are: the path of
    the log is computed from [save_path] unconditionally. *)
Theorem init_without_save_path_raises :
  forall (rate : Z) (show save : bool),
    RunVisualiser.init rate None show save = Raise AttributeError.
Proof. reflexivity. Qed.

Lemma render_spec env self t e :
  render env self = (t, e) ->
  (EvMakeVisualisation ∈ t <-> do_show self = true) /\
  (EvSaveVisualisation ∈ t <->
   do_save self = true /\
   (do_show self = true -> make_visualisation_raises env = None)) /\
  (EvInitialize ∉ t) /\ (forall msg, EvPrint msg ∉ t) /\
  (is_Some e <-> rendering_raises env self).
Proof.
  unfold render, rendering_raises.
  destruct (do_show self), (make_visualisation_raises env) as [em|],
    (do_save self), (save_visualisation_raises env) as [es|];
    simpl; intros [Ht He]%pair_equal_spec; subst t e; rewrite ?is_Some_alt;
    (split; [|split; [|split; [|split]]]);
    rewrite ?elem_of_cons, ?elem_of_nil;
    try (intros msg; rewrite ?elem_of_cons, ?elem_of_nil);
    intuition (discriminate || congruence).
Qed.

Lemma render_ext env s1 s2 :
  do_show s1 = do_show s2 -> do_save s1 = do_save s2 ->
  render env s1 = render env s2.
Proof. unfold render. by intros -> ->. Qed.

(** [visualise] when the logger has logged, the refresh rate is not 0 and
    the creation of the figure does not raise. *)
Lemma visualise_eq env self rl b ep :
  epoch rl = Some ep -> epoch_refresh_rate self <> 0 ->
  (ep = 0 -> initialize_raises env = None) ->
  visualise env self rl b
  = let s := if decide (ep = 0)
             then set_fig (set_refs self rl b) (mkFigure (figsize self))
             else set_refs self rl b in
    let t0 := if decide (ep = 0) then [EvInitialize] else [] in
    if decide (ep `mod` epoch_refresh_rate self = 0) then
      mkOutcome s
        (t0 ++ (render env self).1
            ++ match (render env self).2 with
               | Some _ => [EvPrint unable_msg]
               | None => []
               end)
        None
    else mkOutcome s t0 None.
Proof.
  intros He Hrate Hinit. unfold visualise. rewrite He.
  destruct (decide (ep = 0)) as [->|Hep].
  - rewrite decide_True by done. unfold initialize.
    rewrite Hinit by done. cbn [raised self' trace].
    rewrite decide_False by done. rewrite decide_True by done.
    cbv zeta. rewrite decide_True by done.
    rewrite (render_ext env _ self) by done.
    destruct (render env self) as [t [e|]]; simpl;
      by rewrite ?app_nil_r.
  - rewrite decide_False by congruence. cbn [raised self' trace].
    rewrite decide_False by done. cbv zeta.
    rewrite (render_ext env _ self) by done.
    case_decide; [|done].
    destruct (render env self) as [t [e|]]; simpl;
      by rewrite ?app_nil_r.
Qed.

(** Claim C5, amended. For a logger that has logged, a refresh rate that
    is not 0 and a figure whose creation does not raise, [visualise]
    returns and stores the two references; the figure is created exactly
    at epoch 0; at an epoch that is no multiple of the refresh rate
    nothing is drawn, saved or printed and nothing but the references is
    stored; at a multiple [make_visualisation] is called exactly when
    [do_show] is set, and [save_visualisation] exactly when [do_save] is
    set and [make_visualisation] was not called or did not raise. *)
Theorem visualise_refresh env self rl b ep :
  epoch rl = Some ep -> epoch_refresh_rate self <> 0 ->
  (ep = 0 -> initialize_raises env = None) ->
  let o := visualise env self rl b in
  raised o = None /\
  run_logger (self' o) = Some rl /\ batch (self' o) = Some b /\
  (EvInitialize ∈ trace o <-> ep = 0) /\
  (ep `mod` epoch_refresh_rate self = 0 <-> (epoch_refresh_rate self | ep)) /\
  (ep `mod` epoch_refresh_rate self <> 0 ->
     trace o = [] /\ self' o = set_refs self rl b) /\
  (ep `mod` epoch_refresh_rate self = 0 ->
     (EvMakeVisualisation ∈ trace o <-> do_show self = true) /\
     (EvSaveVisualisation ∈ trace o <->
      do_save self = true /\
      (do_show self = true -> make_visualisation_raises env = None))).
Proof.
  intros He Hrate Hinit o. unfold o.
  rewrite (visualise_eq env self rl b ep He Hrate Hinit). cbv zeta.
  destruct (render env self) as [t e] eqn:Er.
  destruct (render_spec env self t e Er) as (Hmk & Hsv & Hni & Hnp & _).
  cbn [fst snd].
  assert (forall ev,
            ev ∈ match e with Some _ => [EvPrint unable_msg] | None => [] end
            -> ev = EvPrint unable_msg) as Hpr.
  { intros ev. destruct e; [by intros ->%list_elem_of_singleton|].
    by intros ?%elem_of_nil. }
  split; [by case_decide|]. split; [by repeat case_decide|].
  split; [by repeat case_decide|]. split; [|split; [|split]].
  - destruct (decide (ep = 0)) as [->|Hep].
    + rewrite decide_True by done. cbn [trace]. split; [done|]. intros _.
      left.
    + case_decide; cbn [trace].
      * rewrite !elem_of_app. split; [|done].
        intros [?%elem_of_nil|[Ht|Hp%Hpr]]; done.
      * split; [by intros ?%elem_of_nil|done].
  - by apply Z.mod_divide.
  - intros Hmod. rewrite decide_False by done.
    destruct (decide (ep = 0)) as [->|Hep]; [|done].
    by rewrite Zmod_0_l in Hmod.
  - intros Hmod. rewrite decide_True by done. cbn [trace].
    rewrite !elem_of_app. split.
    + rewrite <- Hmk. split; [|by auto].
      intros [Ht0|[Ht|Hp%Hpr]]; [|done|done].
      case_decide; [by apply list_elem_of_singleton in Ht0
                   | by apply elem_of_nil in Ht0].
    + rewrite <- Hsv. split; [|by auto].
      intros [Ht0|[Ht|Hp%Hpr]]; [|done|done].
      case_decide; [by apply list_elem_of_singleton in Ht0
                   | by apply elem_of_nil in Ht0].
Qed.

Lemma visualise_refresh_witness :
  epoch demo_first.1 = Some 0 /\
  epoch_refresh_rate demo_visualiser <> 0 /\
  (EvMakeVisualisation
     ∈ trace (visualise backend_ok demo_visualiser demo_first.1
                (demo_batch "p"))) /\
  (EvSaveVisualisation
     ∈ trace (visualise backend_ok demo_visualiser demo_first.1
                (demo_batch "p"))).
Proof.
  refine (conj DemoFacts.demo_first_epoch (conj _ _)); [discriminate|].
  destruct (visualise_refresh backend_ok demo_visualiser demo_first.1
              (demo_batch "p") 0 DemoFacts.demo_first_epoch ltac:(discriminate)
              (fun _ => eq_refl))
    as (_ & _ & _ & _ & _ & _ & Hmul).
  destruct (Hmul eq_refl) as [Hmk Hsv].
  split; [apply Hmk; reflexivity|].
  apply Hsv. split; reflexivity.
Defined.

(** Claim C5 as it is stated fails when [make_visualisation] raises: at
    epoch 0, a multiple of the refresh rate, with [do_save] set,
    [save_visualisation] is not called. *)
Lemma visualise_save_skipped_counterexample :
  epoch demo_first.1 = Some 0 /\
  (epoch_refresh_rate demo_visualiser | 0) /\
  do_save demo_visualiser = true /\
  trace (visualise backend_no_display demo_visualiser demo_first.1
           (demo_batch "p"))
    = [EvInitialize; EvMakeVisualisation; EvPrint unable_msg] /\
  EvSaveVisualisation
    ∉ trace (visualise backend_no_display demo_visualiser demo_first.1
               (demo_batch "p")).
Proof.
  assert (trace (visualise backend_no_display demo_visualiser demo_first.1
                   (demo_batch "p"))
          = [EvInitialize; EvMakeVisualisation; EvPrint unable_msg]) as Ht.
  { unfold visualise. rewrite DemoFacts.demo_first_epoch. reflexivity. }
  split; [exact DemoFacts.demo_first_epoch|]. split; [by exists 0|].
  split; [reflexivity|]. split; [exact Ht|]. rewrite Ht.
  rewrite !elem_of_cons, elem_of_nil. intuition discriminate.
Qed.

(** Claim C10. At an epoch where rendering is attempted (a multiple of the
    refresh rate, which is not 0, for a logger that has logged), if the
    creation of the figure at epoch 0 does not raise, [visualise] returns
    without an exception whatever [make_visualisation] and
    [save_visualisation] raise; when one of them raises, the last thing
    [visualise] does is to print the message, and otherwise nothing is
    printed. The creation of the figure at epoch 0 is not protected: an
    exception of [initialize] leaves [visualise]. *)
Theorem visualise_catches_rendering_errors env self rl b ep :
  epoch rl = Some ep -> epoch_refresh_rate self <> 0 ->
  ep `mod` epoch_refresh_rate self = 0 ->
  let o := visualise env self rl b in
  ((ep = 0 -> initialize_raises env = None) ->
     raised o = None /\
     (rendering_raises env self ->
        last (trace o) = Some (EvPrint unable_msg)) /\
     (~ rendering_raises env self -> forall msg, EvPrint msg ∉ trace o)) /\
  (forall e, ep = 0 -> initialize_raises env = Some e ->
     raised o = Some e /\ trace o = [EvInitialize]).
Proof.
  intros He Hrate Hmod o. split.
  - intros Hinit. unfold o.
    rewrite (visualise_eq env self rl b ep He Hrate Hinit). cbv zeta.
    rewrite decide_True by done. cbn [raised trace]. split; [done|].
    destruct (render env self) as [t e] eqn:Er.
    destruct (render_spec env self t e Er) as (_ & _ & _ & Hnp & Hiff).
    cbn [fst snd]. split.
    + intros Hr. apply Hiff in Hr as [x ->].
      by rewrite !app_assoc, last_snoc.
    + intros Hr msg. destruct e as [x|]; [destruct Hr; apply Hiff; eauto|].
      rewrite app_nil_r, elem_of_app. intros [Hin|Hin]; [|by apply Hnp in Hin].
      case_decide; [by apply list_elem_of_singleton in Hin
                   | by apply elem_of_nil in Hin].
  - intros e -> Hinit. unfold o, visualise. rewrite He.
    rewrite decide_True by done. unfold initialize. rewrite Hinit.
    by cbn [raised trace].
Qed.

Lemma visualise_catches_rendering_errors_witness :
  epoch demo_first.1 = Some 0 /\
  epoch_refresh_rate demo_visualiser <> 0 /\
  0 `mod` epoch_refresh_rate demo_visualiser = 0 /\
  rendering_raises backend_no_display demo_visualiser /\
  raised (visualise backend_no_display demo_visualiser demo_first.1
            (demo_batch "p")) = None /\
  last (trace (visualise backend_no_display demo_visualiser demo_first.1
                 (demo_batch "p")))
    = Some (EvPrint unable_msg).
Proof.
  assert (rendering_raises backend_no_display demo_visualiser) as Hr
    by (left; split; [reflexivity | by eexists]).
  refine (conj DemoFacts.demo_first_epoch (conj _ (conj eq_refl (conj Hr _))));
    [discriminate|].
  destruct (visualise_catches_rendering_errors backend_no_display
              demo_visualiser demo_first.1 (demo_batch "p") 0
              DemoFacts.demo_first_epoch ltac:(discriminate) eq_refl) as [H _].
  destruct (H (fun _ => eq_refl)) as (Hnone & Hlast & _).
  exact (conj Hnone (Hlast Hr)).
Defined.

End VisualiserTheorems.

(** ** Well-formed training runs return *)

Module TotalFacts.

Import Float FloatFacts NpFacts RunLogger LogFacts ParetoFacts FrontFacts
       GridFacts BestFacts.

Lemma argmax_from_lt a : forall mp mi i,
  (mi < i)%nat -> (Np.argmax_from mp mi i a < i + length a)%nat.
Proof.
  induction a as [|x a IH]; intros mp mi i Hlt; simpl; [lia|].
  destruct (leb x mp); [|destruct (isnan x)].
  - specialize (IH mp mi (S i)). lia.
  - lia.
  - specialize (IH x i (S i)). lia.
Qed.

Lemma argmax_lt a i : Np.argmax a = Ok i -> (i < length a)%nat.
Proof.
  destruct a as [|x a]; [done|]. simpl. intros [= <-].
  destruct (isnan x); [lia|].
  pose proof (argmax_from_lt a x 0%nat 1%nat). lia.
Qed.

Lemma max_Ok a : a <> [] -> exists m, Np.max a = Ok m.
Proof. destruct a; [done|]. intros _. eexists. reflexivity. Qed.

Lemma item_total {A} (a : list A) i :
  (i < length a)%nat -> exists x, Np.item a i = Ok x.
Proof.
  intros H. destruct (lookup_lt_is_Some_2 a i H) as [x Hx].
  exists x. by apply item_Ok.
Qed.

Lemma take_total {A} (a : list A) idx :
  Forall (fun i => (i < length a)%nat) idx -> exists xs, Np.take a idx = Ok xs.
Proof.
  induction idx as [|i idx IH]; intros H; simpl; [by eexists|].
  apply Forall_cons in H as [Hi H].
  destruct (item_total a i Hi) as [x ->]. destruct (IH H) as [xs ->].
  simpl. by eexists.
Qed.

Lemma put_total {A} (v : A) idx : forall a,
  Forall (fun i => (i < length a)%nat) idx -> exists a', Np.put a idx v = Ok a'.
Proof.
  induction idx as [|i idx IH]; intros a H; simpl; [by eexists|].
  apply Forall_cons in H as [Hi H]. rewrite decide_True by done.
  apply IH. by rewrite length_insert.
Qed.

Lemma array_total {A} (rows : list (list A)) n :
  Forall (fun r => length r = n) rows -> Np.array rows = Ok rows.
Proof.
  destruct rows as [|r rows]; [done|]. intros [Hr H]%Forall_cons. simpl.
  assert (forallb (fun r' => Nat.eqb (length r') (length r)) rows = true)
    as ->; [|done].
  apply forallb_forall. intros r' Hr'. apply Nat.eqb_eq.
  rewrite Hr. apply (proj1 (Forall_forall _ _) H). by apply list_elem_of_In.
Qed.

Lemma pareto_step_total b rw i c pr pp :
  length (n_complexity (programs b)) = length rw ->
  length (progs (programs b)) = length rw ->
  (i < length pr)%nat -> (i < length pp)%nat ->
  exists st', pareto_step b rw i c (pr, pp) = Ok st'.
Proof.
  intros Hcx Hps Hpr Hpp. unfold pareto_step.
  set (matches := Np.argwhere (have_c (n_complexity (programs b)) c)).
  case_decide as Hlen; [|by eexists].
  assert (Forall (fun j => (j < length rw)%nat) matches) as Hm.
  { apply Forall_forall. intros j Hj. apply argwhere_spec in Hj.
    apply lookup_lt_Some in Hj. unfold have_c in Hj.
    rewrite length_fmap in Hj. lia. }
  destruct (take_total rw matches Hm) as [rs Hrs]. rewrite Hrs.
  cbn [mbind result_bind].
  pose proof (take_length _ _ _ Hrs) as Hlrs.
  destruct (argmax_Ok rs) as [k Hk]; [by destruct rs; simpl in *; [lia|]|].
  rewrite Hk. cbn [mbind result_bind].
  pose proof (argmax_lt _ _ Hk) as Hklt.
  destruct (lookup_lt_is_Some_2 matches k ltac:(lia)) as [jmax Hjmax].
  rewrite (proj2 (item_Ok matches k jmax) Hjmax). cbn [mbind result_bind].
  assert (jmax < length rw)%nat as Hjlt.
  { apply (proj1 (Forall_forall _ _) Hm). by eapply list_elem_of_lookup_2. }
  destruct (item_total rw jmax Hjlt) as [max_r ->].
  destruct (item_total pr i Hpr) as [cur ->]. cbn [mbind result_bind].
  destruct (leb cur max_r || isnan cur); [|by eexists].
  unfold get_prog.
  destruct (item_total (progs (programs b)) jmax ltac:(lia)) as [p ->].
  unfold setitem. cbn [mbind result_bind]. rewrite decide_True by done.
  cbn [mbind result_bind]. rewrite decide_True by done.
  cbn [mbind result_bind]. by eexists.
Qed.

Lemma pareto_loop_total b rw cs : forall i pr pp,
  length (n_complexity (programs b)) = length rw ->
  length (progs (programs b)) = length rw ->
  (i + length cs <= length pr)%nat -> (i + length cs <= length pp)%nat ->
  exists st', pareto_loop b rw i cs (pr, pp) = Ok st'.
Proof.
  induction cs as [|c cs IH]; intros i pr pp Hcx Hps Hpr Hpp;
    cbn [pareto_loop length] in *; [by eexists|].
  destruct (pareto_step_total b rw i c pr pp Hcx Hps) as [[pr1 pp1] Hs];
    [lia|lia|].
  rewrite Hs. cbn [mbind result_bind].
  apply pareto_step_length in Hs as [H1 H2]. apply IH; lia.
Qed.

Lemma pareto_logger_total self b rw :
  batch self = Some b -> R self = Some rw ->
  length (n_complexity (programs b)) = length rw ->
  length (progs (programs b)) = length rw ->
  epoch self = Some 0 \/ (exists g, pareto_grid g self) ->
  exists self', pareto_logger self = Ok self'.
Proof.
  intros Hb HR Hcx Hps Hpre. unfold pareto_logger, attr. rewrite Hb, HR.
  cbn [from_option mbind result_bind]. unfold pareto_arrays.
  destruct (decide (epoch self = Some 0)) as [He|He].
  - cbn [mbind result_bind].
    destruct (pareto_loop_total b rw
                (Np.arange (10 * max_time_step b)) 0
                (Np.full (length (Np.arange (10 * max_time_step b))) NaN)
                (Np.full (length (Np.arange (10 * max_time_step b))) None)
                Hcx Hps) as [[pr' pp'] ->].
    + unfold Np.full. rewrite length_replicate. lia.
    + unfold Np.full. rewrite length_replicate. lia.
    + cbn [mbind result_bind]. by eexists.
  - destruct Hpre as [?|(g & pr & pp & Hpc & Hpr & Hpp & Hl1 & Hl2)]; [done|].
    unfold attr. rewrite Hpc, Hpr, Hpp. cbn [from_option mbind result_bind].
    destruct (pareto_loop_total b rw (Np.arange g) 0 pr pp Hcx Hps)
      as [[pr' pp'] ->]; [rewrite arange_length; lia..|].
    cbn [mbind result_bind]. by eexists.
Qed.

Lemma save_log_total self fs e b k r :
  epoch self = Some e -> batch self = Some b -> keep self = Some k ->
  R self = Some r ->
  length r = batch_size b ->
  length (n_complexity (programs b)) = batch_size b ->
  length (n_lengths (programs b)) = batch_size b ->
  length (is_physical (programs b)) = batch_size b ->
  length (progs (programs b)) = batch_size b ->
  Forall (fun i => (i < batch_size b)%nat) k ->
  exists fs', save_log self fs = Ok fs'.
Proof.
  intros He Hb Hk HR L2 L3 L4 L5 L7 Hkeep. unfold save_log, attr.
  rewrite He, Hb, Hk, HR. cbn [from_option mbind result_bind].
  destruct (put_total true k (Np.full (batch_size b) false)) as [el Hel].
  { unfold Np.full. by rewrite length_replicate. }
  rewrite Hel. cbn [mbind result_bind].
  destruct (CsvFacts.put_spec true k _ _ Hel) as (L6 & _).
  unfold Np.full in L6. rewrite length_replicate in L6.
  unfold column, Np.full, get_programs_array.
  rewrite length_replicate, L2, L3, L4, L5, L6, length_fmap, L7.
  rewrite !(decide_True (P := batch_size b = batch_size b)) by done.
  cbn [mbind result_bind]. by eexists.
Qed.

Lemma log_best_total self e b r idx :
  e = 0 \/ overall_max_R_history self <> [] ->
  r <> [] -> (idx < length (progs (programs b)))%nat ->
  exists h hof, log_best self e b r idx = Ok (h, hof) /\ (0 <= e -> h <> []).
Proof.
  intros Hpre Hr Hidx. unfold log_best.
  destruct (max_Ok r Hr) as [m Hm]. unfold get_prog.
  destruct (item_total (progs (programs b)) idx Hidx) as [p Hp].
  rewrite Hm, Hp. destruct (decide (e = 0)) as [->|He].
  - cbn [mbind result_bind]. rewrite decide_False by lia.
    exists [m], [p]. by split.
  - destruct Hpre as [?|Hh]; [done|]. cbn [mbind result_bind].
    destruct (max_Ok _ Hh) as [hm Hhm].
    destruct (decide (e > 0)) as [Hpos|Hneg].
    + rewrite Hhm. cbn [mbind result_bind]. destruct (gtb m hm).
      * cbn [mbind result_bind]. eexists _, _. split; [done|].
        intros _ Hnil. by apply app_nil in Hnil as [_ ?].
      * destruct (last (overall_max_R_history self)) as [l|] eqn:El.
        -- unfold item_last. rewrite El. cbn [from_option mbind result_bind].
           eexists _, _. split; [done|].
           intros _ Hnil. by apply app_nil in Hnil as [_ ?].
        -- by apply last_None in El.
    + eexists _, _. split; [done|]. intros ?. lia.
Qed.

Lemma pareto_grid_log_histories g self e b r k nk lv bp h hof rk m row Ra Rta
    lp lu :
  pareto_grid g self ->
  pareto_grid g
    (log_histories self e b r k nk lv bp h hof rk m row Ra Rta lp lu).
Proof. intros (pr & pp & H). by exists pr, pp. Qed.

(** A call with a well-formed batch returns when the logger is ready for
    it, and leaves the logger ready for the next call. *)
Lemma log_call_total n k j l fs c :
  wf_call n k c -> ready n k j l -> call_epoch c = Z.of_nat j ->
  exists l' fs', log_call (l, fs) c = Ok (l', fs') /\ ready n k (S j) l'.
Proof.
  intros (Hn & Lr & Lb & Lp & Lt & Lc & Ll & Li & Lk & Hkeep)
         (Hpre & HRh & HRt) He.
  set (b := call_batch c) in *. set (r := call_rewards c) in *.
  assert (r <> []) as Hr by (intros E; rewrite E in Lr; simpl in Lr; lia).
  assert (exists st, log_call (l, fs) c = Ok st) as [[l' fs'] Hlog].
  { unfold log_call, log. cbn [fst snd]. fold b r.
    destruct (argmax_Ok r Hr) as [idx Hidx]. rewrite Hidx.
    cbn [mbind result_bind]. pose proof (argmax_lt _ _ Hidx) as Hlt.
    unfold get_prog at 1.
    destruct (item_total (progs (programs b)) idx ltac:(lia)) as [bp ->].
    cbn [mbind result_bind].
    destruct (log_best_total l (call_epoch c) b r idx) as (h & hof & -> & _);
      [|done|lia|].
    { destruct Hpre as [->|[Hh _]]; [by left | by right]. }
    cbn [mbind result_bind].
    destruct (take_total r (call_keep c)) as [rk Hrk];
      [by rewrite Lr|]. rewrite Hrk. cbn [mbind result_bind].
    destruct (max_Ok r Hr) as [m ->]. cbn [mbind result_bind].
    destruct (item_total (tokens_complexity (programs b)) idx ltac:(lia))
      as [row ->]. cbn [mbind result_bind].
    rewrite (array_total (R_history l ++ [r]) n)
      by (apply Forall_app; split; [done | by apply Forall_singleton]).
    cbn [mbind result_bind].
    rewrite (array_total (R_history_train l ++ [rk]) k).
    2:{ apply Forall_app. split; [done|]. apply Forall_singleton.
        by rewrite (take_length _ _ _ Hrk). }
    cbn [mbind result_bind]. unfold Np.compress.
    rewrite !decide_True by (rewrite ?length_fmap; lia).
    cbn [mbind result_bind].
    match goal with
    | |- context [pareto_logger ?s] =>
        destruct (pareto_logger_total s b r eq_refl eq_refl
                    ltac:(lia) ltac:(lia)) as [self2 Hpl]
    end.
    { destruct Hpre as [->|[_ [g Hg]]].
      - left. cbn [epoch log_histories]. by rewrite He.
      - right. exists g. by apply pareto_grid_log_histories. }
    rewrite Hpl. cbn [mbind result_bind].
    destruct (pareto_logger_inv _ _ Hpl) as (pc & pr & pp & ->).
    destruct (do_save _); [|by eexists].
    match goal with
    | |- context [save_log ?s fs] =>
        destruct (save_log_total s fs (call_epoch c) b (call_keep c) r
                    eq_refl eq_refl eq_refl eq_refl) as [fs2 ->];
          try lia; [by rewrite Lb|]
    end.
    cbn [mbind result_bind]. by eexists. }
  exists l', fs'. split; [done|].
  pose proof Hlog as Hinv. unfold log_call in Hinv. cbn [fst snd] in Hinv.
  apply log_inv in Hinv
    as (idx & bp & h & hof & rk & m & row & Ra & Rta & lp & lu & Hinv).
  destruct Hinv as (_ & _ & Hbest & Hrk & _ & Hpl & _).
  assert (exists g, pareto_grid g l') as Hg.
  { destruct Hpre as [->|[_ [g Hg]]].
    - apply (fun E => pareto_logger_grid_reset _ _ E Hpl).
      cbn [epoch log_histories]. by rewrite He.
    - eapply pareto_logger_grid; [|exact Hpl]. right. exists g.
      by apply pareto_grid_log_histories. }
  destruct (pareto_logger_inv _ _ Hpl) as (pc & pr & pp & ->).
  cbn [set_pareto log_histories overall_max_R_history R_history
       R_history_train]. split; [right; split; [|done]|split].
  - destruct (decide (call_epoch c = 0)) as [Hz|Hz].
    + rewrite Hz in Hbest.
      by apply log_best_zero in Hbest as (? & ? & _ & _ & -> & _).
    + apply log_best_pos in Hbest as (m' & hm & _ & _ & Hif); [|lia].
      destruct (gtb m' hm).
      * destruct Hif as (? & _ & -> & _). intros E.
        by apply app_nil in E as [_ ?].
      * destruct Hif as (? & _ & -> & _). intros E.
        by apply app_nil in E as [_ ?].
  - apply Forall_app. split; [done | by apply Forall_singleton].
  - apply Forall_app. split; [done|]. apply Forall_singleton.
    by rewrite (take_length _ _ _ Hrk).
Qed.

(** A training loop over well-formed batches of one size returns. *)
Lemma run_total_from n k cs : forall j l fs,
  ready n k j l -> Forall (wf_call n k) cs ->
  call_epoch <$> cs = Z.of_nat <$> seq j (length cs) ->
  exists st, run (l, fs) cs = Ok st.
Proof.
  induction cs as [|c cs IH]; intros j l fs Hready Hwf Hep; [by eexists|].
  apply Forall_cons in Hwf as [Hc Hwf]. simpl in Hep.
  injection Hep as He Hep.
  destruct (log_call_total n k j l fs c Hc Hready He)
    as (l' & fs' & Hlog & Hready').
  cbn [run]. rewrite Hlog. cbn [mbind result_bind]. by eapply IH.
Qed.

Lemma init_ready n k path save : ready n k 0 (RunLogger.init path save).
Proof. split; [by left|]. split; constructor. Qed.

(** The hypotheses of the properties of a training loop can be met: in
    this development, where writing the file of the log cannot fail, a
    loop with the epochs 0, 1, 2, ... over well-formed batches returns. *)
Theorem run_total n k path save fs cs :
  in_order cs -> Forall (wf_call n k) cs ->
  exists st, run (RunLogger.init path save, fs) cs = Ok st.
Proof.
  intros Hord Hwf.
  by apply (run_total_from n k cs 0%nat _ fs (init_ready n k path save)).
Qed.

Lemma demo_wf : Forall (wf_call 3 1) demo_calls.
Proof.
  repeat (constructor;
          [unfold wf_call; simpl; repeat split; try lia;
           repeat constructor; lia|]).
  constructor.
Qed.

Lemma run_total_witness :
  in_order demo_calls /\ Forall (wf_call 3 1) demo_calls /\
  exists st,
    run (RunLogger.init (Some "run_log.csv"%string) true, ∅) demo_calls
    = Ok st.
Proof.
  refine (conj DemoFacts.demo_in_order (conj demo_wf _)).
  exact (run_total 3 1 (Some "run_log.csv"%string) true ∅
           demo_calls DemoFacts.demo_in_order demo_wf).
Defined.

End TotalFacts.

(** ** The cost of the scans *)

Module CostTheorems.

Import Float FloatFacts NpFacts.
Import Cost.

Lemma outcome_bind {A B} (m : counted A) (f : A -> counted B) :
  outcome (m ≫= f) = outcome m ≫= (fun a => outcome (f a)).
Proof. unfold mbind, counted_bind. by destruct (outcome m). Qed.

Lemma bind_Ok_inv {A B} (m : counted A) (f : A -> counted B) b :
  outcome (m ≫= f) = Ok b ->
  exists a, outcome m = Ok a /\ outcome (f a) = Ok b /\
    accesses (m ≫= f) = (accesses m + accesses (f a))%nat.
Proof.
  unfold mbind, counted_bind. destruct (outcome m) as [a|]; simpl; [|done].
  intros H. by exists a.
Qed.

Lemma accesses_bind {A B} (m : counted A) (f : A -> counted B) :
  accesses (m ≫= f)
  = (accesses m + match outcome m with
                  | Ok a => accesses (f a)
                  | Raise _ => 0
                  end)%nat.
Proof. unfold mbind, counted_bind. destruct (outcome m); simpl; lia. Qed.

Lemma accesses_bind_le {A B} (m : counted A) (f : A -> counted B) k :
  (forall a, outcome m = Ok a -> accesses (f a) <= k)%nat ->
  (accesses (m ≫= f) <= accesses m + k)%nat.
Proof.
  unfold mbind, counted_bind. intros H.
  destruct (outcome m) as [a|]; simpl; [|lia]. specialize (H a eq_refl). lia.
Qed.

(** Runs the operations whose result is known. *)
Ltac run_counted :=
  cbn [mbind mret counted_bind counted_ret result_bind result_ret outcome
       accesses charge Op.attr Op.round Op.eq_scalar Op.gt_scalar Op.isnan
       Op.invert Op.and_ Op.map_scalar Op.argwhere Op.argmax Op.max Op.take
       Op.compress Op.item Op.item_last Op.setitem Op.get_prog Op.arange
       Op.full Op.append Op.array Op.next attr from_option].

(** Splits on the result of the next operation. *)
Ltac split_result :=
  match goal with
  | |- context [match ?r with Ok _ => _ | Raise _ => _ end] =>
      destruct r eqn:?
  end.

(** *** The counting scans compute what the scans compute *)

Lemma item_singleton {A} (x : A) : Np.item [x] 0 = Ok x.
Proof. done. Qed.

Lemma pareto_step_outcome b rw i c st :
  outcome (pareto_step b rw i c st) = RunLogger.pareto_step b rw i c st.
Proof.
  destruct st as [pr pp]. unfold pareto_step, RunLogger.pareto_step.
  run_counted. rewrite <- list_fmap_compose.
  unfold RunLogger.have_c, compose.
  case_decide; [|done].
  destruct (Np.take rw _) as [rs|]; run_counted; [|done].
  destruct (Np.argmax rs) as [k|]; run_counted; [|done].
  destruct (Np.item _ k) as [j|]; run_counted; [|done].
  destruct (Np.item rw j) as [m|]; run_counted; [|done].
  destruct (Np.item pr i) as [cur|]; run_counted; [|done].
  destruct (leb cur m); run_counted;
    [|destruct (isnan cur); run_counted; [|done]].
  all: rewrite item_singleton; run_counted.
  all: destruct (get_prog (programs b) j) as [p|]; run_counted; [|done].
  all: destruct (RunLogger.setitem pp i (Some p)); run_counted; [|done].
  all: by destruct (RunLogger.setitem pr i m).
Qed.

Lemma pareto_loop_outcome b rw cs : forall i st,
  outcome (pareto_loop b rw i cs st) = RunLogger.pareto_loop b rw i cs st.
Proof.
  induction cs as [|c cs IH]; intros i st; [done|].
  cbn [pareto_loop RunLogger.pareto_loop]. run_counted.
  rewrite outcome_bind, pareto_step_outcome.
  destruct (RunLogger.pareto_step b rw i c st); cbn [mbind result_bind];
    [apply IH|done].
Qed.

Lemma pareto_arrays_outcome self b :
  outcome (pareto_arrays self b) = RunLogger.pareto_arrays self b.
Proof.
  unfold pareto_arrays, RunLogger.pareto_arrays. case_decide; [done|].
  by destruct (pareto_complexities self), (pareto_rewards self),
    (pareto_programs self).
Qed.

Lemma pareto_logger_outcome self :
  outcome (pareto_logger self) = RunLogger.pareto_logger self.
Proof.
  unfold pareto_logger, RunLogger.pareto_logger.
  destruct (batch self) as [b|]; [|done].
  destruct (R self) as [rw|]; [|done]. run_counted.
  rewrite outcome_bind, pareto_arrays_outcome.
  destruct (RunLogger.pareto_arrays self b) as [[[pc pr] pp]|];
    cbn [mbind result_bind]; [|done].
  rewrite outcome_bind, pareto_loop_outcome.
  by destruct (RunLogger.pareto_loop b rw 0 pc (pr, pp)) as [[pr' pp']|].
Qed.

Lemma front_loop_outcome pv cv rs : forall i st,
  outcome (front_loop pv cv i rs st) = RunLogger.front_loop pv cv i rs st.
Proof.
  induction rs as [|r rs IH]; intros i [[fr fp] fc]; [done|].
  cbn [front_loop RunLogger.front_loop]. run_counted.
  destruct (RunLogger.item_last fr) as [l|]; run_counted; [|done].
  destruct (gtb r l); [|apply IH]. run_counted.
  destruct (Np.item pv i) as [p|]; run_counted; [|done].
  destruct (Np.item cv i) as [c|]; run_counted; [|done].
  apply IH.
Qed.

Lemma valid_mask (pr : list float) :
  zip_with andb (negb <$> (isnan <$> pr))
    ((fun x => gtb x (of_Z 0)) <$> pr)
  = RunLogger.pareto_valid <$> pr.
Proof. induction pr as [|r pr IH]; [done|]. simpl. f_equal. exact IH. Qed.

Lemma get_pareto_front_outcome self :
  outcome (get_pareto_front self) = RunLogger.get_pareto_front self.
Proof.
  unfold get_pareto_front, RunLogger.get_pareto_front.
  destruct (pareto_rewards self) as [pr|]; [|done]. run_counted.
  rewrite !length_fmap, decide_True by done. run_counted.
  rewrite valid_mask.
  destruct (Np.compress pr _) as [rv|]; run_counted; [|done].
  destruct (pareto_programs self) as [pp|]; [|done]. run_counted.
  destruct (Np.compress pp _) as [pv|]; run_counted; [|done].
  destruct (pareto_complexities self) as [pc|]; [|done]. run_counted.
  destruct (Np.compress pc _) as [cv|]; run_counted; [|done].
  destruct (Np.item rv 0) as [r0|]; run_counted; [|done].
  destruct (Np.item pv 0) as [p0|]; run_counted; [|done].
  destruct (Np.item cv 0) as [c0|]; run_counted; [|done].
  rewrite outcome_bind, front_loop_outcome.
  destruct (RunLogger.front_loop pv cv 0 rv ([r0], [p0], [c0]))
    as [[[fr fp] fc]|]; cbn [mbind result_bind]; [|done].
  run_counted. destruct (batch self) as [b|]; [|done]. run_counted.
  by rewrite <- !list_fmap_compose.
Qed.

Lemma log_best_outcome self e b rw idx :
  outcome (log_best self e b rw idx) = RunLogger.log_best self e b rw idx.
Proof.
  unfold log_best, RunLogger.log_best.
  destruct (decide (e = 0)) as [->|He0].
  - run_counted. destruct (Np.max rw) as [m|]; run_counted; [|done].
    destruct (get_prog (programs b) idx) as [p|]; run_counted; [|done].
    by rewrite !(decide_False (P := 0 > 0)) by lia.
  - run_counted. case_decide; [|done].
    destruct (Np.max rw) as [m|]; run_counted; [|done].
    destruct (Np.max (overall_max_R_history self)) as [hm|]; run_counted;
      [|done].
    destruct (gtb m hm); repeat (run_counted; try split_result); done.
Qed.

(** *** How many elements the scans access *)

Lemma argwhere_from_length mask : forall i,
  (length (Np.argwhere_from i mask) <= length mask)%nat.
Proof.
  induction mask as [|[] mask IH]; intros i; simpl; [lia| |];
    specialize (IH (S i)); lia.
Qed.

(** One bin of [pareto_logger]: three passes over the complexities of the
    batch, and, when programs match, their rewards are gathered and
    searched. *)
Lemma pareto_step_accesses b rw i c st :
  (3 * length (n_complexity (programs b))
   <= accesses (pareto_step b rw i c st)
   <= 5 * length (n_complexity (programs b)) + 8)%nat.
Proof.
  destruct st as [pr pp]. unfold pareto_step. run_counted.
  rewrite !length_fmap.
  set (n := length (n_complexity (programs b))).
  set (arg := Np.argwhere _).
  assert (length arg <= n)%nat as Harg.
  { unfold arg, Np.argwhere.
    etransitivity; [apply argwhere_from_length|].
    by rewrite !length_fmap. }
  case_decide; run_counted; [|lia].
  destruct (Np.take rw arg) as [rs|] eqn:Hrs; run_counted; [|lia].
  apply FrontFacts.take_length in Hrs.
  destruct (Np.argmax rs) as [k|]; run_counted; [|lia].
  destruct (Np.item arg k) as [j|]; run_counted; [|lia].
  destruct (Np.item rw j) as [m|]; run_counted; [|lia].
  destruct (Np.item pr i) as [cur|]; run_counted; [|lia].
  destruct (leb cur m); run_counted;
    [|destruct (isnan cur); run_counted; [|lia]].
  all: rewrite item_singleton; run_counted.
  all: destruct (get_prog (programs b) j) as [p|]; run_counted; [|lia].
  all: destruct (RunLogger.setitem pp i (Some p)); run_counted; [|lia].
  all: destruct (RunLogger.setitem pr i m); run_counted; lia.
Qed.

Lemma pareto_loop_accesses b rw cs : forall i st st',
  outcome (pareto_loop b rw i cs st) = Ok st' ->
  (length cs * (3 * length (n_complexity (programs b)) + 1)
   <= accesses (pareto_loop b rw i cs st)
   <= length cs * (5 * length (n_complexity (programs b)) + 9))%nat.
Proof.
  induction cs as [|c cs IH]; intros i st st' H; [simpl; lia|].
  cbn [pareto_loop] in *.
  apply bind_Ok_inv in H as ([] & _ & H & ->).
  apply bind_Ok_inv in H as (st1 & _ & H & ->).
  specialize (IH _ _ _ H).
  pose proof (pareto_step_accesses b rw i c st).
  cbn [length accesses Op.next charge]. lia.
Qed.

(** [pareto_logger]: at epoch 0 the three arrays are created, then every
    bin costs its three passes over the batch. *)
Lemma pareto_logger_accesses self self' b pc :
  outcome (pareto_logger self) = Ok self' ->
  batch self = Some b -> pareto_complexities self' = Some pc ->
  (length pc * (3 * length (n_complexity (programs b)) + 1)
   <= accesses (pareto_logger self)
   <= length pc * (5 * length (n_complexity (programs b)) + 12))%nat.
Proof.
  unfold pareto_logger. intros H Hb Hpc.
  apply bind_Ok_inv in H as (b' & Hb' & H & ->).
  apply bind_Ok_inv in H as (rw & _ & H & ->).
  apply bind_Ok_inv in H as ([[pc' pr] pp] & Harr & H & ->).
  apply bind_Ok_inv in H as ([pr' pp'] & Hloop & H & ->).
  injection H as <-. injection Hpc as ->.
  rewrite Hb in Hb'. injection Hb' as <-.
  pose proof (pareto_loop_accesses _ _ _ _ _ _ Hloop) as Hl.
  assert (accesses (pareto_arrays self b) <= 3 * length pc)%nat as Ha.
  { unfold pareto_arrays in Harr |- *. case_decide.
    - revert Harr. run_counted. intros [= <- _ _].
      rewrite !arange_length. lia.
    - destruct (pareto_complexities self), (pareto_rewards self),
        (pareto_programs self); run_counted; lia. }
  cbn [accesses Op.attr charge mret counted_ret]. lia.
Qed.

(** The loop of [get_pareto_front]: at most seven accesses for a
    candidate, and the front gets at most one entry for it. *)
Lemma front_loop_accesses pv cv rs : forall i fr fp fc,
  (accesses (front_loop pv cv i rs (fr, fp, fc)) <= 7 * length rs)%nat /\
  forall fr' fp' fc',
    outcome (front_loop pv cv i rs (fr, fp, fc)) = Ok (fr', fp', fc') ->
    (length fr' <= length fr + length rs)%nat /\
    (length fp' <= length fp + length rs)%nat /\
    (length fc' <= length fc + length rs)%nat.
Proof.
  induction rs as [|r rs IH]; intros i fr fp fc.
  - split; [simpl; lia|]. intros fr' fp' fc' [= <- <- <-]. lia.
  - cbn [front_loop length]. run_counted.
    destruct (RunLogger.item_last fr) as [l|]; run_counted;
      [|split; [lia|done]].
    destruct (gtb r l); run_counted.
    + destruct (Np.item pv i) as [p|]; run_counted; [|split; [lia|done]].
      destruct (Np.item cv i) as [c|]; run_counted; [|split; [lia|done]].
      destruct (IH (S i) (fr ++ [r]) (fp ++ [p]) (fc ++ [c])) as [Ha Hl].
      split; [lia|]. intros fr' fp' fc' H.
      destruct (Hl _ _ _ H) as (H1 & H2 & H3).
      rewrite !length_app in *. simpl in *. lia.
    + destruct (IH (S i) fr fp fc) as [Ha Hl]. split; [lia|].
      intros fr' fp' fc' H. destruct (Hl _ _ _ H) as (H1 & H2 & H3). lia.
Qed.

Lemma compress_length {A} (a : list A) mask l :
  Np.compress a mask = Ok l -> (length l <= length a)%nat.
Proof.
  unfold Np.compress. case_decide; [|done]. intros [= <-].
  apply select_length.
Qed.

(** [get_pareto_front]: a fixed number of passes over the three Pareto
    arrays. *)
Lemma get_pareto_front_accesses self pr pp pc :
  pareto_rewards self = Some pr -> pareto_programs self = Some pp ->
  pareto_complexities self = Some pc ->
  (accesses (get_pareto_front self)
   <= 22 * length pr + length pp + length pc + 9)%nat.
Proof.
  intros Hpr Hpp Hpc. unfold get_pareto_front. rewrite Hpr, Hpp, Hpc.
  run_counted. rewrite !length_fmap, decide_True by done. run_counted.
  rewrite length_zip_with, !length_fmap, Nat.min_id.
  destruct (Np.compress pr _) as [rv|] eqn:Hrv; run_counted; [|lia].
  apply compress_length in Hrv.
  destruct (Np.compress pp _) as [pv|]; run_counted; [|lia].
  destruct (Np.compress pc _) as [cv|]; run_counted; [|lia].
  destruct (Np.item rv 0) as [r0|]; run_counted; [|lia].
  destruct (Np.item pv 0) as [p0|]; run_counted; [|lia].
  destruct (Np.item cv 0) as [c0|]; run_counted; [|lia].
  destruct (front_loop_accesses pv cv rv 0 [r0] [p0] [c0]) as [Ha Hl].
  rewrite accesses_bind.
  destruct (outcome (front_loop pv cv 0 rv ([r0], [p0], [c0])))
    as [[[fr fp] fc]|] eqn:Hloop; run_counted; [|lia].
  destruct (Hl _ _ _ eq_refl) as (H1 & H2 & H3). simpl in H1, H2, H3.
  rewrite !length_fmap.
  destruct (batch self); run_counted; rewrite ?length_fmap; lia.
Qed.

(** The running best reward: the rewards are scanned at most twice, the
    history once. *)
Lemma log_best_accesses self e b rw idx :
  (accesses (log_best self e b rw idx)
   <= 2 * length rw + length (overall_max_R_history self) + 3)%nat.
Proof.
  unfold log_best. destruct (decide (e = 0)) as [->|He0].
  - run_counted. destruct (Np.max rw) as [m|]; run_counted; [|lia].
    destruct (get_prog (programs b) idx) as [p|]; run_counted; [|lia].
    rewrite !(decide_False (P := 0 > 0)) by lia. run_counted. lia.
  - run_counted. case_decide; run_counted; [|lia].
    destruct (Np.max rw) as [m|]; run_counted; [|lia].
    destruct (Np.max (overall_max_R_history self)) as [hm|]; run_counted;
      [|lia].
    destruct (gtb m hm); run_counted.
    + destruct (get_prog (programs b) idx); run_counted; lia.
    + destruct (RunLogger.item_last _); run_counted; lia.
Qed.

(** Claim C7, as amended. The counting scans compute what
    [pareto_logger], [get_pareto_front] and the update of the running best
    reward compute. [pareto_logger] is not one pass over the batch: when it
    returns it has accessed between [bins * (3 n + 1)] and
    [bins * (5 n + 12)] elements, for [bins] bins and a batch of [n]
    programs. [get_pareto_front] is linear in the size of the three Pareto
    arrays, and the update of the running best reward is linear in the
    size of the batch and of the history. *)
Theorem scans_access_counts :
  (forall self,
     outcome (pareto_logger self) = RunLogger.pareto_logger self) /\
  (forall self,
     outcome (get_pareto_front self) = RunLogger.get_pareto_front self) /\
  (forall self e b rw idx,
     outcome (log_best self e b rw idx)
     = RunLogger.log_best self e b rw idx) /\
  (forall self self' b pc,
     outcome (pareto_logger self) = Ok self' ->
     batch self = Some b -> pareto_complexities self' = Some pc ->
     (length pc * (3 * length (n_complexity (programs b)) + 1)
      <= accesses (pareto_logger self)
      <= length pc * (5 * length (n_complexity (programs b)) + 12))%nat) /\
  (forall self pr pp pc,
     pareto_rewards self = Some pr -> pareto_programs self = Some pp ->
     pareto_complexities self = Some pc ->
     (accesses (get_pareto_front self)
      <= 22 * length pr + length pp + length pc + 9)%nat) /\
  (forall self e b rw idx,
     (accesses (log_best self e b rw idx)
      <= 2 * length rw + length (overall_max_R_history self) + 3)%nat).
Proof.
  split; [exact pareto_logger_outcome|].
  split; [exact get_pareto_front_outcome|].
  split; [exact log_best_outcome|].
  split; [exact pareto_logger_accesses|].
  split; [exact get_pareto_front_accesses|exact log_best_accesses].
Qed.

Lemma wide_grid_returns m :
  outcome (pareto_logger (wide_grid_logger m)) = Ok (wide_grid_final m) /\
  pareto_complexities (wide_grid_final m) = Some (Np.arange (10 * m)).
Proof.
  rewrite pareto_logger_outcome. unfold wide_grid_final.
  destruct (TotalFacts.pareto_logger_total (wide_grid_logger m)
              (wide_grid_batch m) [ratio 1 2] eq_refl eq_refl eq_refl
              eq_refl (or_introl eq_refl)) as [self' Hs].
  rewrite Hs. split; [done|].
  destruct (ParetoFacts.pareto_logger_steps _ _ Hs)
    as (b & rw & pc & pr & pp & pr' & pp' & Hb & _ & Hinit & _ & ->).
  rewrite decide_True in Hinit by done. destruct Hinit as (-> & _).
  injection Hb as <-. done.
Qed.

Lemma scans_access_counts_witness :
  batch (wide_grid_logger 2) = Some (wide_grid_batch 2) /\
  outcome (pareto_logger (wide_grid_logger 2)) = Ok (wide_grid_final 2) /\
  pareto_complexities (wide_grid_final 2) = Some (Np.arange 20) /\
  (20 * (3 * 1 + 1) <= accesses (pareto_logger (wide_grid_logger 2))
   <= 20 * (5 * 1 + 12))%nat.
Proof.
  destruct (wide_grid_returns 2) as [Hout Hpc].
  refine (conj eq_refl (conj Hout (conj Hpc _))).
  destruct scans_access_counts as (_ & _ & _ & Hbounds & _).
  exact (Hbounds (wide_grid_logger 2) (wide_grid_final 2) (wide_grid_batch 2)
           (Np.arange 20) Hout eq_refl Hpc).
Defined.

(** Claim C7 as the spec states it fails: no bound that is linear in the
    size of the batch holds for [pareto_logger]. On a batch of one program
    it accesses at least [40 * max_time_step] elements. *)
Lemma pareto_logger_not_linear_counterexample :
  ~ exists k : nat, forall self self' b,
      outcome (pareto_logger self) = Ok self' -> batch self = Some b ->
      (accesses (pareto_logger self)
       <= k * length (n_complexity (programs b)) + k)%nat.
Proof.
  intros [k H].
  destruct (wide_grid_returns (S k)) as [Hout Hpc].
  specialize (H _ _ (wide_grid_batch (S k)) Hout eq_refl).
  destruct (pareto_logger_accesses _ _ (wide_grid_batch (S k)) _ Hout eq_refl
              Hpc) as [Hlow _].
  rewrite arange_length in Hlow.
  cbn [n_complexity programs wide_grid_batch length] in H, Hlow. lia.
Qed.

End CostTheorems.

(** ** What a call of [log] needs and what it leaves *)

Module CallFacts.

Import Float FloatFacts NpFacts RunLogger LogFacts.

(** Every step of a call of [log] that returns. *)
Lemma log_steps self fs e b r k nk lv self' fs' :
  log self fs e b r k nk lv = Ok (self', fs') ->
  exists idx bp h hof rk m row Ra Rta lp lu pc pr pp,
    Np.argmax r = Ok idx /\
    get_prog (programs b) idx = Ok bp /\
    log_best self e b r idx = Ok (h, hof) /\
    Np.take r k = Ok rk /\
    Np.max r = Ok m /\
    Np.item (tokens_complexity (programs b)) idx = Ok row /\
    Np.compress (n_lengths (programs b)) (is_physical (programs b)) = Ok lp /\
    Np.compress (n_lengths (programs b)) (negb <$> is_physical (programs b))
      = Ok lu /\
    pareto_logger
      (log_histories self e b r k nk lv bp h hof rk m row Ra Rta lp lu)
      = Ok self' /\
    self' = set_pareto
              (log_histories self e b r k nk lv bp h hof rk m row Ra Rta lp lu)
              pc pr pp /\
    (if do_save self then save_log self' fs = Ok fs' else fs' = fs).
Proof.
  unfold log. intros H.
  inv_bind H as idx Hidx. inv_bind H as bp Hbp.
  inv_bind H as [h hof] Hbest. inv_bind H as rk Hrk. inv_bind H as m Hm.
  inv_bind H as row Hrow. inv_bind H as Ra HRa. inv_bind H as Rta HRta.
  inv_bind H as lp Hlp. inv_bind H as lu Hlu. inv_bind H as self2 Hpl.
  destruct (pareto_logger_inv _ _ Hpl) as (pc & pr & pp & Hself2).
  exists idx, bp, h, hof, rk, m, row, Ra, Rta, lp, lu, pc, pr, pp.
  assert (Hsave : do_save self2 = do_save self) by (by rewrite Hself2).
  rewrite Hsave in H.
  destruct (do_save self).
  - inv_bind H as fs2 Hfs. injection H as <- <-. by repeat split.
  - injection H as <- <-. by repeat split.
Qed.

Lemma compress_Ok {A} (a : list A) mask l :
  Np.compress a mask = Ok l -> length a = length mask /\ l = Np.select a mask.
Proof. unfold Np.compress. case_decide; [|done]. by intros [= <-]. Qed.

Lemma take_in_range {A} (a : list A) idx xs :
  Np.take a idx = Ok xs -> Forall (fun i => (i < length a)%nat) idx.
Proof.
  intros H. apply Forall_forall. intros i [j Hj]%list_elem_of_lookup.
  destruct (take_Ok _ _ _ H) as [_ Hk].
  destruct (Hk j i Hj) as [_ [x Hx]]. by eapply lookup_lt_Some.
Qed.

End CallFacts.

Module CallTheorems.

Import Float FloatFacts NpFacts RunLogger LogFacts CallFacts.

Lemma demo_first_log :
  log demo_init.1 demo_init.2 0 (demo_batch "p")
      [ratio 1 2; ratio 1 3; ratio 1 4] [0%nat] [] (ratio 1 10)
    = Ok (demo_first.1, demo_first.2).
Proof. vm_compute. reflexivity. Qed.

Lemma save_log_columns self fs fs' b k r :
  batch self = Some b -> keep self = Some k -> R self = Some r ->
  save_log self fs = Ok fs' ->
  length r = batch_size b /\
  length (n_complexity (programs b)) = batch_size b /\
  length (n_lengths (programs b)) = batch_size b /\
  length (is_physical (programs b)) = batch_size b /\
  length (progs (programs b)) = batch_size b /\
  Forall (fun i => (i < batch_size b)%nat) k.
Proof.
  unfold save_log. intros -> -> -> H. simpl in H.
  inv_bind H as ep Hep. inv_bind H as el Hel.
  inv_bind H as c1 H1. inv_bind H as c2 H2. inv_bind H as c3 H3.
  inv_bind H as c4 H4. inv_bind H as c5 H5. inv_bind H as c6 H6.
  inv_bind H as c7 H7.
  apply CsvFacts.column_Ok in H2 as [_ ?], H3 as [_ ?], H4 as [_ ?],
    H5 as [_ ?], H7 as [_ H7].
  unfold get_programs_array in H7. rewrite length_fmap in H7.
  repeat (split; [done|]).
  destruct (CsvFacts.put_spec _ _ _ _ Hel) as (_ & Hin & _).
  apply Forall_forall. intros i Hi. specialize (Hin i Hi).
  unfold Np.full in Hin. by rewrite length_replicate in Hin.
Qed.

(** Property X2. A call of [log] returns only on a consistent batch: the
    rewards are not empty, the best index is a program of the batch and a
    row of the token complexities, every elite index is in range, the
    lengths and the physical flags have one shape; when the log is saved,
    every column has [batch_size] entries. *)
Theorem log_returns_on_consistent_batch self fs e b r k nk lv self' fs' :
  log self fs e b r k nk lv = Ok (self', fs') ->
  r <> [] /\
  (exists i, Np.argmax r = Ok i /\ (i < length r)%nat /\
     (i < length (progs (programs b)))%nat /\
     (i < length (tokens_complexity (programs b)))%nat) /\
  Forall (fun i => (i < length r)%nat) k /\
  length (n_lengths (programs b)) = length (is_physical (programs b)) /\
  (do_save self = true ->
     length r = batch_size b /\
     length (n_complexity (programs b)) = batch_size b /\
     length (n_lengths (programs b)) = batch_size b /\
     length (is_physical (programs b)) = batch_size b /\
     length (progs (programs b)) = batch_size b).
Proof.
  intros H.
  destruct (log_steps _ _ _ _ _ _ _ _ _ _ H)
    as (idx & bp & h & hof & rk & m & row & Ra & Rta & lp & lu & pc & pr & pp
        & Hidx & Hbp & Hbest & Hrk & Hm & Hrow & Hlp & Hlu & Hpl & Hself
        & Hsave).
  split; [by eapply max_Ok_nonempty|].
  split.
  { exists idx. split; [done|]. split; [by apply TotalFacts.argmax_lt|].
    apply item_Ok in Hbp, Hrow. split; by eapply lookup_lt_Some. }
  split; [by eapply take_in_range|].
  split; [by apply compress_Ok in Hlp as [? _]|].
  intros Hdo. rewrite Hdo in Hsave.
  assert (batch self' = Some b /\ keep self' = Some k /\ R self' = Some r)
    as (Hb & Hk & HR) by (by rewrite Hself).
  destruct (save_log_columns _ _ _ _ _ _ Hb Hk HR Hsave)
    as (? & ? & ? & ? & ? & _).
  done.
Qed.

Lemma log_returns_on_consistent_batch_witness :
  log demo_init.1 demo_init.2 0 (demo_batch "p")
      [ratio 1 2; ratio 1 3; ratio 1 4] [0%nat] [] (ratio 1 10)
    = Ok (demo_first.1, demo_first.2) /\
  Forall (fun i => (i < 3)%nat) [0%nat] /\
  length (n_lengths (programs (demo_batch "p")))
    = length (is_physical (programs (demo_batch "p"))).
Proof.
  refine (conj demo_first_log _).
  destruct (log_returns_on_consistent_batch demo_init.1 demo_init.2 0
              (demo_batch "p") [ratio 1 2; ratio 1 3; ratio 1 4] [0%nat] []
              (ratio 1 10) demo_first.1 demo_first.2 demo_first_log)
    as (_ & _ & Hk & Hlen & _).
  exact (conj Hk Hlen).
Defined.

(** Property X3. A logger whose running history is empty (a fresh one, or one
    that [initialize] has emptied) raises on a call with a positive epoch,
    and one whose Pareto arrays do not exist yet raises on every epoch but
    0: the first call of a fresh logger has to be the one of epoch 0. *)
Theorem log_needs_epoch_zero self fs e b r k nk lv st :
  log self fs e b r k nk lv = Ok st ->
  (overall_max_R_history self = [] -> e <= 0) /\
  (pareto_unset self -> e = 0).
Proof.
  destruct st as [self' fs']. intros H.
  destruct (log_steps _ _ _ _ _ _ _ _ _ _ H)
    as (idx & bp & h & hof & rk & m & row & Ra & Rta & lp & lu & pc & pr & pp
        & Hidx & Hbp & Hbest & Hrk & Hm & Hrow & Hlp & Hlu & Hpl & Hself
        & Hsave).
  split.
  - intros Hnil. destruct (decide (e > 0)) as [Hpos|]; [|lia].
    destruct (BestFacts.log_best_pos _ _ _ _ _ _ _ Hpos Hbest)
      as (? & hm & _ & Hmax & _).
    rewrite Hnil in Hmax. discriminate.
  - intros (Hpc & _ & _).
    destruct (ParetoFacts.pareto_logger_steps _ _ Hpl)
      as (b' & rw & pc' & pr' & pp' & pr2 & pp2 & _ & _ & Hinit & _).
    cbn [epoch log_histories pareto_complexities] in Hinit.
    case_decide as He; [congruence|].
    destruct Hinit as (Hpc' & _). congruence.
Qed.

Lemma log_needs_epoch_zero_witness :
  log demo_init.1 demo_init.2 0 (demo_batch "p")
      [ratio 1 2; ratio 1 3; ratio 1 4] [0%nat] [] (ratio 1 10)
    = Ok (demo_first.1, demo_first.2) /\
  pareto_unset demo_init.1 /\ 0 = 0.
Proof.
  refine (conj demo_first_log _).
  destruct (log_needs_epoch_zero demo_init.1 demo_init.2 0
              (demo_batch "p") [ratio 1 2; ratio 1 3; ratio 1 4] [0%nat] []
              (ratio 1 10) (demo_first.1, demo_first.2) demo_first_log)
    as (_ & Hzero).
  exact (conj (GridFacts.init_unset _ _)
              (Hzero (GridFacts.init_unset _ _))).
Defined.

(** Property X4. A call with epoch 0 restarts the running best reward,
    the hall of fame and the Pareto arrays from the batch alone, whatever
    the logger held before: the two lists get one element, the maximum of
    the batch and its first best program, and the Pareto arrays are what
    the loop of [pareto_logger] makes of this batch from arrays of
    [10 * max_time_step] bins that hold NaN and no program. The twelve
    per-epoch histories are not restarted: each keeps what it held and
    gets one more element. *)
Theorem epoch_zero_restarts_best self fs b r k nk lv self' fs' :
  log self fs 0 b r k nk lv = Ok (self', fs') ->
  (exists m p i,
     Np.max r = Ok m /\ Np.argmax r = Ok i /\
     progs (programs b) !! i = Some p /\
     overall_max_R_history self' = [m] /\ hall_of_fame self' = [p]) /\
  (exists pr pp,
     pareto_loop b r 0 (Np.arange (10 * max_time_step b))
       (Np.full (10 * max_time_step b) NaN,
        Np.full (10 * max_time_step b) None) = Ok (pr, pp) /\
     pareto_complexities self' = Some (Np.arange (10 * max_time_step b)) /\
     pareto_rewards self' = Some pr /\ pareto_programs self' = Some pp) /\
  histories_appended self self' /\
  epochs_history self' = epochs_history self ++ [0].
Proof.
  intros H.
  destruct (log_histories_appended _ _ _ _ _ _ _ _ _ _ H) as [Happ Hep].
  destruct (log_steps _ _ _ _ _ _ _ _ _ _ H)
    as (idx & bp & h & hof & rk & m & row & Ra & Rta & lp & lu & pc & pr & pp
        & Hidx & Hbp & Hbest & Hrk & Hm & Hrow & Hlp & Hlu & Hpl & Hself
        & Hsave).
  destruct (BestFacts.log_best_zero _ _ _ _ _ _ Hbest)
    as (m' & p & Hm' & Hp & -> & ->).
  assert (m' = m) as -> by congruence.
  destruct (ParetoFacts.pareto_logger_steps _ _ Hpl)
    as (b' & rw & pc' & pr0 & pp0 & pr2 & pp2 & Hb' & HR' & Hinit & Hloop
        & Hself').
  cbn [epoch batch R log_histories] in Hinit, Hb', HR'.
  injection Hb' as <-. injection HR' as <-.
  rewrite decide_True in Hinit by done. destruct Hinit as (-> & -> & ->).
  rewrite arange_length in Hloop.
  split.
  { exists m, p, idx. rewrite Hself'. repeat (split; [done|]).
    split; [by apply item_Ok|done]. }
  split; [|done].
  exists pr2, pp2. split; [done|]. by rewrite Hself'.
Qed.

Lemma reset_last_log :
  log reset_before.1 reset_before.2 0 (demo_batch "r")
      [ratio 1 5; ratio 1 5; ratio 2 5] [2%nat] [] (ratio 1 10)
    = Ok (reset_final.1, reset_final.2).
Proof. vm_compute. reflexivity. Qed.

Lemma epoch_zero_restarts_best_witness :
  log reset_before.1 reset_before.2 0 (demo_batch "r")
      [ratio 1 5; ratio 1 5; ratio 2 5] [2%nat] [] (ratio 1 10)
    = Ok (reset_final.1, reset_final.2) /\
  overall_max_R_history reset_before.1 = [ratio 1 2; ratio 9 10] /\
  epochs_history reset_before.1 = [0; 1] /\
  (exists m p, overall_max_R_history reset_final.1 = [m] /\
               hall_of_fame reset_final.1 = [p]) /\
  epochs_history reset_final.1 = epochs_history reset_before.1 ++ [0].
Proof.
  refine (conj reset_last_log (conj _ (conj _ _)));
    [vm_compute; reflexivity|vm_compute; reflexivity|].
  destruct (epoch_zero_restarts_best reset_before.1 reset_before.2
              (demo_batch "r") [ratio 1 5; ratio 1 5; ratio 2 5] [2%nat] []
              (ratio 1 10) reset_final.1 reset_final.2 reset_last_log)
    as ((m & p & i & _ & _ & _ & Hh & Hhof) & _ & _ & Hep).
  refine (conj _ Hep). exists m, p. exact (conj Hh Hhof).
Defined.

Lemma save_log_other_files self fs fs' :
  save_log self fs = Ok fs' ->
  (forall q, save_path self <> Some q -> fs' !! q = fs !! q) /\
  (save_path self = None -> fs' = fs).
Proof.
  unfold save_log. intros H.
  inv_bind H as cb Hcb. inv_bind H as ck Hck. inv_bind H as ce Hce.
  inv_bind H as cr Hcr. inv_bind H as el Hel.
  inv_bind H as c1 H1. inv_bind H as c2 H2. inv_bind H as c3 H3.
  inv_bind H as c4 H4. inv_bind H as c5 H5. inv_bind H as c6 H6.
  inv_bind H as c7 H7. injection H as <-.
  unfold to_csv_a, to_csv_w. destruct (save_path self) as [p|].
  - split; [|done]. intros q Hq. assert (p <> q) by congruence.
    rewrite lookup_insert_ne by done.
    case_decide; [by rewrite lookup_insert_ne|done].
  - split; [|by case_decide]. intros q _. by case_decide.
Qed.

(** Property X5. The only file a call of [log] can change is the one at
    [save_path]; with [do_save] off, or without a path, the call writes
    nothing. The call changes neither [save_path] nor [do_save]. *)
Theorem log_writes_only_save_path self fs e b r k nk lv self' fs' :
  log self fs e b r k nk lv = Ok (self', fs') ->
  (forall q, save_path self <> Some q -> fs' !! q = fs !! q) /\
  (do_save self = false \/ save_path self = None -> fs' = fs) /\
  save_path self' = save_path self /\ do_save self' = do_save self.
Proof.
  intros H.
  destruct (log_steps _ _ _ _ _ _ _ _ _ _ H)
    as (idx & bp & h & hof & rk & m & row & Ra & Rta & lp & lu & pc & pr & pp
        & _ & _ & _ & _ & _ & _ & _ & _ & _ & Hself & Hsave).
  assert (save_path self' = save_path self) as Hpath by (by rewrite Hself).
  assert (do_save self' = do_save self) as Hdo by (by rewrite Hself).
  destruct (do_save self) eqn:Hd.
  - destruct (save_log_other_files _ _ _ Hsave) as [Hq Hnone].
    rewrite Hpath in Hq, Hnone.
    split; [done|]. split; [|done]. intros [|Hn]; [done|by apply Hnone].
  - subst fs'. by repeat split.
Qed.

Lemma log_writes_only_save_path_witness :
  log demo_init.1 demo_init.2 0 (demo_batch "p")
      [ratio 1 2; ratio 1 3; ratio 1 4] [0%nat] [] (ratio 1 10)
    = Ok (demo_first.1, demo_first.2) /\
  demo_first.2 !! "other.csv"%string = demo_init.2 !! "other.csv"%string.
Proof.
  refine (conj demo_first_log _).
  destruct (log_writes_only_save_path demo_init.1 demo_init.2 0
              (demo_batch "p") [ratio 1 2; ratio 1 3; ratio 1 4] [0%nat] []
              (ratio 1 10) demo_first.1 demo_first.2 demo_first_log)
    as (Hq & _).
  exact (Hq "other.csv"%string ltac:(discriminate)).
Defined.

Lemma select_filter {A} (a : list A) : forall mask,
  Np.select a mask = (filter (fun xb => xb.2 = true) (zip a mask)).*1.
Proof.
  induction a as [|x a IH]; intros [|[] mask]; try done;
    cbn [Np.select zip_with].
  - rewrite filter_cons_True by done. simpl. by rewrite IH.
  - rewrite filter_cons_False by (simpl; congruence). apply IH.
Qed.

Lemma select_negb_filter {A} (a : list A) : forall mask,
  Np.select a (negb <$> mask)
  = (filter (fun xb => xb.2 = false) (zip a mask)).*1.
Proof.
  induction a as [|x a IH]; intros [|[] mask]; try done;
    cbn [Np.select zip_with fmap list_fmap negb].
  - rewrite filter_cons_False by (simpl; congruence). apply IH.
  - rewrite filter_cons_True by done. simpl. by rewrite IH.
Qed.

Lemma select_partition {A} (a : list A) : forall mask,
  length a = length mask ->
  Np.select a mask ++ Np.select a (negb <$> mask) ≡ₚ a.
Proof.
  induction a as [|x a IH]; intros [|[] mask] Hlen; simpl in *; try done.
  - constructor. apply IH. lia.
  - rewrite <- Permutation_middle. constructor. apply IH. lia.
Qed.

Lemma select_count {A} (a : list A) : forall mask,
  length a = length mask ->
  length (Np.select a mask) = length (filter (fun b => b = true) mask).
Proof.
  induction a as [|x a IH]; intros [|[] mask] Hlen; try done;
    cbn [Np.select length] in *.
  - rewrite filter_cons_True by done. simpl. f_equal. apply IH. lia.
  - rewrite filter_cons_False by congruence. apply IH. lia.
Qed.

(** Property X6. A call appends to [lengths_of_physical] the lengths of the
    programs of the batch that are physical, to [lengths_of_unphysical]
    those of the others, in the order of the batch, and to [n_physical]
    the number of the former: the two arrays split the lengths of the
    batch. *)
Theorem log_splits_lengths self fs e b r k nk lv self' fs' :
  log self fs e b r k nk lv = Ok (self', fs') ->
  exists lp lu,
    lengths_of_physical self' = lengths_of_physical self ++ [lp] /\
    lengths_of_unphysical self' = lengths_of_unphysical self ++ [lu] /\
    n_physical self' = n_physical self ++ [length lp] /\
    lp = (filter (fun xb => xb.2 = true)
            (zip (n_lengths (programs b)) (is_physical (programs b)))).*1 /\
    lu = (filter (fun xb => xb.2 = false)
            (zip (n_lengths (programs b)) (is_physical (programs b)))).*1 /\
    lp ++ lu ≡ₚ n_lengths (programs b).
Proof.
  intros H.
  destruct (log_steps _ _ _ _ _ _ _ _ _ _ H)
    as (idx & bp & h & hof & rk & m & row & Ra & Rta & lp & lu & pc & pr & pp
        & _ & _ & _ & _ & _ & _ & Hlp & Hlu & _ & Hself & _).
  apply compress_Ok in Hlp as [Hlen ->]. apply compress_Ok in Hlu as [_ ->].
  eexists _, _. rewrite Hself. cbn [set_pareto log_histories
    lengths_of_physical lengths_of_unphysical n_physical].
  split; [reflexivity|]. split; [reflexivity|].
  split; [by rewrite (select_count _ _ Hlen)|].
  split; [apply select_filter|]. split; [apply select_negb_filter|].
  by apply select_partition.
Qed.

Lemma log_splits_lengths_witness :
  log demo_init.1 demo_init.2 0 (demo_batch "p")
      [ratio 1 2; ratio 1 3; ratio 1 4] [0%nat] [] (ratio 1 10)
    = Ok (demo_first.1, demo_first.2) /\
  exists lp lu,
    lengths_of_physical demo_first.1 = [lp] /\
    lengths_of_unphysical demo_first.1 = [lu] /\
    n_physical demo_first.1 = [length lp] /\
    lp ++ lu ≡ₚ [1; 1; 1]%nat.
Proof.
  refine (conj demo_first_log _).
  destruct (log_splits_lengths demo_init.1 demo_init.2 0
              (demo_batch "p") [ratio 1 2; ratio 1 3; ratio 1 4] [0%nat] []
              (ratio 1 10) demo_first.1 demo_first.2 demo_first_log)
    as (lp & lu & H1 & H2 & H3 & _ & _ & H4).
  exists lp, lu. exact (conj H1 (conj H2 (conj H3 H4))).
Defined.

Lemma argmax_from_first a : forall pre mp mi,
  nonan a -> isnan mp = false -> pre !! mi = Some mp ->
  (forall y, y ∈ pre -> leb y mp = true) ->
  (forall j y, (j < mi)%nat -> pre !! j = Some y -> ltb y mp = true) ->
  exists m, (pre ++ a) !! Np.argmax_from mp mi (length pre) a = Some m /\
    forall j y, (j < Np.argmax_from mp mi (length pre) a)%nat ->
      (pre ++ a) !! j = Some y -> ltb y m = true.
Proof.
  induction a as [|x a IH]; intros pre mp mi Ha Hmp Hmi Hle Hlt.
  - simpl. rewrite app_nil_r. eauto.
  - apply Forall_cons in Ha as [Hx Ha]. simpl.
    assert (length (pre ++ [x]) = S (length pre)) as Hlen
      by (rewrite length_app; simpl; lia).
    replace (pre ++ x :: a) with ((pre ++ [x]) ++ a)
      by (by rewrite <- app_assoc).
    rewrite <- Hlen.
    destruct (leb x mp) eqn:Hxmp.
    + apply IH; try done.
      * apply lookup_app_l_Some. done.
      * intros y [Hy|Hy%list_elem_of_singleton]%elem_of_app;
          [by apply Hle | by subst].
      * intros j y Hj Hy. apply (Hlt j y Hj).
        rewrite lookup_app_l in Hy; [done|].
        apply lookup_lt_Some in Hmi. lia.
    + rewrite Hx.
      assert (ltb mp x = true) as Hmx.
      { rewrite ltb_negb_leb by done. by rewrite Hxmp. }
      apply IH; try done.
      * rewrite lookup_app_r by lia. by rewrite Nat.sub_diag.
      * intros y [Hy|Hy%list_elem_of_singleton]%elem_of_app.
        -- apply ltb_leb. eapply leb_ltb_trans; [by apply Hle|done].
        -- subst. by apply leb_refl.
      * intros j y Hj Hy. rewrite lookup_app_l in Hy by lia.
        eapply leb_ltb_trans; [|exact Hmx].
        apply Hle. by eapply list_elem_of_lookup_2.
Qed.

Lemma argmax_first a i :
  nonan a -> Np.argmax a = Ok i ->
  forall j y m, (j < i)%nat -> a !! j = Some y -> a !! i = Some m ->
    ltb y m = true.
Proof.
  destruct a as [|x a]; [done|]. intros Ha [= <-] j y m Hj Hy Hm.
  pose proof Ha as Ha'. apply Forall_cons in Ha' as [Hx Ha'].
  rewrite Hx in Hj, Hm.
  destruct (argmax_from_first a [x] x 0%nat Ha' Hx eq_refl) as (m' & Hm' & Hf).
  - by intros y' ->%list_elem_of_singleton; apply leb_refl.
  - intros; lia.
  - simpl in Hm', Hf. assert (m' = m) as -> by congruence. by eapply Hf.
Qed.

(** Property X7. When no reward of the batch is NaN, [best_prog_epoch] is the
    first program of the batch whose reward is the greatest of the batch
    (every program before it has a strictly smaller reward), and this
    reward is what the call appends to [max_R_history]. *)
Theorem best_prog_epoch_is_first_best self fs e b r k nk lv self' fs' :
  nonan r ->
  log self fs e b r k nk lv = Ok (self', fs') ->
  exists i p m,
    best_prog_epoch self' = Some p /\
    progs (programs b) !! i = Some p /\
    r !! i = Some m /\ is_max r m /\
    max_R_history self' = max_R_history self ++ [m] /\
    forall j x, (j < i)%nat -> r !! j = Some x -> ltb x m = true.
Proof.
  intros Hr H.
  destruct (log_steps _ _ _ _ _ _ _ _ _ _ H)
    as (idx & bp & h & hof & rk & m & row & Ra & Rta & lp & lu & pc & pr & pp
        & Hidx & Hbp & _ & _ & Hm & _ & _ & _ & _ & Hself & _).
  exists idx, bp, m. rewrite Hself. split; [reflexivity|].
  split; [by apply item_Ok|].
  pose proof (argmax_max _ _ _ Hr Hidx Hm) as Him.
  split; [done|]. split; [by apply max_is_max|]. split; [reflexivity|].
  intros j x Hj Hx. by eapply argmax_first.
Qed.

Lemma best_prog_epoch_is_first_best_witness :
  nonan [ratio 1 2; ratio 1 3; ratio 1 4] /\
  log demo_init.1 demo_init.2 0 (demo_batch "p")
      [ratio 1 2; ratio 1 3; ratio 1 4] [0%nat] [] (ratio 1 10)
    = Ok (demo_first.1, demo_first.2) /\
  exists p m, best_prog_epoch demo_first.1 = Some p /\
              is_max [ratio 1 2; ratio 1 3; ratio 1 4] m.
Proof.
  assert (nonan [ratio 1 2; ratio 1 3; ratio 1 4]) as Hr
    by (repeat constructor).
  refine (conj Hr (conj demo_first_log _)).
  destruct (best_prog_epoch_is_first_best demo_init.1 demo_init.2 0
              (demo_batch "p") [ratio 1 2; ratio 1 3; ratio 1 4] [0%nat] []
              (ratio 1 10) demo_first.1 demo_first.2 Hr demo_first_log)
    as (i & p & m & Hp & _ & _ & Hm & _).
  exists p, m. exact (conj Hp Hm).
Defined.

End CallTheorems.

(** ** Runs from a fresh logger *)

Module RunFacts.

Import Float FloatFacts NpFacts RunLogger LogFacts CallFacts BestFacts.

Lemma log_best_neg self e b r idx :
  e < 0 ->
  log_best self e b r idx
  = Ok (overall_max_R_history self, hall_of_fame self).
Proof.
  intros He. unfold log_best.
  rewrite decide_False by lia. cbn [mbind result_bind].
  by rewrite decide_False by lia.
Qed.

(** A call on a logger without Pareto arrays returns only at epoch 0. *)
Lemma log_call_unset_epoch l fs c st :
  pareto_unset l -> log_call (l, fs) c = Ok st -> call_epoch c = 0.
Proof.
  destruct st as [l' fs']. intros (Hpc & _ & _) H.
  destruct (ParetoFacts.log_call_pareto _ _ _ _ _ H)
    as (s1 & _ & _ & He & Hpc1 & _ & _ & Hpl).
  destruct (ParetoFacts.pareto_logger_steps _ _ Hpl)
    as (b' & rw & pc' & pr' & pp' & pr2 & pp2 & _ & _ & Hinit & _).
  rewrite He in Hinit. case_decide as He0; [congruence|].
  destruct Hinit as (Hpc' & _). congruence.
Qed.

(** The hall of fame after a call: not empty when the call has epoch 0 or
    when it was not empty before, and made of programs of the batch and
    of programs it held before. *)
Lemma log_call_hof l fs c l' fs' :
  log_call (l, fs) c = Ok (l', fs') ->
  call_epoch c = 0 \/ hall_of_fame l <> [] ->
  hall_of_fame l' <> [] /\
  forall p, p ∈ hall_of_fame l' ->
    p ∈ hall_of_fame l \/ p ∈ progs (programs (call_batch c)).
Proof.
  intros H Hor.
  destruct (log_call_best _ _ _ _ _ H) as (idx & Hidx & Hbest).
  destruct (Z.lt_trichotomy (call_epoch c) 0) as [Hneg|[Hz|Hpos]].
  - rewrite log_best_neg in Hbest by done. injection Hbest as _ <-.
    destruct Hor as [|Hne]; [lia|]. split; [done|]. by left.
  - rewrite Hz in Hbest.
    destruct (log_best_zero _ _ _ _ _ _ Hbest) as (m & p & _ & Hp & _ & ->).
    split; [done|]. intros q ->%list_elem_of_singleton. right.
    apply item_Ok in Hp. by eapply list_elem_of_lookup_2.
  - apply Z.lt_gt in Hpos.
    destruct (log_best_pos _ _ _ _ _ _ _ Hpos Hbest)
      as (m & hm & _ & _ & Hif).
    destruct (gtb m hm).
    + destruct Hif as (p & Hp & _ & ->). split.
      * by destruct (hall_of_fame l).
      * intros q [Hq|Hq%list_elem_of_singleton]%elem_of_app; [by left|].
        subst q. right. apply item_Ok in Hp. by eapply list_elem_of_lookup_2.
    + destruct Hif as (x & _ & _ & ->).
      destruct Hor as [|Hne]; [lia|]. split; [done|]. by left.
Qed.

Lemma run_hof path save fs0 cs : forall st,
  run (RunLogger.init path save, fs0) cs = Ok st -> cs <> [] ->
  hall_of_fame st.1 <> [] /\
  forall p, p ∈ hall_of_fame st.1 ->
    exists c, c ∈ cs /\ p ∈ progs (programs (call_batch c)).
Proof.
  induction cs as [|c cs IH] using rev_ind; [done|].
  intros [l' fs'] Hrun _. apply run_snoc in Hrun as ([l1 fs1] & Hrun & Hc).
  destruct cs as [|c0 cs0].
  - simpl in Hrun. injection Hrun as <- <-.
    pose proof (log_call_unset_epoch _ _ _ _ (GridFacts.init_unset _ _) Hc).
    destruct (log_call_hof _ _ _ _ _ Hc) as [Hne Hin]; [by left|].
    split; [done|]. intros p Hp. exists c.
    split; [by apply list_elem_of_singleton|].
    by destruct (Hin p Hp) as [?%elem_of_nil|].
  - destruct (IH _ Hrun) as [Hne1 Hin1]; [done|].
    destruct (log_call_hof _ _ _ _ _ Hc) as [Hne Hin]; [by right|].
    split; [done|]. intros p Hp. destruct (Hin p Hp) as [Hold|Hnew].
    + destruct (Hin1 p Hold) as (c' & ? & ?). exists c'. split; [|done].
      apply elem_of_app. by left.
    + exists c. split; [|done]. apply elem_of_app. right.
      by apply list_elem_of_singleton.
Qed.

Lemma run_max_R_history cs : forall st st',
  run st cs = Ok st' ->
  exists ms, max_R_history st'.1 = max_R_history st.1 ++ ms /\
    Forall2 (fun c m => Np.max (call_rewards c) = Ok m) cs ms.
Proof.
  induction cs as [|c cs IH]; intros st st' H.
  - injection H as <-. exists []. by rewrite app_nil_r.
  - cbn [run] in H. inv_bind H as [l1 fs1] Hc.
    destruct st as [l fs]. unfold log_call in Hc. cbn [fst snd] in Hc.
    destruct (log_steps _ _ _ _ _ _ _ _ _ _ Hc)
      as (idx & bp & h & hof & rk & m & row & Ra & Rta & lp & lu & pc & pr
          & pp & _ & _ & _ & _ & Hm & _ & _ & _ & _ & Hself & _).
    destruct (IH _ _ H) as (ms & Hms & HF).
    exists (m :: ms). split; [|by constructor].
    rewrite Hms, Hself. cbn. by rewrite <- app_assoc.
Qed.

End RunFacts.

Module RunTheorems.

Import Float FloatFacts NpFacts RunLogger LogFacts CallFacts BestFacts
       RunFacts.

(** Property X8. [best_prog] raises an [IndexError] on a logger that has not
    logged yet; after any calls of [log] that returned, whatever their
    epochs and rewards, it returns a program of one of the batches. *)
Theorem best_prog_after_run path save fs0 cs self fs :
  run (RunLogger.init path save, fs0) cs = Ok (self, fs) ->
  (cs = [] -> best_prog self = Raise IndexError) /\
  (cs <> [] ->
     exists p c, best_prog self = Ok p /\ c ∈ cs /\
                 p ∈ progs (programs (call_batch c))).
Proof.
  intros Hrun. split.
  - intros ->. by injection Hrun as <- <-.
  - intros Hne. destruct (run_hof _ _ _ _ _ Hrun Hne) as [Hhof Hin].
    cbn [fst] in Hhof, Hin. unfold best_prog, item_last.
    destruct (last (hall_of_fame self)) as [p|] eqn:Hlast.
    + destruct (Hin p) as (c & ? & ?).
      { rewrite last_lookup in Hlast. by eapply list_elem_of_lookup_2. }
      by exists p, c.
    + by apply last_None in Hlast.
Qed.

Lemma best_prog_after_run_witness :
  run (RunLogger.init (Some "run_log.csv"%string) true, ∅) demo_calls
    = Ok (demo_final.1, demo_final.2) /\
  exists p, best_prog demo_final.1 = Ok p.
Proof.
  refine (conj DemoFacts.demo_run_pair _).
  destruct (best_prog_after_run (Some "run_log.csv"%string) true ∅
              demo_calls demo_final.1 demo_final.2 DemoFacts.demo_run_pair)
    as (_ & Hsome).
  destruct (Hsome ltac:(discriminate)) as (p & _ & Hp & _).
  exists p. exact Hp.
Defined.

End RunTheorems.

(** ** The two curves of the best reward *)

Module CurveTheorems.

Import Float FloatFacts NpFacts RunLogger LogFacts CallFacts BestFacts
       RunFacts.

(** Property X9. After a training loop on an initialised logger (epochs 0, 1,
    2, ..., no NaN reward), [max_R_history[k]] is the greatest reward of
    the batch of epoch [k], and [overall_max_R_history[k]] is the greatest
    of [max_R_history[0..k]]: the curve of the overall best is the running
    maximum of the curve of the best of epoch. *)
Theorem overall_best_is_running_max_of_epoch_best l fs0 cs self fs :
  in_order cs -> rewards_nonan cs ->
  run (initialize l, fs0) cs = Ok (self, fs) ->
  length (max_R_history self) = length cs /\
  forall k c, cs !! k = Some c ->
    exists m o,
      is_max (call_rewards c) m /\
      max_R_history self !! k = Some m /\
      overall_max_R_history self !! k = Some o /\
      is_max (take (S k) (max_R_history self)) o.
Proof.
  intros Hord Hnan Hrun.
  destruct (run_max_R_history _ _ _ Hrun) as (ms & Hms & HF).
  cbn in Hms. rewrite Hms. clear Hms.
  split; [symmetry; by eapply Forall2_length|].
  intros k c Hc.
  assert (cs <> []) as Hne by (intros ->; done).
  pose proof (BestTheorems.run_best_inv _ _ _ Hord Hne Hnan Hrun)
    as (_ & Hk & _).
  cbn [fst] in Hk.
  destruct (Hk k) as (o & Ho & [(c' & Hc' & Hmax') Hle]);
    [by eapply lookup_lt_Some|].
  destruct (Forall2_lookup_l _ _ _ _ _ HF Hc) as (m & Hm & Hmax).
  exists m, o. split.
  { apply max_is_max; [|done].
    unfold rewards_nonan in Hnan. rewrite Forall_forall in Hnan.
    apply Hnan. by eapply list_elem_of_lookup_2. }
  split; [done|]. split; [done|]. split.
  - apply list_elem_of_lookup in Hc' as [j Hj].
    apply lookup_take_Some in Hj as [Hj Hlt].
    destruct (Forall2_lookup_l _ _ _ _ _ HF Hj) as (mj & Hmj & Hmaxj).
    assert (mj = o) as -> by congruence.
    apply (list_elem_of_lookup_2 _ j). by apply lookup_take_Some.
  - intros x [j Hj]%list_elem_of_lookup.
    apply lookup_take_Some in Hj as [Hj Hlt].
    destruct (Forall2_lookup_r _ _ _ _ _ HF Hj) as (cj & Hcj & Hmaxj).
    destruct (Hle cj) as (m' & Hm' & Hle').
    { apply (list_elem_of_lookup_2 _ j). by apply lookup_take_Some. }
    congruence.
Qed.

Lemma overall_best_is_running_max_of_epoch_best_witness :
  in_order demo_calls /\ rewards_nonan demo_calls /\
  run (initialize demo_init.1, demo_init.2) demo_calls
    = Ok (demo_final.1, demo_final.2) /\
  length (max_R_history demo_final.1) = length demo_calls.
Proof.
  refine (conj DemoFacts.demo_in_order
            (conj DemoFacts.demo_rewards_nonan
               (conj DemoFacts.demo_run_pair _))).
  destruct (overall_best_is_running_max_of_epoch_best demo_init.1
              demo_init.2 demo_calls demo_final.1 demo_final.2
              DemoFacts.demo_in_order DemoFacts.demo_rewards_nonan
              DemoFacts.demo_run_pair) as (Hlen & _).
  exact Hlen.
Defined.

(** Property X10. After a training loop (epochs 0, 1, 2, ..., no NaN reward)
    the programs of the hall of fame were logged with strictly increasing
    rewards, and these rewards are exactly the values that
    [overall_max_R_history] takes; the last one is the current overall
    best. The hall of fame has at most one program per epoch. *)
Theorem hall_of_fame_strictly_improves st0 cs self fs :
  in_order cs -> cs <> [] -> rewards_nonan cs ->
  run st0 cs = Ok (self, fs) ->
  exists rs,
    Forall2 (logged_with cs) (hall_of_fame self) rs /\
    StronglySorted Float.lt rs /\
    last rs = last (overall_max_R_history self) /\
    (forall r, r ∈ rs <-> r ∈ overall_max_R_history self) /\
    (length (hall_of_fame self) <= length cs)%nat.
Proof.
  revert self fs. induction cs as [|c cs IH] using rev_ind; [done|].
  intros self fs Hord _ Hnan Hrun.
  apply run_snoc in Hrun as ([l1 fs1] & Hrun & Hc).
  apply in_order_snoc in Hord as [Hord He].
  apply rewards_nonan_snoc in Hnan as [Hnan Hcn].
  destruct (log_call_best _ _ _ _ _ Hc) as (idx & Hidx & Hbest).
  assert (c ∈ cs ++ [c]) as Hin
    by (apply elem_of_app; right; by apply list_elem_of_singleton).
  destruct (decide (cs = [])) as [->|Hne].
  - simpl in He. rewrite He in Hbest.
    destruct (log_best_zero _ _ _ _ _ _ Hbest)
      as (m & p & Hm & Hp & Hh & Hhof).
    rewrite Hh, Hhof. exists [m]. split.
    { constructor; [|constructor]. by eapply argmax_logged. }
    split; [repeat constructor|]. by repeat split.
  - destruct (IH _ _ Hord Hne Hnan Hrun)
      as (rs & HF & Hsort & Hlast & Hiff & Hlen).
    pose proof (BestTheorems.run_best_inv _ _ _ Hord Hne Hnan Hrun) as Hinv.
    cbn [fst] in Hinv.
    destruct (best_inv_last _ _ Hne Hinv) as (m0 & Hl0 & Hrm0 & Hmax0).
    destruct Hinv as (Hlen1 & Hk & _).
    assert (call_epoch c > 0) as Hpos
      by (rewrite He; destruct cs; [done|simpl; lia]).
    destruct (log_best_pos _ _ _ _ _ _ _ Hpos Hbest)
      as (m & hm & Hm & Hhm & Hif).
    assert (hm = m0) as -> by congruence.
    assert (Forall2 (logged_with (cs ++ [c])) (hall_of_fame l1) rs) as HF'.
    { eapply Forall2_impl; [exact HF|]. intros p r.
      apply logged_with_mono. intros x Hx. apply elem_of_app. by left. }
    destruct (gtb m m0) eqn:Hgt.
    + destruct Hif as (p & Hp & -> & ->). exists (rs ++ [m]). split.
      { apply Forall2_app; [done|]. constructor; [|constructor].
        by eapply argmax_logged. }
      split.
      { apply StronglySorted_app. split; [|split; [done|repeat constructor]].
        intros x1 x2 Hx1 ->%list_elem_of_singleton.
        apply Hiff in Hx1. apply list_elem_of_lookup in Hx1 as [k Hx1].
        destruct (Hk k) as (mk & Hmk & Hrk).
        { rewrite <- Hlen1. by eapply lookup_lt_Some. }
        assert (mk = x1) as -> by congruence.
        eapply leb_ltb_trans; [|exact Hgt].
        eapply running_max_mono; [|exact Hrk|exact Hrm0].
        apply subseteq_take. }
      split; [by rewrite !last_snoc|].
      split.
      { intros r. rewrite !elem_of_app, Hiff. done. }
      rewrite !length_app. simpl.
      apply Forall2_length in HF. lia.
    + destruct Hif as (x & Hx & -> & ->). exists rs.
      split; [done|]. split; [done|].
      split; [rewrite last_snoc; congruence|].
      split.
      { intros r. rewrite elem_of_app, Hiff, list_elem_of_singleton.
        split; [by left|]. intros [|Hr]; [done|]. subst r.
        rewrite last_lookup in Hx. by eapply list_elem_of_lookup_2. }
      rewrite length_app. simpl. lia.
Qed.

Lemma hall_of_fame_strictly_improves_witness :
  in_order demo_calls /\ rewards_nonan demo_calls /\
  run demo_init demo_calls = Ok (demo_final.1, demo_final.2) /\
  exists rs, Forall2 (logged_with demo_calls) (hall_of_fame demo_final.1) rs /\
             StronglySorted Float.lt rs.
Proof.
  refine (conj DemoFacts.demo_in_order
            (conj DemoFacts.demo_rewards_nonan
               (conj DemoFacts.demo_run_pair _))).
  destruct (hall_of_fame_strictly_improves demo_init demo_calls
              demo_final.1 demo_final.2 DemoFacts.demo_in_order
              ltac:(discriminate) DemoFacts.demo_rewards_nonan
              DemoFacts.demo_run_pair)
    as (rs & HF & Hs & _).
  exists rs. exact (conj HF Hs).
Defined.

End CurveTheorems.

(** ** The file of the log after a run *)

Module CsvRunTheorems.

Import Float FloatFacts NpFacts RunLogger LogFacts CallFacts RunFacts.

(** What a call that saves leaves in the file of the log. *)
Lemma log_call_csv l fs c l' fs' path :
  do_save l = true -> save_path l = Some path ->
  log_call (l, fs) c = Ok (l', fs') ->
  do_save l' = true /\ save_path l' = Some path /\
  exists rows,
    length rows = batch_size (call_batch c) /\
    Forall (fun r => row_epoch r = call_epoch c) rows /\
    fs' !! path
      = Some ((if decide (call_epoch c = 0) then [Header log_columns]
               else default [] (fs !! path)) ++ (Row <$> rows)).
Proof.
  intros Hdo Hpath H. unfold log_call in H. cbn [fst snd] in H.
  destruct (log_steps _ _ _ _ _ _ _ _ _ _ H)
    as (idx & bp & h & hof & rk & m & row & Ra & Rta & lp & lu & pc & pr & pp
        & _ & _ & _ & _ & _ & _ & _ & _ & _ & Hself & Hsave).
  rewrite Hdo in Hsave.
  assert (do_save l' = true /\ save_path l' = Some path /\
          epoch l' = Some (call_epoch c) /\ batch l' = Some (call_batch c) /\
          keep l' = Some (call_keep c) /\ R l' = Some (call_rewards c))
    as (Hdo' & Hpath' & He & Hb & Hk & HR) by (by rewrite Hself).
  split; [done|]. split; [done|].
  destruct (CsvFacts.save_log_spec _ _ _ _ _ _ _ _ Hpath' He Hb Hk HR Hsave)
    as (rows & Hlen & -> & Hrows).
  exists rows. split; [done|]. split; [|by rewrite lookup_insert_eq].
  apply Forall_lookup. intros i r Hi.
  destruct (Hrows i) as (rw & cx & ln & ph & p & _ & _ & _ & _ & _ & Hrow).
  { rewrite <- Hlen. by eapply lookup_lt_Some. }
  rewrite Hrow in Hi. by injection Hi as <-.
Qed.

(** Property X11. The file of the log after the calls of a logger that saves:
    the header line, then, for every call since the most recent call with
    epoch 0, in the order of the calls, [batch_size] rows that carry the
    epoch of the call. A call with epoch 0 drops what the file held. *)
Theorem csv_holds_calls_since_reset path fs0 cs self fs :
  run (RunLogger.init (Some path) true, fs0) cs = Ok (self, fs) ->
  cs <> [] ->
  exists rowss,
    fs !! path = Some (Header log_columns :: (Row <$> concat rowss)) /\
    Forall2 (fun c rows =>
               length rows = batch_size (call_batch c) /\
               Forall (fun r => row_epoch r = call_epoch c) rows)
            (since_reset cs) rowss.
Proof.
  intros Hrun Hne.
  cut (do_save self = true /\ save_path self = Some path /\
       exists rowss,
         fs !! path = Some (Header log_columns :: (Row <$> concat rowss)) /\
         Forall2 (fun c rows =>
                    length rows = batch_size (call_batch c) /\
                    Forall (fun r => row_epoch r = call_epoch c) rows)
                 (since_reset cs) rowss).
  { by intros (_ & _ & ?). }
  revert self fs Hrun Hne.
  induction cs as [|c cs IH] using rev_ind; [done|].
  intros self fs Hrun _.
  apply run_snoc in Hrun as ([l1 fs1] & Hrun & Hc).
  rewrite ParetoFacts.since_reset_snoc.
  destruct (decide (cs = [])) as [->|Hne].
  - injection Hrun as <- <-.
    pose proof (log_call_unset_epoch _ _ _ _ (GridFacts.init_unset _ _) Hc)
      as He.
    destruct (log_call_csv (init (Some path) true) _ _ _ _ path eq_refl
                eq_refl Hc)
      as (Hdo & Hpath & rows & Hlen & Hep & Hfile).
    rewrite decide_True in Hfile by done. rewrite decide_True by done.
    split; [done|]. split; [done|]. exists [rows].
    split; [by rewrite Hfile; simpl; rewrite app_nil_r|].
    by repeat constructor.
  - destruct (IH _ _ Hrun Hne) as (Hdo1 & Hpath1 & rowss & Hfile1 & HF).
    destruct (log_call_csv _ _ _ _ _ path Hdo1 Hpath1 Hc)
      as (Hdo & Hpath & rows & Hlen & Hep & Hfile).
    split; [done|]. split; [done|]. case_decide as He.
    + exists [rows].
      split; [by rewrite Hfile; simpl; rewrite app_nil_r|].
      by repeat constructor.
    + exists (rowss ++ [rows]). split.
      * rewrite Hfile, Hfile1. simpl.
        by rewrite concat_app, fmap_app; simpl; rewrite app_nil_r.
      * apply Forall2_app; [done|]. by repeat constructor.
Qed.

Lemma csv_holds_calls_since_reset_witness :
  run (RunLogger.init (Some "run_log.csv"%string) true, ∅) demo_calls
    = Ok (demo_final.1, demo_final.2) /\
  exists rowss,
    demo_final.2 !! "run_log.csv"%string
      = Some (Header log_columns :: (Row <$> concat rowss)) /\
    length rowss = length (since_reset demo_calls).
Proof.
  refine (conj DemoFacts.demo_run_pair _).
  destruct (csv_holds_calls_since_reset "run_log.csv"%string ∅ demo_calls
              demo_final.1 demo_final.2 DemoFacts.demo_run_pair
              ltac:(discriminate))
    as (rowss & Hfile & HF).
  exists rowss. refine (conj Hfile _). symmetry.
  exact (Forall2_length _ _ _ HF).
Defined.

End CsvRunTheorems.

(** ** The programs of the Pareto arrays *)

Module BinFacts.

Import Float FloatFacts NpFacts RunLogger LogFacts ParetoFacts CallFacts.

(** One bin of [pareto_logger]: the bin [i] keeps what it held, or takes
    a program of the batch whose complexity rounds to [c], with its
    reward, which is not below the one the bin held. *)
Lemma pareto_step_update b rw i c pr pp pr' pp' :
  pareto_step b rw i c (pr, pp) = Ok (pr', pp') ->
  length pr' = length pr /\ length pp' = length pp /\
  (forall j, j <> i -> pr' !! j = pr !! j /\ pp' !! j = pp !! j) /\
  ((pr' !! i = pr !! i /\ pp' !! i = pp !! i) \/
   exists cur r p j x,
     pr !! i = Some cur /\ pr' !! i = Some r /\ pp' !! i = Some (Some p) /\
     leb cur r || isnan cur = true /\
     progs (programs b) !! j = Some p /\ rw !! j = Some r /\
     n_complexity (programs b) !! j = Some x /\
     eqb (round x) (of_Z c) = true).
Proof.
  unfold pareto_step.
  set (cx := n_complexity (programs b)).
  set (matches := Np.argwhere (have_c cx c)). case_decide as Hlen.
  - intros H. inv_bind H as rs Hrs. inv_bind H as k Hk.
    inv_bind H as jmax Hjmax. inv_bind H as max_r Hmax_r.
    inv_bind H as cur Hcur.
    apply item_Ok in Hjmax, Hmax_r, Hcur.
    destruct (leb cur max_r || isnan cur) eqn:E.
    + inv_bind H as p Hp. inv_bind H as pp2 Hpp2. inv_bind H as pr2 Hpr2.
      injection H as <- <-. apply item_Ok in Hp.
      apply setitem_Ok in Hpp2 as [-> Hi2], Hpr2 as [-> Hi1].
      rewrite !length_insert. split; [done|]. split; [done|]. split.
      * intros j Hj. by rewrite !list_lookup_insert_ne.
      * right.
        assert (have_c cx c !! jmax = Some true) as Hmask.
        { apply argwhere_spec. by eapply list_elem_of_lookup_2. }
        unfold have_c in Hmask. rewrite list_lookup_fmap in Hmask.
        destruct (cx !! jmax) as [x|] eqn:Hx; [|done].
        injection Hmask as Hmask.
        exists cur, max_r, p, jmax, x.
        rewrite !list_lookup_insert_eq by done. by repeat split.
    + injection H as <- <-. repeat (split; [done|]). by left.
  - intros [= <- <-]. repeat (split; [done|]). by left.
Qed.

(** The loop of [pareto_logger] over the bins [i0, i0 + 1, ...]. *)
Lemma pareto_loop_update b rw : forall cs i0 pr pp pr' pp',
  pareto_loop b rw i0 cs (pr, pp) = Ok (pr', pp') ->
  length pr' = length pr /\ length pp' = length pp /\
  forall i,
    (pr' !! i = pr !! i /\ pp' !! i = pp !! i) \/
    exists k c cur r p j x,
      i = (i0 + k)%nat /\ cs !! k = Some c /\
      pr !! i = Some cur /\ pr' !! i = Some r /\ pp' !! i = Some (Some p) /\
      leb cur r || isnan cur = true /\
      progs (programs b) !! j = Some p /\ rw !! j = Some r /\
      n_complexity (programs b) !! j = Some x /\
      eqb (round x) (of_Z c) = true.
Proof.
  induction cs as [|c cs IH]; intros i0 pr pp pr' pp' H; simpl in H.
  - injection H as <- <-. repeat (split; [done|]). by left.
  - inv_bind H as [pr1 pp1] Hstep.
    destruct (pareto_step_update _ _ _ _ _ _ _ _ Hstep)
      as (Hl1 & Hl2 & Hother & Hbin).
    destruct (IH _ _ _ _ _ H) as (Hl1' & Hl2' & Hrest).
    split; [congruence|]. split; [congruence|]. intros i.
    destruct (Hrest i)
      as [[Hr Hp]|(k & c' & cur & r & p & j & x & -> & Hk & Hcur & Hrest')].
    + destruct (decide (i = i0)) as [->|Hne].
      * destruct Hbin
          as [[Hr1 Hp1]|(cur & r & p & j & x & Hcur & Hr1 & Hp1 & Hup & Hpj
                        & Hrj & Hxj & Hround)].
        -- left. split; congruence.
        -- right. exists 0%nat, c, cur, r, p, j, x.
           rewrite Nat.add_0_r. rewrite Hr, Hp. by repeat split.
      * left. destruct (Hother i Hne). split; congruence.
    + right. exists (S k), c', cur, r, p, j, x.
      destruct (Hother (S i0 + k)%nat ltac:(lia)) as [Ho _].
      split; [lia|]. split; [done|]. split; [congruence|]. done.
Qed.

Lemma arange_lookup_Some n i c : Np.arange n !! i = Some c -> c = Z.of_nat i.
Proof.
  intros H. pose proof (lookup_lt_Some _ _ _ H) as Hi.
  rewrite arange_length in Hi. rewrite arange_lookup in H by done. congruence.
Qed.

Lemma logged_in_bin_mono cs1 cs2 c p r :
  cs1 ⊆ cs2 -> logged_in_bin cs1 c p r -> logged_in_bin cs2 c p r.
Proof.
  intros Hsub (call & j & x & Hin & H). exists call, j, x.
  split; [by apply Hsub|done].
Qed.

(** After a run that contains a call with epoch 0, every bin of the
    Pareto arrays is empty (NaN, no program) or holds a program that was
    logged since the most recent such call, with its reward. *)
Lemma run_bins_inv st0 cs st :
  rewards_nonan cs -> run st0 cs = Ok st ->
  forall c0 rest, since_reset cs = c0 :: rest -> call_epoch c0 = 0 ->
  exists pr pp,
    pareto_rewards st.1 = Some pr /\ pareto_programs st.1 = Some pp /\
    length pp = length pr /\
    forall i r op, pr !! i = Some r -> pp !! i = Some op ->
      match op with
      | None => r = NaN
      | Some p =>
          isnan r = false /\ logged_in_bin (c0 :: rest) (Z.of_nat i) p r
      end.
Proof.
  revert st. induction cs as [|c cs IH] using rev_ind; [done|].
  intros [l' fs'] Hnn Hrun c0 rest Hsr He0.
  pose proof Hnn as Hnn0.
  apply rewards_nonan_snoc in Hnn as [Hnn Hc].
  apply run_snoc in Hrun as ([l1 fs1] & Hrun & Hlog).
  apply log_call_pareto in Hlog
    as (self1 & Hb & HR & He & Hpc & Hpr & Hpp & Hpl).
  apply pareto_logger_steps in Hpl
    as (b' & rw' & pc & pr0 & pp0 & pr' & pp' & Hb' & HR' & Hinit & Hloop
        & ->).
  assert (b' = call_batch c) as -> by congruence.
  assert (rw' = call_rewards c) as -> by congruence.
  destruct (pareto_loop_update _ _ _ _ _ _ _ _ Hloop) as (Hl1 & Hl2 & Hbins).
  exists pr', pp'. split; [done|]. split; [done|].
  assert (c ∈ cs ++ [c]) as Hin
    by (apply elem_of_app; right; by apply list_elem_of_singleton).
  unfold nonan in Hc. rewrite Forall_forall in Hc.
  rewrite since_reset_snoc in Hsr. case_decide as Hz.
  - injection Hsr as <- <-. rewrite Hz in He.
    rewrite decide_True in Hinit by done. destruct Hinit as (-> & -> & ->).
    unfold Np.full in *. rewrite !length_replicate in *.
    split; [congruence|]. intros i r op Hr Hop.
    destruct (Hbins i)
      as [[Hr' Hp']|(k & c' & cur & r2 & p & j & x & Hi & Hk & Hcur & Hr2
                      & Hp2 & _ & Hp & Hrw & Hx & Hround)].
    + rewrite Hr' in Hr. rewrite Hp' in Hop.
      apply lookup_replicate in Hr as [-> _].
      by apply lookup_replicate in Hop as [-> _].
    + simpl in Hi. subst k. apply arange_lookup_Some in Hk as ->.
      rewrite Hr2 in Hr. injection Hr as <-.
      rewrite Hp2 in Hop. injection Hop as <-.
      split; [apply Hc; by eapply list_elem_of_lookup_2|].
      exists c, j, x. split; [by apply list_elem_of_singleton|done].
  - destruct (since_reset cs) as [|c1 rest1] eqn:Esr.
    { simpl in Hsr. injection Hsr as <- <-. done. }
    simpl in Hsr. injection Hsr as <- <-.
    destruct (IH (l1, fs1) Hnn Hrun c1 rest1 eq_refl He0)
      as (pr1 & pp1 & Hpr1 & Hpp1 & Hlen & Hinv).
    destruct (run_pareto_inv _ _ _ Hnn Hrun c1 rest1 Esr He0)
      as [(pr1' & pp1' & Hgrid & _) _].
    cbn [fst] in Hpr1, Hpp1, Hgrid.
    rewrite decide_False in Hinit by (rewrite He; congruence).
    destruct Hinit as (Hpc' & Hpr' & Hpp').
    assert (pc = Np.arange (10 * max_time_step (call_batch c1))) as ->
      by congruence.
    assert (pr0 = pr1) as -> by congruence.
    assert (pp0 = pp1) as -> by congruence.
    split; [congruence|]. intros i r op Hr Hop.
    destruct (Hbins i)
      as [[Hr' Hp']|(k & c' & cur & r2 & p & j & x & Hi & Hk & Hcur & Hr2
                      & Hp2 & _ & Hp & Hrw & Hx & Hround)].
    + rewrite Hr' in Hr. rewrite Hp' in Hop.
      specialize (Hinv i r op Hr Hop). destruct op as [p|]; [|done].
      destruct Hinv as [? Hlog]. split; [done|].
      eapply logged_in_bin_mono; [|exact Hlog].
      intros y Hy. change (c1 :: rest1 ++ [c]) with ((c1 :: rest1) ++ [c]).
      apply elem_of_app. by left.
    + simpl in Hi. subst k. apply arange_lookup_Some in Hk as ->.
      rewrite Hr2 in Hr. injection Hr as <-.
      rewrite Hp2 in Hop. injection Hop as <-.
      split; [apply Hc; by eapply list_elem_of_lookup_2|].
      exists c, j, x. split; [|done].
      change (c1 :: rest1 ++ [c]) with ((c1 :: rest1) ++ [c]).
      apply elem_of_app. right. by apply list_elem_of_singleton.
Qed.

End BinFacts.

(** ** The entries of the Pareto front *)

Module FrontEntryFacts.

Import Float FloatFacts NpFacts RunLogger LogFacts ParetoFacts FrontFacts
       GridFacts CallFacts RunFacts BinFacts.

(** [get_pareto_front] on a state whose three Pareto arrays have one
    length. *)
Lemma get_pareto_front_arrays self pc pr pp b :
  pareto_complexities self = Some pc ->
  pareto_rewards self = Some pr -> pareto_programs self = Some pp ->
  length pc = length pr -> length pp = length pr -> batch self = Some b ->
  let mask := pareto_valid <$> pr in
  let rv := Np.select pr mask in
  (rv = [] /\ get_pareto_front self = Raise IndexError) \/
  (rv <> [] /\ exists fr fp fc,
     get_pareto_front self = Ok (fc, fp, fr, front_rmse_of b <$> fr) /\
     Np.take rv (front_indices rv) = Ok fr /\
     Np.take (Np.select pp mask) (front_indices rv) = Ok fp /\
     Np.take (Np.select pc mask) (front_indices rv) = Ok fc).
Proof.
  intros Hpc Hpr Hpp Hl1 Hl2 Hb mask rv.
  unfold get_pareto_front, attr. rewrite Hpc, Hpr, Hpp, Hb.
  cbn [from_option mbind result_bind]. fold mask.
  unfold Np.compress.
  rewrite !decide_True by (unfold mask; rewrite length_fmap; lia).
  cbn [mbind result_bind]. fold rv.
  set (pv := Np.select pp mask). set (cv := Np.select pc mask).
  assert (length pv = length rv) as Hlp by (by apply select_same_mask).
  assert (length cv = length rv) as Hlc by (by apply select_same_mask).
  destruct rv as [|r0 rv'] eqn:Erv; [by left|]. right. split; [done|].
  destruct pv as [|p0 pv'] eqn:Epv; [done|].
  destruct cv as [|c0 cv'] eqn:Ecv; [done|].
  cbn [Np.item lookup list_lookup from_option mbind result_bind].
  destruct (front_loop_idx (p0 :: pv') (c0 :: cv') (r0 :: rv') Hlp Hlc
              (r0 :: rv') 0%nat [r0] [p0] [c0] r0 eq_refl eq_refl)
    as (srs & sps & scs & H1 & H2 & H3 & H4).
  rewrite H4. cbn [mbind result_bind].
  exists (r0 :: srs), (p0 :: sps), (c0 :: scs). split; [done|].
  unfold front_indices.
  cbn [Np.take Np.item lookup list_lookup from_option mbind result_bind].
  by rewrite H1, H2, H3.
Qed.

(** What [get_pareto_front] needs of the state to return. *)
Lemma get_pareto_front_Ok_inv self res :
  get_pareto_front self = Ok res ->
  exists pc pr pp b,
    pareto_complexities self = Some pc /\ pareto_rewards self = Some pr /\
    pareto_programs self = Some pp /\
    length pc = length pr /\ length pp = length pr /\ batch self = Some b.
Proof.
  unfold get_pareto_front. intros H.
  inv_bind H as pr Hpr. inv_bind H as rv Hrv. inv_bind H as pp Hpp.
  inv_bind H as pv Hpv. inv_bind H as pc Hpc. inv_bind H as cv Hcv.
  inv_bind H as r0 Hr0. inv_bind H as p0 Hp0. inv_bind H as c0 Hc0.
  inv_bind H as [[fr fp] fc] Hloop. inv_bind H as b Hb.
  apply from_option_Ok in Hpr, Hpp, Hpc, Hb.
  apply compress_Ok in Hpv as [Hl2 _], Hcv as [Hl3 _].
  rewrite length_fmap in Hl2, Hl3.
  by exists pc, pr, pp, b.
Qed.

(** The bins that a mask selects, with their complexities on the grid. *)
Lemma select_seq_lookup {A} (a : list A) : forall mask s j c,
  Np.select (Z.of_nat <$> seq s (length a)) mask !! j = Some c ->
  exists i, c = Z.of_nat (s + i) /\ Np.select a mask !! j = a !! i.
Proof.
  induction a as [|x a IH]; intros mask s j c; [done|].
  destruct mask as [|[] mask]; cbn [length seq fmap list_fmap Np.select];
    [done| |].
  - destruct j as [|j]; cbn [lookup list_lookup].
    + intros [= <-]. exists 0%nat. by rewrite Nat.add_0_r.
    + intros H. destruct (IH _ _ _ _ H) as (i & -> & Hi).
      exists (S i). split; [f_equal; lia|done].
  - intros H. destruct (IH _ _ _ _ H) as (i & -> & Hi).
    exists (S i). split; [f_equal; lia|done].
Qed.

Lemma select_arange_lookup {A B} (a : list A) (b : list B) n mask j c :
  length a = n -> length b = n ->
  Np.select (Np.arange n) mask !! j = Some c ->
  0 <= c /\ Np.select a mask !! j = a !! Z.to_nat c /\
  Np.select b mask !! j = b !! Z.to_nat c.
Proof.
  intros <- Hb H. unfold Np.arange in H.
  destruct (select_seq_lookup a _ _ _ _ H) as (i & -> & Hi).
  rewrite <- Hb in H.
  destruct (select_seq_lookup b _ _ _ _ H) as (i' & Heq & Hi').
  assert (i' = i) as -> by lia.
  rewrite Nat2Z.id. split; [lia|done].
Qed.

(** The last reward of the front that the loop builds is the greatest of
    the rewards it ran over. *)
Lemma front_idx_last rv : forall rs i l srs,
  rs = drop i rv -> Np.take rv (front_idx i rs l) = Ok srs ->
  isnan l = false -> nonan rs ->
  exists best, last (l :: srs) = Some best /\ leb l best = true /\
    forall r, r ∈ rs -> leb r best = true.
Proof.
  induction rs as [|r rs IH]; intros i l srs Hrs Htake Hl Hnn.
  - injection Htake as <-. exists l. split; [done|].
    split; [by apply leb_refl|]. by intros r ?%elem_of_nil.
  - apply drop_cons_lookup in Hrs as [Hi Hrs'].
    apply Forall_cons in Hnn as [Hr Hnn]. cbn [front_idx] in Htake.
    destruct (gtb r l) eqn:E.
    + cbn [Np.take] in Htake. inv_bind Htake as x Hx.
      inv_bind Htake as xs Hxs. injection Htake as <-.
      apply item_Ok in Hx. assert (x = r) as -> by congruence.
      destruct (IH _ _ _ Hrs' Hxs Hr Hnn) as (best & Hlast & Hle & Hall).
      exists best. split; [done|]. split.
      * eapply leb_trans; [|exact Hle]. by apply ltb_leb.
      * intros y [->|Hy]%elem_of_cons; [done|by apply Hall].
    + destruct (IH _ _ _ Hrs' Htake Hl Hnn) as (best & Hlast & Hle & Hall).
      exists best. split; [done|]. split; [done|].
      intros y [->|Hy]%elem_of_cons; [|by apply Hall].
      eapply leb_trans; [|exact Hle].
      unfold gtb in E. rewrite ltb_negb_leb in E by done.
      by apply negb_false_iff in E.
Qed.

(** From a fresh logger the calls since the reset start with a call of
    epoch 0. *)
Lemma since_reset_head path save fs0 cs st :
  run (RunLogger.init path save, fs0) cs = Ok st -> cs <> [] ->
  exists c0 rest, since_reset cs = c0 :: rest /\ call_epoch c0 = 0.
Proof.
  revert st. induction cs as [|c cs IH] using rev_ind; [done|].
  intros st Hrun _. apply run_snoc in Hrun as (st1 & Hrun & Hc).
  rewrite since_reset_snoc. case_decide as He; [by exists c, []|].
  destruct (decide (cs = [])) as [->|Hne].
  - injection Hrun as <-.
    by pose proof (log_call_unset_epoch _ _ _ _ (init_unset _ _) Hc).
  - destruct (IH _ Hrun Hne) as (c0 & rest & -> & He0).
    by exists c0, (rest ++ [c]).
Qed.

End FrontEntryFacts.

Module FrontEntryTheorems.

Import Float FloatFacts NpFacts RunLogger LogFacts ParetoFacts FrontFacts
       GridFacts CallFacts RunFacts BinFacts FrontEntryFacts.

(** Property X12. After calls of [log] that contain one with epoch 0 (no NaN
    reward), [pareto_programs] goes with [pareto_rewards]: a bin without a
    program holds NaN, and the program of a bin [i] is a program that was
    logged since the most recent call of epoch 0, with a complexity that
    rounds to [i] and with the reward that the bin holds. *)
Theorem pareto_programs_match_rewards st0 cs self fs c0 rest :
  rewards_nonan cs -> run st0 cs = Ok (self, fs) ->
  since_reset cs = c0 :: rest -> call_epoch c0 = 0 ->
  exists pr pp,
    pareto_rewards self = Some pr /\ pareto_programs self = Some pp /\
    length pp = length pr /\
    forall i r op, pr !! i = Some r -> pp !! i = Some op ->
      match op with
      | None => r = NaN
      | Some p =>
          isnan r = false /\ logged_in_bin (c0 :: rest) (Z.of_nat i) p r
      end.
Proof.
  intros Hnn Hrun Hsr He0.
  exact (run_bins_inv st0 cs (self, fs) Hnn Hrun c0 rest Hsr He0).
Qed.

Lemma pareto_programs_match_rewards_witness :
  rewards_nonan demo_calls /\
  run demo_init demo_calls = Ok (demo_final.1, demo_final.2) /\
  exists pr pp,
    pareto_rewards demo_final.1 = Some pr /\
    pareto_programs demo_final.1 = Some pp /\ length pp = length pr.
Proof.
  refine (conj DemoFacts.demo_rewards_nonan
            (conj DemoFacts.demo_run_pair _)).
  destruct (pareto_programs_match_rewards demo_init demo_calls
              demo_final.1 demo_final.2
              (demo_call 0 "p" [ratio 1 2; ratio 1 3; ratio 1 4] [0%nat])
              [ demo_call 1 "q" [ratio 1 5; ratio 2 5; ratio 9 10] [2%nat];
                demo_call 2 "r" [ratio 1 5; ratio 1 5; ratio 2 5] [2%nat] ]
              DemoFacts.demo_rewards_nonan DemoFacts.demo_run_pair
              eq_refl eq_refl)
    as (pr & pp & Hpr & Hpp & Hlen & _).
  exists pr, pp. exact (conj Hpr (conj Hpp Hlen)).
Defined.

(** Property X13. The entries of the front that [get_pareto_front] returns, in
    a state reached by calls of [log] from a fresh logger: the entry [k]
    has a complexity [c] of the grid, the reward and the program that the
    bin [c] of the Pareto arrays holds, a reward that is a number greater
    than 0, and the RMSE computed from this reward. When no logged reward
    is NaN the program is one that was logged since the most recent call
    of epoch 0 with this reward and a complexity that rounds to [c]. *)
Theorem pareto_front_entries path save fs0 cs self fs fc fp fr rmse :
  run (RunLogger.init path save, fs0) cs = Ok (self, fs) ->
  get_pareto_front self = Ok (fc, fp, fr, rmse) ->
  exists pr pp b,
    pareto_rewards self = Some pr /\ pareto_programs self = Some pp /\
    batch self = Some b /\
    forall k c, fc !! k = Some c ->
      exists r op,
        0 <= c /\ pr !! Z.to_nat c = Some r /\ pp !! Z.to_nat c = Some op /\
        pareto_valid r = true /\
        fr !! k = Some r /\ fp !! k = Some op /\
        rmse !! k = Some (front_rmse_of b r) /\
        (rewards_nonan cs ->
         exists p, op = Some p /\ logged_in_bin (since_reset cs) c p r).
Proof.
  intros Hrun Hfront.
  assert (cs <> []) as Hne.
  { intros ->. injection Hrun as <- <-. discriminate Hfront. }
  destruct (FrontTheorems.get_pareto_front_reached _ _ _ _ _ _ Hrun Hne)
    as (n & pr & pp & b & Hpc & Hpr & Hpp & Hl1 & Hl2 & Hb & Hcases).
  exists pr, pp, b. repeat (split; [done|]).
  cbn zeta in Hcases.
  destruct Hcases as [[_ Hraise]|(Hrv & fr' & fp' & fc' & Hok & Hfr & Hfp
                                  & Hfc)];
    [congruence|].
  rewrite Hok in Hfront. injection Hfront as <- <- <- <-.
  intros k c Hk.
  destruct (take_Ok _ _ _ Hfc) as [Hlc Hatc].
  destruct (take_Ok _ _ _ Hfr) as [_ Hatr].
  destruct (take_Ok _ _ _ Hfp) as [_ Hatp].
  destruct (lookup_lt_is_Some_2 (front_indices
              (Np.select pr (pareto_valid <$> pr))) k) as [j Hj].
  { rewrite <- Hlc. by eapply lookup_lt_Some. }
  destruct (Hatc k j Hj) as [Hcj _].
  destruct (Hatr k j Hj) as [Hrj [r Hr]].
  destruct (Hatp k j Hj) as [Hpj [op Hop]].
  rewrite Hk in Hcj. symmetry in Hcj.
  destruct (select_arange_lookup pr pp n _ _ _ Hl1 Hl2 Hcj)
    as (Hc0 & Hsr & Hsp).
  assert (pareto_valid r = true) as Hvalid.
  { apply (select_valid pareto_valid pr r).
    by eapply list_elem_of_lookup_2. }
  exists r, op. split; [done|]. split; [congruence|]. split; [congruence|].
  split; [done|]. split; [congruence|]. split; [congruence|].
  split.
  { rewrite list_lookup_fmap, Hrj, Hr. done. }
  intros Hnn.
  destruct (since_reset_head _ _ _ _ _ Hrun Hne) as (c0 & rest & Hsr0 & He0).
  destruct (run_bins_inv _ _ _ Hnn Hrun c0 rest Hsr0 He0)
    as (pr2 & pp2 & Hpr2 & Hpp2 & _ & Hinv).
  cbn [fst] in Hpr2, Hpp2.
  assert (pr2 = pr) as -> by congruence.
  assert (pp2 = pp) as -> by congruence.
  specialize (Hinv (Z.to_nat c) r op ltac:(congruence) ltac:(congruence)).
  destruct op as [p|].
  - exists p. split; [done|]. destruct Hinv as [_ Hlog].
    rewrite Z2Nat.id in Hlog by done. by rewrite Hsr0.
  - subst r. discriminate Hvalid.
Qed.

Lemma pareto_front_entries_witness :
  run (RunLogger.init (Some "run_log.csv"%string) true, ∅) demo_calls
    = Ok (demo_final.1, demo_final.2) /\
  get_pareto_front demo_final.1
    = Ok ([1; 3], [Some (mkProgram 0 "pa"); Some (mkProgram 2 "qc")],
          [ratio 1 2; ratio 9 10],
          front_rmse_of (demo_batch "r") <$> [ratio 1 2; ratio 9 10]) /\
  exists pr pp,
    pareto_rewards demo_final.1 = Some pr /\
    pareto_programs demo_final.1 = Some pp /\
    pr !! 3%nat = Some (ratio 9 10) /\
    pp !! 3%nat = Some (Some (mkProgram 2 "qc")).
Proof.
  assert (get_pareto_front demo_final.1
          = Ok ([1; 3], [Some (mkProgram 0 "pa"); Some (mkProgram 2 "qc")],
                [ratio 1 2; ratio 9 10],
                front_rmse_of (demo_batch "r") <$> [ratio 1 2; ratio 9 10]))
    as Hfront by (vm_compute; reflexivity).
  refine (conj DemoFacts.demo_run_pair (conj Hfront _)).
  destruct (pareto_front_entries (Some "run_log.csv"%string) true ∅
              demo_calls demo_final.1 demo_final.2 _ _ _ _
              DemoFacts.demo_run_pair Hfront)
    as (pr & pp & b & Hpr & Hpp & _ & Hk).
  destruct (Hk 1%nat 3 eq_refl)
    as (r & op & _ & Hr & Hop & _ & Hfr & Hfp & _).
  exists pr, pp. refine (conj Hpr (conj Hpp _)).
  injection Hfr as <-. injection Hfp as <-. exact (conj Hr Hop).
Defined.

(** Property X14. The front that [get_pareto_front] returns ends with the
    best candidate: its last reward is the greatest of the rewards of
    [pareto_rewards] that are numbers greater than 0. *)
Theorem pareto_front_ends_with_best path save fs0 cs self fs fc fp fr rmse :
  run (RunLogger.init path save, fs0) cs = Ok (self, fs) ->
  get_pareto_front self = Ok (fc, fp, fr, rmse) ->
  exists pr best,
    pareto_rewards self = Some pr /\ last fr = Some best /\
    best ∈ pr /\ pareto_valid best = true /\
    forall r, r ∈ pr -> pareto_valid r = true -> leb r best = true.
Proof.
  intros Hrun Hfront.
  assert (cs <> []) as Hne.
  { intros ->. injection Hrun as <- <-. discriminate Hfront. }
  destruct (FrontTheorems.get_pareto_front_reached _ _ _ _ _ _ Hrun Hne)
    as (n & pr & pp & b & Hpc & Hpr & Hpp & Hl1 & Hl2 & Hb & Hcases).
  cbn zeta in Hcases.
  destruct Hcases as [[_ Hraise]|(Hrv & fr' & fp' & fc' & Hok & Hfr & _)];
    [congruence|].
  rewrite Hok in Hfront. injection Hfront as <- <- <- <-.
  set (rv := Np.select pr (pareto_valid <$> pr)) in *.
  assert (nonan rv) as Hnn.
  { apply Forall_forall. intros r Hr.
    apply (select_valid pareto_valid pr r) in Hr as [_ Hv].
    unfold pareto_valid in Hv. apply andb_true_iff in Hv as [Hv _].
    by apply negb_true_iff in Hv. }
  destruct rv as [|r0 rv'] eqn:Erv; [done|].
  unfold front_indices in Hfr. cbn [Np.take] in Hfr.
  inv_bind Hfr as x Hx. inv_bind Hfr as srs Hsrs. injection Hfr as <-.
  apply item_Ok in Hx. injection Hx as <-.
  pose proof Hnn as Hnn'. apply Forall_cons in Hnn' as [Hr0 _].
  destruct (front_idx_last (r0 :: rv') (r0 :: rv') 0%nat r0 srs eq_refl Hsrs
              Hr0 Hnn) as (best & Hlast & _ & Hall).
  assert (best ∈ r0 :: rv') as Hbest.
  { apply last_Some_elem_of in Hlast.
    apply elem_of_cons in Hlast as [->|Hin]; [by left|].
    apply (take_elem _ _ _ _ Hsrs) in Hin as (j & _ & Hj).
    by eapply list_elem_of_lookup_2. }
  rewrite <- Erv in Hbest, Hall. unfold rv in Hbest, Hall.
  apply (select_valid pareto_valid pr best) in Hbest as [Hin Hv].
  exists pr, best. repeat (split; [done|]).
  intros r Hr Hrv'. apply Hall. by apply (select_valid pareto_valid pr r).
Qed.

Lemma pareto_front_ends_with_best_witness :
  run (RunLogger.init (Some "run_log.csv"%string) true, ∅) demo_calls
    = Ok (demo_final.1, demo_final.2) /\
  get_pareto_front demo_final.1
    = Ok ([1; 3], [Some (mkProgram 0 "pa"); Some (mkProgram 2 "qc")],
          [ratio 1 2; ratio 9 10],
          front_rmse_of (demo_batch "r") <$> [ratio 1 2; ratio 9 10]) /\
  exists pr, pareto_rewards demo_final.1 = Some pr /\
    forall r, r ∈ pr -> pareto_valid r = true -> leb r (ratio 9 10) = true.
Proof.
  assert (get_pareto_front demo_final.1
          = Ok ([1; 3], [Some (mkProgram 0 "pa"); Some (mkProgram 2 "qc")],
                [ratio 1 2; ratio 9 10],
                front_rmse_of (demo_batch "r") <$> [ratio 1 2; ratio 9 10]))
    as Hfront by (vm_compute; reflexivity).
  refine (conj DemoFacts.demo_run_pair (conj Hfront _)).
  destruct (pareto_front_ends_with_best (Some "run_log.csv"%string) true ∅
              demo_calls demo_final.1 demo_final.2 _ _ _ _
              DemoFacts.demo_run_pair Hfront)
    as (pr & best & Hpr & Hlast & _ & _ & Hall).
  exists pr. refine (conj Hpr _). injection Hlast as <-. exact Hall.
Defined.

End FrontEntryTheorems.

(** ** The Pareto arrays between two resets *)

Module ImproveTheorems.

Import Float FloatFacts NpFacts RunLogger LogFacts ParetoFacts FrontFacts
       GridFacts CallFacts RunFacts BinFacts FrontEntryFacts.

(** A call with another epoch than 0 keeps the shape of the Pareto
    arrays, and no bin that holds a number gets a smaller reward. *)
Lemma log_call_bins_improve l fs c l' fs' :
  call_epoch c <> 0 -> log_call (l, fs) c = Ok (l', fs') ->
  pareto_complexities l' = pareto_complexities l /\
  is_Some (batch l') /\
  (forall pp, pareto_programs l = Some pp ->
     exists pp', pareto_programs l' = Some pp' /\ length pp' = length pp) /\
  (forall pr, pareto_rewards l = Some pr ->
     exists pr', pareto_rewards l' = Some pr' /\ length pr' = length pr /\
       forall i r, pr !! i = Some r -> isnan r = false ->
         exists r', pr' !! i = Some r' /\ leb r r' = true).
Proof.
  intros He0 Hlog.
  apply log_call_pareto in Hlog
    as (self1 & Hb & HR & He & Hpc & Hpr & Hpp & Hpl).
  apply pareto_logger_steps in Hpl
    as (b' & rw' & pc & pr0 & pp0 & pr' & pp' & Hb' & HR' & Hinit & Hloop
        & ->).
  rewrite decide_False in Hinit by (rewrite He; congruence).
  destruct Hinit as (Hpc' & Hpr' & Hpp').
  destruct (pareto_loop_update _ _ _ _ _ _ _ _ Hloop) as (Hl1 & Hl2 & Hbins).
  cbn [set_pareto pareto_complexities pareto_rewards pareto_programs batch].
  split; [congruence|]. split; [by rewrite Hb|]. split.
  - intros pp Hpp0. exists pp'. split; [done|]. congruence.
  - intros pr Hpr0. assert (pr0 = pr) as -> by congruence.
    exists pr'. split; [done|]. split; [done|]. intros i r Hr Hnan.
    destruct (Hbins i)
      as [[Hr' _]|(k & c' & cur & r2 & p & j & x & _ & _ & Hcur & Hr2 & _
                   & Hup & _)].
    + exists r. split; [congruence|]. by apply leb_refl.
    + exists r2. split; [done|]. assert (cur = r) as -> by congruence.
      rewrite Hnan, orb_false_r in Hup. done.
Qed.

Lemma run_bins_improve cs : forall st st',
  Forall (fun c => call_epoch c <> 0) cs -> run st cs = Ok st' ->
  pareto_complexities st'.1 = pareto_complexities st.1 /\
  (is_Some (batch st.1) -> is_Some (batch st'.1)) /\
  (forall pp, pareto_programs st.1 = Some pp ->
     exists pp', pareto_programs st'.1 = Some pp' /\ length pp' = length pp) /\
  (forall pr, pareto_rewards st.1 = Some pr ->
     exists pr', pareto_rewards st'.1 = Some pr' /\ length pr' = length pr /\
       forall i r, pr !! i = Some r -> isnan r = false ->
         exists r', pr' !! i = Some r' /\ leb r r' = true).
Proof.
  induction cs as [|c cs IH]; intros st st' Hep Hrun.
  - injection Hrun as <-. split; [done|]. split; [done|]. split; [eauto|].
    intros pr Hpr. exists pr. split; [done|]. split; [done|].
    intros i r Hr Hnan. exists r. split; [done|]. by apply leb_refl.
  - apply Forall_cons in Hep as [Hc Hep]. cbn [run] in Hrun.
    inv_bind Hrun as [l1 fs1] Hlog. destruct st as [l fs].
    destruct (log_call_bins_improve _ _ _ _ _ Hc Hlog)
      as (Hpc1 & Hb1 & Hpp1 & Hpr1).
    destruct (IH _ _ Hep Hrun) as (Hpc2 & Hb2 & Hpp2 & Hpr2).
    cbn [fst] in *.
    split; [congruence|]. split; [auto|]. split.
    + intros pp Hpp. destruct (Hpp1 pp Hpp) as (pp1 & Hq1 & Hlen1).
      destruct (Hpp2 pp1 Hq1) as (pp2 & Hq2 & Hlen2).
      exists pp2. split; [done|]. congruence.
    + intros pr Hpr. destruct (Hpr1 pr Hpr) as (pr1 & Hq1 & Hlen1 & Hup1).
      destruct (Hpr2 pr1 Hq1) as (pr2 & Hq2 & Hlen2 & Hup2).
      exists pr2. split; [done|]. split; [congruence|].
      intros i r Hr Hnan. destruct (Hup1 i r Hr Hnan) as (r1 & Hr1 & Hle1).
      destruct (leb_nonan _ _ Hle1) as [_ Hnan1].
      destruct (Hup2 i r1 Hr1 Hnan1) as (r2 & Hr2 & Hle2).
      exists r2. split; [done|]. by eapply leb_trans.
Qed.

Lemma pareto_valid_leb r r' :
  pareto_valid r = true -> leb r r' = true -> pareto_valid r' = true.
Proof.
  unfold pareto_valid, gtb. intros [_ Hpos]%andb_true_iff Hle.
  destruct (leb_nonan _ _ Hle) as [_ ->]. cbn [negb andb].
  by eapply ltb_leb_trans.
Qed.

(** Property X15. Calls of [log] with other epochs than 0 only improve the
    Pareto arrays: their shape stays, a bin that holds a number holds a
    number at least as great afterwards, and when [get_pareto_front]
    returned before the calls it returns after them. *)
Theorem pareto_bins_only_improve st cs st' pr :
  Forall (fun c => call_epoch c <> 0) cs -> run st cs = Ok st' ->
  pareto_rewards st.1 = Some pr ->
  exists pr',
    pareto_rewards st'.1 = Some pr' /\ length pr' = length pr /\
    pareto_complexities st'.1 = pareto_complexities st.1 /\
    (forall i r, pr !! i = Some r -> isnan r = false ->
       exists r', pr' !! i = Some r' /\ leb r r' = true) /\
    (is_ok (get_pareto_front st.1) = true ->
     is_ok (get_pareto_front st'.1) = true).
Proof.
  intros Hep Hrun Hpr.
  destruct (run_bins_improve _ _ _ Hep Hrun) as (Hpc & Hb & Hpp & Hprs).
  destruct (Hprs pr Hpr) as (pr' & Hpr' & Hlen & Hup).
  exists pr'. repeat (split; [done|]). intros Hok.
  destruct (get_pareto_front st.1) as [res|] eqn:Hfront; [|done].
  destruct (get_pareto_front_Ok_inv _ _ Hfront)
    as (pc & pr0 & pp & b & Hpc0 & Hpr0 & Hpp0 & Hl1 & Hl2 & Hb0).
  assert (pr0 = pr) as -> by congruence.
  destruct (Hpp pp Hpp0) as (pp' & Hpp' & Hlenp).
  destruct (Hb ltac:(by rewrite Hb0)) as [b' Hb'].
  destruct (get_pareto_front_arrays st.1 pc pr pp b Hpc0 Hpr Hpp0 Hl1 Hl2 Hb0)
    as [[_ Hraise]|[Hrv _]]; [congruence|].
  destruct (get_pareto_front_arrays st'.1 pc pr' pp' b')
    as [[Hnil _]|(_ & fr & fp & fc & -> & _)]; try congruence; [|done].
  exfalso.
  destruct (Np.select pr (pareto_valid <$> pr)) as [|r rv] eqn:Erv; [done|].
  assert (r ∈ pr /\ pareto_valid r = true) as [Hin Hv].
  { apply (select_valid pareto_valid pr r). rewrite Erv. by left. }
  apply list_elem_of_lookup in Hin as [i Hi].
  assert (isnan r = false) as Hnan.
  { unfold pareto_valid in Hv. apply andb_true_iff in Hv as [Hv _].
    by apply negb_true_iff in Hv. }
  destruct (Hup i r Hi Hnan) as (r' & Hr' & Hle).
  assert (r' ∈ Np.select pr' (pareto_valid <$> pr')) as Hin'.
  { apply (select_valid pareto_valid pr' r').
    split; [by eapply list_elem_of_lookup_2|by eapply pareto_valid_leb]. }
  rewrite Hnil in Hin'. by apply elem_of_nil in Hin'.
Qed.

Lemma pareto_bins_only_improve_witness :
  Forall (fun c => call_epoch c <> 0) (drop 1 demo_calls) /\
  run demo_first (drop 1 demo_calls) = Ok demo_final /\
  exists pr pr',
    pareto_rewards demo_first.1 = Some pr /\
    pareto_rewards demo_final.1 = Some pr' /\ length pr' = length pr.
Proof.
  assert (Forall (fun c => call_epoch c <> 0) (drop 1 demo_calls)) as Hep
    by (repeat constructor; discriminate).
  assert (run demo_first (drop 1 demo_calls) = Ok demo_final) as Hrun
    by (vm_compute; reflexivity).
  assert (exists pr, pareto_rewards demo_first.1 = Some pr) as [pr Hpr]
    by (vm_compute; eexists; reflexivity).
  refine (conj Hep (conj Hrun _)).
  destruct (pareto_bins_only_improve demo_first (drop 1 demo_calls)
              demo_final pr Hep Hrun Hpr) as (pr' & Hpr' & Hlen & _).
  exists pr, pr'. exact (conj Hpr (conj Hpr' Hlen)).
Defined.

End ImproveTheorems.

Module TieTheorems.

Import Float FloatFacts NpFacts RunLogger LogFacts ParetoFacts FrontFacts
       GridFacts CallFacts RunFacts BinFacts.

(** One bin of [pareto_logger], when the batch attains the reward that
    the bin holds afterwards: the bin has taken the program of the
    batch. *)
Lemma pareto_step_tie b rw i c pr pp pr' pp' r :
  nonan (rewards_with_complexity c (n_complexity (programs b)) rw) ->
  pareto_step b rw i c (pr, pp) = Ok (pr', pp') ->
  pr' !! i = Some r ->
  r ∈ rewards_with_complexity c (n_complexity (programs b)) rw ->
  exists p j x,
    pp' !! i = Some (Some p) /\
    progs (programs b) !! j = Some p /\ rw !! j = Some r /\
    n_complexity (programs b) !! j = Some x /\
    eqb (round x) (of_Z c) = true.
Proof.
  intros Hnn. unfold pareto_step.
  set (cx := n_complexity (programs b)).
  set (matches := Np.argwhere (have_c cx c)). case_decide as Hlen.
  - intros H Hr Hin. inv_bind H as rs Hrs. inv_bind H as k Hk.
    inv_bind H as jmax Hjmax. inv_bind H as max_r Hmax_r.
    inv_bind H as cur Hcur.
    apply item_Ok in Hjmax, Hmax_r, Hcur.
    pose proof (take_argwhere c rw cx 0%nat rs Hrs) as Hrwc.
    rewrite drop_0 in Hrwc.
    destruct (take_Ok _ _ _ Hrs) as [Hlrs Hat].
    assert (nonan rs) as Hnrs by (by rewrite Hrwc).
    destruct (argmax_spec rs k Hnrs Hk) as (m & Hmk & Hm).
    assert (m = max_r) as ->.
    { destruct (Hat k jmax Hjmax) as [Heq _]. congruence. }
    rewrite <- Hrwc in Hin. destruct Hm as [_ Hle]. specialize (Hle r Hin).
    destruct (leb cur max_r || isnan cur) eqn:E.
    + inv_bind H as p Hp. inv_bind H as pp2 Hpp2. inv_bind H as pr2 Hpr2.
      injection H as <- <-. apply item_Ok in Hp.
      apply setitem_Ok in Hpp2 as [-> Hi2], Hpr2 as [-> Hi1].
      rewrite list_lookup_insert_eq in Hr by done. injection Hr as <-.
      assert (have_c cx c !! jmax = Some true) as Hmask.
      { apply argwhere_spec. by eapply list_elem_of_lookup_2. }
      unfold have_c in Hmask. rewrite list_lookup_fmap in Hmask.
      destruct (cx !! jmax) as [x|] eqn:Hx; [|done].
      injection Hmask as Hmask.
      exists p, jmax, x. by rewrite list_lookup_insert_eq.
    + injection H as <- <-. assert (cur = r) as -> by congruence.
      apply orb_false_iff in E as [E _]. congruence.
  - intros _ _ Hin.
    assert (matches = []) as Hm by (destruct matches; [done|simpl in *; lia]).
    pose proof (take_argwhere c rw cx 0%nat []) as Hrwc.
    unfold matches, Np.argwhere in Hm. rewrite Hm, drop_0 in Hrwc.
    rewrite <- Hrwc in Hin by done. by apply elem_of_nil in Hin.
Qed.

Lemma pareto_loop_tie b rw : forall cs i0 pr pp pr' pp',
  pareto_loop b rw i0 cs (pr, pp) = Ok (pr', pp') ->
  forall k c r, cs !! k = Some c ->
    nonan (rewards_with_complexity c (n_complexity (programs b)) rw) ->
    pr' !! (i0 + k)%nat = Some r ->
    r ∈ rewards_with_complexity c (n_complexity (programs b)) rw ->
    exists p j x,
      pp' !! (i0 + k)%nat = Some (Some p) /\
      progs (programs b) !! j = Some p /\ rw !! j = Some r /\
      n_complexity (programs b) !! j = Some x /\
      eqb (round x) (of_Z c) = true.
Proof.
  induction cs as [|c cs IH]; intros i0 pr pp pr' pp' H;
    [by intros k c r Hk|].
  cbn [pareto_loop] in H. inv_bind H as [pr1 pp1] Hstep.
  intros [|k] c' r Hk Hnn Hr Hin; cbn [lookup list_lookup] in Hk.
  - injection Hk as ->. rewrite Nat.add_0_r in *.
    destruct (pareto_loop_update _ _ _ _ _ _ _ _ H) as (_ & _ & Hbins).
    destruct (Hbins i0) as [[Hr1 Hp1]|(k & ? & ? & ? & ? & ? & ? & Hk & _)];
      [|lia].
    rewrite Hr1 in Hr. rewrite Hp1.
    by eapply pareto_step_tie.
  - replace (i0 + S k)%nat with (S i0 + k)%nat in * by lia.
    by eapply IH.
Qed.

(** Property X16. When the batch of the latest call attains the reward
    that a bin of [pareto_rewards] holds, and no program of this
    complexity has a NaN reward in this batch, the program of the bin is a
    program of this batch, also when an earlier batch had reached the same
    reward at this complexity: on a tie the newer program replaces the
    older one. *)
Theorem pareto_tie_takes_latest path save fs0 cs c self fs pr i r :
  nonan (call_rewards_at (Z.of_nat i) c) ->
  run (RunLogger.init path save, fs0) (cs ++ [c]) = Ok (self, fs) ->
  pareto_rewards self = Some pr -> pr !! i = Some r ->
  r ∈ call_rewards_at (Z.of_nat i) c ->
  exists pp p j x,
    pareto_programs self = Some pp /\ pp !! i = Some (Some p) /\
    progs (programs (call_batch c)) !! j = Some p /\
    call_rewards c !! j = Some r /\
    n_complexity (programs (call_batch c)) !! j = Some x /\
    eqb (round x) (of_Z (Z.of_nat i)) = true.
Proof.
  intros Hnn Hrun Hpr Hr Hin.
  apply run_snoc in Hrun as ([l1 fs1] & Hrun & Hlog).
  assert (pareto_unset l1 \/ exists n, pareto_grid n l1) as Hgrid.
  { destruct (decide (cs = [])) as [->|Hne].
    - injection Hrun as <- <-. left. apply init_unset.
    - right. eapply (run_grid _ cs (l1, fs1)); [|done|done].
      left. apply init_unset. }
  apply log_call_pareto in Hlog
    as (self1 & Hb & HR & He & Hpc & Hpr1 & Hpp1 & Hpl).
  apply pareto_logger_steps in Hpl
    as (b' & rw' & pc & pr0 & pp0 & pr' & pp' & Hb' & HR' & Hinit & Hloop
        & ->).
  assert (b' = call_batch c) as -> by congruence.
  assert (rw' = call_rewards c) as -> by congruence.
  cbn [set_pareto pareto_rewards pareto_programs] in *.
  injection Hpr as ->.
  assert (exists n, pc = Np.arange n) as [n ->].
  { case_decide.
    - destruct Hinit as (-> & _). eauto.
    - destruct Hinit as (Hpc' & _).
      destruct Hgrid as [(Hnone & _)|(n & pr2 & pp2 & Hpc2 & _)];
        [congruence|].
      exists n. congruence. }
  destruct (pareto_loop_update _ _ _ _ _ _ _ _ Hloop) as (Hl1 & _ & _).
  assert (i < n)%nat as Hi.
  { case_decide.
    - destruct Hinit as (_ & -> & _). apply lookup_lt_Some in Hr.
      unfold Np.full in Hl1.
      rewrite length_replicate, arange_length in Hl1. lia.
    - destruct Hinit as (Hpc' & Hpr' & _).
      destruct Hgrid as [(Hnone & _)|(n' & pr2 & pp2 & Hpc2 & Hpr2 & _ & Hlen
                                      & _)];
        [congruence|].
      assert (n' = n) as ->.
      { assert (Np.arange n' = Np.arange n) as Heq by congruence.
        apply (f_equal length) in Heq. by rewrite !arange_length in Heq. }
      apply lookup_lt_Some in Hr. assert (pr2 = pr0) as -> by congruence.
      lia. }
  destruct (pareto_loop_tie _ _ _ _ _ _ _ _ Hloop i (Z.of_nat i) r)
    as (p & j & x & Hp & Hrest); [by apply arange_lookup|done|done|done|].
  exists pp', p, j, x. by split.
Qed.

Lemma tie_run :
  run demo_init
    ([demo_call 0 "p" [ratio 1 2; ratio 1 3; ratio 1 4] [0%nat]]
     ++ [demo_call 1 "q" [ratio 1 2; ratio 1 5; ratio 1 5] [0%nat]])
  = Ok (tie_final.1, tie_final.2).
Proof. vm_compute. reflexivity. Qed.

Lemma pareto_tie_takes_latest_witness :
  nonan (call_rewards_at 1
           (demo_call 1 "q" [ratio 1 2; ratio 1 5; ratio 1 5] [0%nat])) /\
  logged_with tie_calls (mkProgram 0 "pa") (ratio 1 2) /\
  exists pr pp,
    pareto_rewards tie_final.1 = Some pr /\
    pr !! 1%nat = Some (ratio 1 2) /\
    pareto_programs tie_final.1 = Some pp /\
    pp !! 1%nat = Some (Some (mkProgram 0 "qa")).
Proof.
  assert (nonan (call_rewards_at 1
                   (demo_call 1 "q" [ratio 1 2; ratio 1 5; ratio 1 5]
                      [0%nat]))) as Hnn
    by (vm_compute; repeat constructor).
  assert (logged_with tie_calls (mkProgram 0 "pa") (ratio 1 2)) as Hlog.
  { exists (demo_call 0 "p" [ratio 1 2; ratio 1 3; ratio 1 4] [0%nat]),
      0%nat. split; [left|split; reflexivity]. }
  refine (conj Hnn (conj Hlog _)).
  assert (exists pr, pareto_rewards tie_final.1 = Some pr /\
                     pr !! 1%nat = Some (ratio 1 2)) as (pr & Hpr & Hr)
    by (vm_compute; eexists; split; reflexivity).
  destruct (pareto_tie_takes_latest (Some "run_log.csv"%string) true ∅
              [demo_call 0 "p" [ratio 1 2; ratio 1 3; ratio 1 4] [0%nat]]
              (demo_call 1 "q" [ratio 1 2; ratio 1 5; ratio 1 5] [0%nat])
              tie_final.1 tie_final.2 pr 1%nat (ratio 1 2) Hnn tie_run Hpr Hr
              ltac:(vm_compute; left))
    as (pp & p & j & x & Hpp & Hp & Hprog & Hrw & _).
  exists pr, pp. refine (conj Hpr (conj Hr (conj Hpp _))).
  destruct j as [|[|[|j]]]; try discriminate Hrw; try discriminate Hprog.
  injection Hprog as <-. exact Hp.
Defined.

End TieTheorems.

(** ** The path of the log and the exceptions of the visualiser *)

Module VisualiserFacts.

Import RunVisualiser.

Lemma split_dot_nonempty s : split_dot s <> [].
Proof.
  destruct s as [|c s]; simpl; [done|].
  destruct (Ascii.eqb c "."); [done|]. by destruct (split_dot s).
Qed.

Lemma split_dot_no_dot s : has_dot s = false -> split_dot s = [s].
Proof.
  induction s as [|c s IH]; simpl; [done|].
  destruct (Ascii.eqb c "."); simpl; [done|]. intros H. by rewrite IH.
Qed.

Lemma split_dot_app a b :
  split_dot (a +:+ String "." b) = split_dot a ++ split_dot b.
Proof.
  induction a as [|c a IH]; simpl; [done|].
  destruct (Ascii.eqb c "."); simpl; [by rewrite IH|].
  rewrite IH. pose proof (split_dot_nonempty a).
  by destruct (split_dot a).
Qed.

Lemma join_split_dot s : join (split_dot s) = without_dots s.
Proof.
  induction s as [|c s IH]; simpl; [done|].
  destruct (Ascii.eqb c "."); simpl; [done|].
  rewrite <- IH. by destruct (split_dot s).
Qed.

(** Property X17. The path of the log that [__init__] computes from
    [save_path]: what follows the last dot is dropped, and so is every dot
    of what precedes it, before [_log.csv] is appended; a path without a
    dot is dropped altogether. *)
Theorem save_path_log_drops_dots rate stem ext show save :
  has_dot ext = false ->
  (exists v,
     init rate (Some (stem +:+ String "." ext)) show save = Ok v /\
     save_path_log v = without_dots stem +:+ "_log.csv") /\
  (exists v,
     init rate (Some ext) show save = Ok v /\
     save_path_log v = "_log.csv"%string).
Proof.
  intros Hext. unfold init. cbn [attr from_option mbind result_bind].
  split; eexists; (split; [reflexivity|]); cbn [save_path_log].
  - rewrite split_dot_app, (split_dot_no_dot ext Hext).
    by rewrite removelast_last, join_split_dot.
  - by rewrite (split_dot_no_dot ext Hext).
Qed.

Lemma save_path_log_drops_dots_witness :
  has_dot "png" = false /\
  exists v,
    init 10 (Some "./runs/demo.png"%string) true true = Ok v /\
    save_path_log v = "/runs/demo_log.csv"%string.
Proof.
  refine (conj eq_refl _).
  destruct (save_path_log_drops_dots 10 "./runs/demo" "png" true true
              eq_refl) as [(v & Hv & Hlog) _].
  exists v. exact (conj Hv Hlog).
Defined.

(** Property X18. The exceptions that leave [visualise]: the one of
    [initialize] at epoch 0, a [TypeError] when the logger has not logged
    (its epoch is [None]), a [ZeroDivisionError] when the refresh rate is
    0; nothing that the drawing raises leaves the call. *)
Theorem visualise_raises_iff env self rl b e :
  raised (visualise env self rl b) = Some e <->
  (epoch rl = Some 0 /\ initialize_raises env = Some e) \/
  (epoch rl = None /\ e = TypeError) \/
  (exists ep, epoch rl = Some ep /\
     (ep = 0 -> initialize_raises env = None) /\
     epoch_refresh_rate self = 0 /\ e = ZeroDivisionError).
Proof.
  unfold visualise, initialize.
  destruct (epoch rl) as [ep|] eqn:Hep.
  - destruct (decide (Some ep = Some 0)) as [[= ->]|Hne].
    + destruct (initialize_raises env) as [e0|] eqn:Hinit; cbn.
      * split.
        -- intros [= ->]. by left.
        -- intros [[_ [= ->]]|[[? _]|(ep & [= <-] & Hok & _)]]; try done.
           by specialize (Hok eq_refl).
      * case_decide as Hrate; cbn.
        -- split.
           ++ intros [= <-]. right. right. by exists 0.
           ++ by intros [[_ ?]|[[? _]|(ep & _ & _ & _ & ->)]].
        -- rewrite decide_True by (by rewrite Z.mod_0_l).
           destruct (render _ _) as [t [e1|]]; cbn;
             (split; [done|]);
             by intros [[_ ?]|[[? _]|(ep & _ & _ & ? & _)]].
    + cbn. case_decide as Hrate; cbn.
      * split.
        -- intros [= <-]. right. right. exists ep.
           split; [done|]. split; [|done]. intros ->. done.
        -- by intros [[? _]|[[? _]|(ep' & _ & _ & _ & ->)]].
      * case_decide; [destruct (render _ _) as [t [e1|]]|]; cbn;
          (split; [done|]);
          by intros [[? _]|[[? _]|(ep' & _ & _ & ? & _)]].
  - rewrite decide_False by done. cbn. split.
    + intros [= <-]. right. by left.
    + by intros [[? _]|[[_ ->]|(ep' & ? & _)]].
Qed.

End VisualiserFacts.

(** ** What the histories hold *)

Module HistoryContents.

Import Float FloatFacts NpFacts RunLogger LogFacts CallFacts.

Lemma array_Ok {A} (rows Ra : list (list A)) :
  Np.array rows = Ok Ra -> Ra = rows.
Proof.
  unfold Np.array. destruct rows as [|r rows]; [by intros [= <-]|].
  destruct (forallb _ _); [by intros [= <-]|done].
Qed.

(** What one call appends to each history. *)
Lemma log_call_appends l fs c l' fs' :
  log_call (l, fs) c = Ok (l', fs') ->
  exists rk i row,
    Np.take (call_rewards c) (call_keep c) = Ok rk /\
    Np.argmax (call_rewards c) = Ok i /\
    tokens_complexity (programs (call_batch c)) !! i = Some row /\
    loss_history l' = loss_history l ++ [call_loss c] /\
    R_history l' = R_history l ++ [call_rewards c] /\
    mean_R_history l' = mean_R_history l ++ [Np.mean (call_rewards c)] /\
    R_history_train l' = R_history_train l ++ [rk] /\
    mean_R_train_history l' = mean_R_train_history l ++ [Np.mean rk] /\
    best_prog_complexity_history l'
      = best_prog_complexity_history l ++ [Np.sum row] /\
    mean_complexity_history l'
      = mean_complexity_history l
          ++ [Np.mean (Np.sum <$> tokens_complexity
                                    (programs (call_batch c)))] /\
    R_history_array l' = Some (R_history l') /\
    R_history_train_array l' = Some (R_history_train l').
Proof.
  unfold log_call. cbn [fst snd]. unfold log. intros H.
  inv_bind H as idx Hidx. inv_bind H as bp Hbp.
  inv_bind H as [h hof] Hbest. inv_bind H as rk Hrk. inv_bind H as m Hm.
  inv_bind H as row Hrow. inv_bind H as Ra HRa. inv_bind H as Rta HRta.
  inv_bind H as lp Hlp. inv_bind H as lu Hlu. inv_bind H as self2 Hpl.
  destruct (pareto_logger_inv _ _ Hpl) as (pc & pr & pp & Hself2).
  assert (l' = self2) as ->.
  { destruct (do_save self2); [inv_bind H as fs2 Hfs|];
      by injection H as <- _. }
  apply array_Ok in HRa as ->. apply array_Ok in HRta as ->.
  apply item_Ok in Hrow.
  exists rk, idx, row. rewrite Hself2. by repeat split.
Qed.

(** Property X19. After calls of [log] on an initialised logger, every
    history holds, call by call and in the order of the calls, what the
    call computed from its own arguments: the loss, the rewards, their
    mean, the rewards of the elite programs and their mean, the summed
    complexity of the best program of the batch, the mean summed
    complexity; the two arrays are the two reward histories. *)
Theorem histories_record_calls l fs0 cs self fs :
  run (initialize l, fs0) cs = Ok (self, fs) ->
  loss_history self = call_loss <$> cs /\
  R_history self = call_rewards <$> cs /\
  mean_R_history self = (fun c => Np.mean (call_rewards c)) <$> cs /\
  Forall2 (fun c rk => Np.take (call_rewards c) (call_keep c) = Ok rk)
          cs (R_history_train self) /\
  mean_R_train_history self = Np.mean <$> R_history_train self /\
  Forall2 (fun c x =>
             exists i row,
               Np.argmax (call_rewards c) = Ok i /\
               tokens_complexity (programs (call_batch c)) !! i = Some row /\
               x = Np.sum row)
          cs (best_prog_complexity_history self) /\
  mean_complexity_history self
    = (fun c => Np.mean (Np.sum <$> tokens_complexity
                                      (programs (call_batch c)))) <$> cs /\
  (cs <> [] ->
   R_history_array self = Some (call_rewards <$> cs) /\
   R_history_train_array self = Some (R_history_train self)).
Proof.
  revert self fs. induction cs as [|c cs IH] using rev_ind; intros self fs H.
  - injection H as <- <-. cbn. repeat split; try constructor; done.
  - apply run_snoc in H as ([l1 fs1] & Hrun & Hc).
    destruct (IH _ _ Hrun) as (H1 & H2 & H3 & H4 & H5 & H6 & H7 & _).
    destruct (log_call_appends _ _ _ _ _ Hc)
      as (rk & i & row & Hrk & Hi & Hrow & E1 & E2 & E3 & E4 & E5 & E6 & E7
          & E8 & E9).
    rewrite E8, E9, E1, E2, E3, E4, E5, E6, E7.
    rewrite H1, H2, H3, H5, H7, !fmap_app. cbn [fmap list_fmap].
    repeat split; try done.
    + apply Forall2_app; [done|]. by repeat constructor.
    + apply Forall2_app; [done|]. repeat constructor. by exists i, row.
Qed.

Lemma histories_record_calls_witness :
  run (initialize demo_init.1, demo_init.2) demo_calls
    = Ok (demo_final.1, demo_final.2) /\
  R_history demo_final.1 = call_rewards <$> demo_calls /\
  R_history_array demo_final.1 = Some (call_rewards <$> demo_calls).
Proof.
  refine (conj DemoFacts.demo_run_pair _).
  destruct (histories_record_calls demo_init.1 demo_init.2 demo_calls
              demo_final.1 demo_final.2 DemoFacts.demo_run_pair)
    as (_ & HR & _ & _ & _ & _ & _ & Harr).
  destruct (Harr ltac:(discriminate)) as [Ha _].
  exact (conj HR Ha).
Defined.

End HistoryContents.
